(** * Agricola player board: a shallow embedding of [agricola/utils.py] and
    [agricola/player.py], and the properties of the board engine.

    Python integers are [Z]; grid cells are pairs of integers; a [dict] or a
    [Counter] is an association list in insertion order with unique keys;
    exceptions are values of [exn].  Stateful methods of [Player] thread the
    board explicitly and, when they raise, return the board as it is at the
    moment of the raise, so that partial application is observable. *)

From Stdlib Require Import ZArith List String Bool Lia Permutation Arith Sorted.
Import ListNotations.
Open Scope string_scope.
Open Scope list_scope.
Open Scope Z_scope.

(** ** Exceptions and fallible computations *)

(** The [Agricola*] classes are imported by [player.py] from the package
    root, whose file is not part of the sources; only their names are used. *)
Inductive exn : Type :=
| IndexError | TypeError | AttributeError | KeyError | StopIteration
| ValueError
| AgricolaException | AgricolaNotEnoughResources | AgricolaLogicError
| AgricolaPoorlyFormed | AgricolaImpossible.

Inductive result (A : Type) : Type :=
| Ok (a : A)
| Err (e : exn).
Arguments Ok {A} a.
Arguments Err {A} e.

Definition rbind {A B} (r : result A) (k : A -> result B) : result B :=
  match r with
  | Ok a => k a
  | Err e => Err e
  end.

Notation "x <- r ;; k" := (rbind r (fun x => k))
  (at level 61, r at next level, right associativity).
Notation "r ;;; k" := (rbind r (fun _ => k))
  (at level 61, right associativity).

(** [for x in l: f(x)] where the body may raise. *)
Fixpoint for_each {A} (f : A -> result unit) (l : list A) : result unit :=
  match l with
  | [] => Ok tt
  | x :: t => f x ;;; for_each f t
  end.

Definition cell : Type := (Z * Z)%type.

Definition cell_eqb (a b : cell) : bool :=
  (fst a =? fst b) && (snd a =? snd b).

Definition sum (l : list Z) : Z := fold_right Z.add 0 l.

Definition len {A} (l : list A) : Z := Z.of_nat (List.length l).

(** [range(n)]: empty when [n <= 0]. *)
Definition range (n : Z) : list Z := map Z.of_nat (seq 0 (Z.to_nat n)).

(** ** [collections.Counter] and insertion-ordered dictionaries *)

Section Dict.
Context {K : Type} (eqb : K -> K -> bool).

Definition dict : Type := list (K * Z).

Fixpoint dict_get (d : dict) (k : K) : option Z :=
  match d with
  | [] => None
  | (k', v) :: t => if eqb k k' then Some v else dict_get t k
  end.

(** [d[k] = v]: an existing key keeps its position, a new one goes last. *)
Fixpoint dict_set (k : K) (v : Z) (d : dict) : dict :=
  match d with
  | [] => [(k, v)]
  | (k', v') :: t =>
      if eqb k k' then (k', v) :: t else (k', v') :: dict_set k v t
  end.

Definition mem (k : K) (l : list K) : bool := existsb (eqb k) l.

(** One step of [Counter(iterable)]: [c[k] += 1]. *)
Fixpoint counter_incr (k : K) (c : dict) : dict :=
  match c with
  | [] => [(k, 1)]
  | (k', v) :: t =>
      if eqb k k' then (k', v + 1) :: t else (k', v) :: counter_incr k t
  end.

Definition Counter (l : list K) : dict :=
  fold_left (fun c k => counter_incr k c) l [].

(** [set(l)] / the node set of a graph: first occurrences, in order. *)
Definition distinct (l : list K) : list K :=
  fold_left (fun acc k => if mem k acc then acc else acc ++ [k]) l [].
End Dict.

(** ** utils.py *)

Module Utils.

(** [orthog_adjacent]: [abs_diff] has exactly one non-zero entry and sums
    to one. *)
Definition count_nonzero (l : list Z) : Z :=
  len (filter (fun x => negb (x =? 0)) l).

Definition orthog_adjacent (a b : cell) : bool :=
  let abs_diff := [Z.abs (fst a - fst b); Z.abs (snd a - snd b)] in
  (count_nonzero abs_diff =? 1) && (sum abs_diff =? 1).

(** [index_check]: [any(idx < 0) or any(idx >= shape)] raises. *)
Definition index_check (idx shape : cell) : result unit :=
  if ((fst idx <? 0) || (snd idx <? 0))
     || ((fst idx >=? fst shape) || (snd idx >=? snd shape))
  then Err IndexError else Ok tt.

Definition multiset : Type := list (Z * Z).

Fixpoint sub_at (k v : Z) (a : multiset) : multiset :=
  match a with
  | [] => []
  | (k', v') :: t =>
      if k =? k' then (k', Z.max 0 (v' - v)) :: t
      else (k', v') :: sub_at k v t
  end.

(** [multiset_subtract]: for every [(k, v)] of [b] with [k] in the copy of
    [a], [a_copy[k] = max(0, a_copy[k] - v)]. *)
Definition multiset_subtract (a b : multiset) : multiset :=
  fold_left (fun a_copy kv => sub_at (fst kv) (snd kv) a_copy) b a.

Definition multiset_weight (a : multiset) : Z :=
  sum (map (fun kv => fst kv * snd kv) a).

(** [itertools.product] of a list of iterables, the first component
    varying slowest. *)
Fixpoint product {A} (ls : list (list A)) : list (list A) :=
  match ls with
  | [] => [[]]
  | l :: t => flat_map (fun x => map (cons x) (product t)) l
  end.

(** [multiset_satisfy].  The [for] loop that returns [True] at the first
    successful candidate and [False] after the last one is [existsb]; a
    candidate that is too light ([continue]) counts as a failure. *)
Fixpoint multiset_satisfy (constraints : list Z) (ms : multiset) : bool :=
  match constraints with
  | [] => true
  | c0 :: rest =>
      match rest with
      | [] => multiset_weight ms >=? c0
      | _ :: _ =>
          if multiset_weight ms <? sum constraints then false
          else
            existsb
              (fun counts =>
                 let submultiset := combine (map fst ms) counts in
                 let weight := multiset_weight submultiset in
                 if weight <? c0 then false
                 else
                   let remaining := multiset_subtract ms submultiset in
                   multiset_satisfy rest remaining)
              (product (map (fun kv => range (snd kv + 1)) ms))
      end
  end.

End Utils.

(** ** player.py: spatial objects *)

(** A value obtained by attribute lookup, as far as integer arithmetic and
    comparison can tell: an [int], or some other object (a list, set, dict,
    string, tuple or bound method), for which [obj < int] and [int + obj]
    raise [TypeError]. *)
Inductive pyval : Type :=
| VInt (z : Z)
| VObj.

Definition as_int (v : pyval) : result Z :=
  match v with
  | VInt z => Ok z
  | VObj => Err TypeError
  end.

Record Room : Type := mkRoom { room_space : cell }.

Record Stable : Type := mkStable { stable_space : cell }.

(** [Stable.capacity]. *)
Definition Stable_capacity (s : Stable) : Z := 1.

(** The planted kind of a field: ['grain'], ['veg'] or [None]. *)
Inductive crop : Type := Grain | Veg.

Record Field : Type := mkField {
  field_space : cell;
  _n_items : Z;
  _kind : option crop
}.

Definition is_some {A} (o : option A) : bool :=
  match o with Some _ => true | None => false end.

(** [Field.__init__]: [bool(n_items) != bool(kind)] raises [ValueError]. *)
Definition Field_init (space : cell) (n_items : Z) (kind : option crop)
  : result Field :=
  if negb (Bool.eqb (negb (n_items =? 0)) (is_some kind)) then Err ValueError
  else Ok (mkField space n_items kind).

Definition is_empty (f : Field) : bool := _n_items f =? 0.

Definition plant_grain (f : Field) : result Field :=
  if negb (is_empty f) then Err AgricolaLogicError
  else Ok (mkField (field_space f) 3 (Some Grain)).

Definition plant_veg (f : Field) : result Field :=
  if negb (is_empty f) then Err AgricolaLogicError
  else Ok (mkField (field_space f) 2 (Some Veg)).

Definition fence : Type := (cell * cell)%type.

Definition fence_eqb (a b : fence) : bool :=
  cell_eqb (fst a) (fst b) && cell_eqb (snd a) (snd b).

Record Pasture : Type := mkPasture {
  pasture_spaces : list cell;
  n_stables : Z;
  _fences : list fence
}.

(** The argument of [Pasture(...)], [build_stables] and [plow_fields]: one
    cell (a tuple of two ints) or a list of cells.  [spaces[0]] raises
    [IndexError] on the empty list; [isinstance(spaces[0], int)] wraps a
    single cell. *)
Inductive spaces_arg : Type :=
| OneSpace (s : cell)
| Spaces (l : list cell).

Definition as_space_list (a : spaces_arg) : result (list cell) :=
  match a with
  | OneSpace s => Ok [s]
  | Spaces [] => Err IndexError
  | Spaces (s :: l) => Ok (s :: l)
  end.

Definition cell_fences (s : cell) : list fence :=
  [ ((fst s, snd s), (fst s, snd s + 1));
    ((fst s, snd s + 1), (fst s + 1, snd s + 1));
    ((fst s + 1, snd s), (fst s + 1, snd s + 1));
    ((fst s, snd s), (fst s + 1, snd s)) ].

(** [Pasture.__init__].  [list(set(spaces))] is taken in order of first
    occurrence (the order of a Python set is unspecified and nothing below
    depends on it); the fences are counted over the argument as given. *)
Definition Pasture_init (a : spaces_arg) : result Pasture :=
  spaces <- as_space_list a ;;
  let fences := flat_map cell_fences spaces in
  let counts := Counter fence_eqb fences in
  Ok {| pasture_spaces := distinct cell_eqb spaces;
        n_stables := 0;
        _fences := map fst (filter (fun fc => snd fc =? 1) counts) |}.

(** Attribute lookup on a [Pasture] instance: [__init__] sets [spaces],
    [n_stables] and [_fences]; [Pasture], [SpatialObject] and [AnimalPen]
    define a property and methods; no class defines [__getattr__], so any
    other name raises [AttributeError]. *)
Definition Pasture_getattr (p : Pasture) (name : string) : result pyval :=
  if String.eqb name "n_stables" then Ok (VInt (n_stables p))
  else if mem String.eqb name
            ["spaces"; "_fences"; "fences"; "fences_for_pasture_group";
             "adjacent_to"; "add_stables"; "capacity"; "index_check";
             "overlaps"; "orthog_graph"; "check_connected_group"]
  then Ok VObj
  else Err AttributeError.

(** [Pasture.capacity]: [self.n_spaces * 2**(self.n_stables)], the left
    operand first. *)
Definition Pasture_capacity (p : Pasture) : result Z :=
  n_spaces <- (v <- Pasture_getattr p "n_spaces" ;; as_int v) ;;
  n_stables <- (v <- Pasture_getattr p "n_stables" ;; as_int v) ;;
  Ok (n_spaces * 2 ^ n_stables).

Definition fences_for_pasture_group (pastures : list Pasture) : list fence :=
  distinct fence_eqb (flat_map _fences pastures).

(** Set difference [a - b]. *)
Definition set_minus (a b : list fence) : list fence :=
  filter (fun f => negb (mem fence_eqb f b)) a.

(** ** Connectivity of a group of spatial objects *)

(** The nodes of [G]: the cells of all the objects, each once. *)
Definition graph_nodes (objects : list (list cell)) : list cell :=
  distinct cell_eqb (List.concat objects).

(** One round of breadth-first search: the nodes not yet seen that are
    orthogonally adjacent to a seen node join the seen ones. *)
Definition bfs_step (nodes seen : list cell) : list cell :=
  seen ++ filter (fun c => negb (mem cell_eqb c seen)
                           && existsb (fun s => Utils.orthog_adjacent s c) seen)
                 nodes.

Fixpoint bfs (fuel : nat) (nodes seen : list cell) : list cell :=
  match fuel with
  | O => seen
  | S fuel' => bfs fuel' nodes (bfs_step nodes seen)
  end.

(** [nx.is_connected(G)] for a graph with at least one node: networkx is a
    dependency of the repository; the call is modelled as the library
    computes it, a breadth-first search from the first node reaching every
    node. *)
Definition is_connected (nodes : list cell) : bool :=
  match nodes with
  | [] => false
  | n0 :: _ =>
      Nat.eqb (List.length (bfs (List.length nodes) nodes [n0]))
              (List.length nodes)
  end.

(** [SpatialObject.check_connected_group], that is [orthog_graph] with
    [require_connected=True]. *)
Definition check_connected_group (objects : list (list cell)) : result unit :=
  let G := graph_nodes objects in
  if (len G >? 1) && negb (is_connected G) then Err AgricolaLogicError
  else Ok tt.

(** ** player.py: the player board *)

(** [self.resources], a dict with the fixed keys that [__init__] gives it. *)
Record Resources : Type := mkResources {
  food : Z; wood : Z; clay : Z; stone : Z; reed : Z; grain : Z; veg : Z
}.

Definition resources_get (r : Resources) (k : string) : option Z :=
  if String.eqb k "food" then Some (food r)
  else if String.eqb k "wood" then Some (wood r)
  else if String.eqb k "clay" then Some (clay r)
  else if String.eqb k "stone" then Some (stone r)
  else if String.eqb k "reed" then Some (reed r)
  else if String.eqb k "grain" then Some (grain r)
  else if String.eqb k "veg" then Some (veg r)
  else None.

(** [self.animals], a dict with keys [sheep], [boar], [cattle]. *)
Record Animals : Type := mkAnimals { sheep : Z; boar : Z; cattle : Z }.

Definition animals_get (a : Animals) (k : string) : option Z :=
  if String.eqb k "sheep" then Some (sheep a)
  else if String.eqb k "boar" then Some (boar a)
  else if String.eqb k "cattle" then Some (cattle a)
  else None.

(** [a[k] += n] for a key of the dict. *)
Definition animals_add (a : Animals) (k : string) (n : Z) : Animals :=
  if String.eqb k "sheep" then mkAnimals (sheep a + n) (boar a) (cattle a)
  else if String.eqb k "boar" then mkAnimals (sheep a) (boar a + n) (cattle a)
  else if String.eqb k "cattle" then mkAnimals (sheep a) (boar a) (cattle a + n)
  else a.

Definition animals_values (a : Animals) : list Z :=
  [sheep a; boar a; cattle a].

(** [self.cooking_rates], a dict with keys [grain], [veg], [sheep], [boar],
    [cattle]. *)
Record CookingRates : Type := mkCookingRates {
  cook_grain : Z; cook_veg : Z; cook_sheep : Z; cook_boar : Z; cook_cattle : Z
}.

Definition cooking_rates_get (c : CookingRates) (k : string) : option Z :=
  if String.eqb k "grain" then Some (cook_grain c)
  else if String.eqb k "veg" then Some (cook_veg c)
  else if String.eqb k "sheep" then Some (cook_sheep c)
  else if String.eqb k "boar" then Some (cook_boar c)
  else if String.eqb k "cattle" then Some (cook_cattle c)
  else None.

(** The board.  [_rooms], [_stables] and [_fields] are list objects that are
    also stored in [self.occupied] and only ever extended in place, so one
    field stands for both references.  [self._pastures] is REBOUND to a new
    list by [build_pastures], while [self.occupied['pasture']] keeps the list
    object that [__init__] put there: [occupied_pasture] is that object.
    [attrs] holds the instance attributes that [setattr] creates for names
    that [__init__] keeps inside [resources] and [animals].  The name, the
    cards, [house_progression] and [harvest_rates] are left out: no method
    below reads or writes them. *)
Record Player : Type := mkPlayer {
  resources : Resources;
  animals : Animals;
  shape : cell;
  house_type : string;
  _rooms : list Room;
  people : Z;
  people_avail : Z;
  _pastures : list Pasture;
  fences_avail : Z;
  _stables : list Stable;
  stables_avail : Z;
  _fields : list Field;
  room_cost : Z;
  bread_rates : list Z;
  cooking_rates : CookingRates;
  occupied_pasture : list Pasture;
  attrs : list (string * Z)
}.

Definition set_animals (p : Player) (x : Animals) : Player :=
  mkPlayer (resources p) x (shape p) (house_type p) (_rooms p) (people p)
    (people_avail p) (_pastures p) (fences_avail p) (_stables p)
    (stables_avail p) (_fields p) (room_cost p) (bread_rates p)
    (cooking_rates p) (occupied_pasture p) (attrs p).

Definition set_rooms (p : Player) (x : list Room) : Player :=
  mkPlayer (resources p) (animals p) (shape p) (house_type p) x (people p)
    (people_avail p) (_pastures p) (fences_avail p) (_stables p)
    (stables_avail p) (_fields p) (room_cost p) (bread_rates p)
    (cooking_rates p) (occupied_pasture p) (attrs p).

Definition set_people (p : Player) (x : Z) : Player :=
  mkPlayer (resources p) (animals p) (shape p) (house_type p) (_rooms p) x
    (people_avail p) (_pastures p) (fences_avail p) (_stables p)
    (stables_avail p) (_fields p) (room_cost p) (bread_rates p)
    (cooking_rates p) (occupied_pasture p) (attrs p).

Definition set_people_avail (p : Player) (x : Z) : Player :=
  mkPlayer (resources p) (animals p) (shape p) (house_type p) (_rooms p)
    (people p) x (_pastures p) (fences_avail p) (_stables p)
    (stables_avail p) (_fields p) (room_cost p) (bread_rates p)
    (cooking_rates p) (occupied_pasture p) (attrs p).

Definition set_pastures (p : Player) (x : list Pasture) : Player :=
  mkPlayer (resources p) (animals p) (shape p) (house_type p) (_rooms p)
    (people p) (people_avail p) x (fences_avail p) (_stables p)
    (stables_avail p) (_fields p) (room_cost p) (bread_rates p)
    (cooking_rates p) (occupied_pasture p) (attrs p).

Definition set_fences_avail (p : Player) (x : Z) : Player :=
  mkPlayer (resources p) (animals p) (shape p) (house_type p) (_rooms p)
    (people p) (people_avail p) (_pastures p) x (_stables p)
    (stables_avail p) (_fields p) (room_cost p) (bread_rates p)
    (cooking_rates p) (occupied_pasture p) (attrs p).

Definition set_stables (p : Player) (x : list Stable) : Player :=
  mkPlayer (resources p) (animals p) (shape p) (house_type p) (_rooms p)
    (people p) (people_avail p) (_pastures p) (fences_avail p) x
    (stables_avail p) (_fields p) (room_cost p) (bread_rates p)
    (cooking_rates p) (occupied_pasture p) (attrs p).

Definition set_stables_avail (p : Player) (x : Z) : Player :=
  mkPlayer (resources p) (animals p) (shape p) (house_type p) (_rooms p)
    (people p) (people_avail p) (_pastures p) (fences_avail p) (_stables p)
    x (_fields p) (room_cost p) (bread_rates p)
    (cooking_rates p) (occupied_pasture p) (attrs p).

Definition set_fields (p : Player) (x : list Field) : Player :=
  mkPlayer (resources p) (animals p) (shape p) (house_type p) (_rooms p)
    (people p) (people_avail p) (_pastures p) (fences_avail p) (_stables p)
    (stables_avail p) x (room_cost p) (bread_rates p)
    (cooking_rates p) (occupied_pasture p) (attrs p).

Definition set_room_cost (p : Player) (x : Z) : Player :=
  mkPlayer (resources p) (animals p) (shape p) (house_type p) (_rooms p)
    (people p) (people_avail p) (_pastures p) (fences_avail p) (_stables p)
    (stables_avail p) (_fields p) x (bread_rates p)
    (cooking_rates p) (occupied_pasture p) (attrs p).

Definition set_attrs (p : Player) (x : list (string * Z)) : Player :=
  mkPlayer (resources p) (animals p) (shape p) (house_type p) (_rooms p)
    (people p) (people_avail p) (_pastures p) (fences_avail p) (_stables p)
    (stables_avail p) (_fields p) (room_cost p) (bread_rates p)
    (cooking_rates p) (occupied_pasture p) x.

(** The outcome of a method call on a board: it returns, or it raises; in
    both cases the board is the one the call leaves behind. *)
Inductive outcome : Type :=
| Done (p : Player)
| Raise (e : exn) (p : Player).

Definition obind (o : outcome) (k : Player -> outcome) : outcome :=
  match o with
  | Done p => k p
  | Raise e p => Raise e p
  end.

(** A computation that only reads the board. *)
Definition guard (r : result unit) (p : Player) : outcome :=
  match r with
  | Ok _ => Done p
  | Err e => Raise e p
  end.

Definition RESOURCE_TYPES : list string :=
  ["food"; "wood"; "clay"; "stone"; "reed"; "sheep"; "boar"; "cattle";
   "grain"; "veg"; "pastures"; "fences"; "fences_avail"; "stables";
   "fenced_stables"; "free_stables"; "stables_avail"; "rooms"; "people";
   "people_avail"; "grain_fields"; "veg_fields"; "empty_fields"; "fields";
   "empty_spaces"; "used_spaces"].

Definition ANIMALS : list string := ["sheep"; "boar"; "cattle"].

Definition crop_eqb (a b : option crop) : bool :=
  match a, b with
  | None, None | Some Grain, Some Grain | Some Veg, Some Veg => true
  | _, _ => false
  end.

(** The properties of [Player] whose value is an [int]. *)
Definition int_properties (p : Player) : list (string * Z) :=
  [("rooms", len (_rooms p));
   ("pastures", len (_pastures p));
   ("stables", len (_stables p));
   ("fields", len (_fields p));
   ("grain_fields",
     len (filter (fun f => crop_eqb (_kind f) (Some Grain)) (_fields p)));
   ("veg_fields",
     len (filter (fun f => crop_eqb (_kind f) (Some Veg)) (_fields p)));
   ("empty_fields",
     len (filter (fun f => crop_eqb (_kind f) None) (_fields p)))].

(** [fenced_stables] and [free_stables] filter [self._stables] with
    [any(s in p for p in self.pastures)], where [self.pastures] is the
    [int] property: with no stable the result is 0, with one or more the
    iteration over an [int] raises [TypeError]. *)
Definition stable_partition_properties : list string :=
  ["fenced_stables"; "free_stables"].

(** The properties whose value is a set or a list. *)
Definition object_properties : list string :=
  ["fences"; "room_spaces"; "pasture_spaces"; "stable_spaces";
   "field_spaces"; "used_spaces"; "empty_spaces"].

Definition property_names (p : Player) : list string :=
  map fst (int_properties p) ++ stable_partition_properties
  ++ object_properties.

(** The integer entries of the instance dictionary. *)
Definition instance_ints (p : Player) : list (string * Z) :=
  [("people", people p); ("people_avail", people_avail p);
   ("fences_avail", fences_avail p); ("stables_avail", stables_avail p);
   ("room_cost", room_cost p)] ++ attrs p.

(** The other instance attributes and the methods of the class. *)
Definition object_attributes : list string :=
  ["name"; "resources"; "animals"; "shape"; "house_type"; "_rooms";
   "_pastures"; "_stables"; "_fields"; "occupations"; "minor_improvements";
   "major_improvements"; "played_cards"; "hand"; "house_progression";
   "bread_rates"; "cooking_rates"; "harvest_rates"; "occupied";
   "give_cards"; "score"; "harvest"; "_check_spatial_objects"; "add_people";
   "add_resources"; "add_animals"; "change_state"; "build_rooms";
   "upgrade_house"; "build_pastures"; "build_stables";
   "_check_animal_capacity"; "plow_fields"; "sow"; "bake_bread";
   "cook_food"; "play_occupation"; "play_minor_improvement";
   "play_major_improvement"].

(** [getattr(player, k)]: the properties of the class first, then the
    instance dictionary, then the methods, and last [Player.__getattr__],
    which looks in [resources], then in [animals], and otherwise raises
    [AttributeError].  (The attributes that every Python object inherits
    are not in the table.) *)
Definition getattr (p : Player) (k : string) : result pyval :=
  match dict_get String.eqb (int_properties p) k with
  | Some z => Ok (VInt z)
  | None =>
      if mem String.eqb k stable_partition_properties then
        match _stables p with
        | [] => Ok (VInt 0)
        | _ :: _ => Err TypeError
        end
      else if mem String.eqb k object_properties then Ok VObj
      else
        match dict_get String.eqb (instance_ints p) k with
        | Some z => Ok (VInt z)
        | None =>
            if mem String.eqb k object_attributes then Ok VObj
            else
              match resources_get (resources p) k with
              | Some z => Ok (VInt z)
              | None =>
                  match animals_get (animals p) k with
                  | Some z => Ok (VInt z)
                  | None => Err AttributeError
                  end
              end
        end
  end.

(** [setattr(player, k, z)]: a property has no setter; any other name is
    stored in the instance dictionary.  [Player] defines no [__setattr__],
    so the dicts [resources] and [animals] are not written. *)
Definition setattr (p : Player) (k : string) (z : Z) : result Player :=
  if mem String.eqb k (property_names p) then Err AttributeError
  else if String.eqb k "people" then Ok (set_people p z)
  else if String.eqb k "people_avail" then Ok (set_people_avail p z)
  else if String.eqb k "fences_avail" then Ok (set_fences_avail p z)
  else if String.eqb k "stables_avail" then Ok (set_stables_avail p z)
  else if String.eqb k "room_cost" then Ok (set_room_cost p z)
  else Ok (set_attrs p (dict_set String.eqb k z (attrs p))).

(** ** PlayerStateChange *)

(** A callback of [change_fns] or [prereq_fns].  [check_and_apply] calls
    [fn(self, self.game)], and a [PlayerStateChange] has no attribute
    [game]: evaluating the arguments raises [AttributeError] before the
    callback runs, so its body never matters. *)
Inductive callback : Type := Callback.

Record PlayerStateChange : Type := mkPlayerStateChange {
  change : list (string * Z);
  prereq : list (string * Z);
  change_fns : list callback;
  prereq_fns : list callback
}.

(** The loop of [__init__] over [change]: an unknown resource name raises;
    a negative delta [v] sets [prereq[k] = prereq.get(k, 0) - v]. *)
Fixpoint init_prereq (change prereq : list (string * Z))
  : result (list (string * Z)) :=
  match change with
  | [] => Ok prereq
  | (k, v) :: t =>
      if negb (mem String.eqb k RESOURCE_TYPES) then Err AgricolaLogicError
      else if v <? 0 then
        let old := match dict_get String.eqb prereq k with
                   | Some x => x
                   | None => 0
                   end in
        init_prereq t (dict_set String.eqb k (old - v) prereq)
      else init_prereq t prereq
  end.

(** [PlayerStateChange.__init__]; the description is only used in the text
    of error messages.  [None] and the empty dict or list are the same. *)
Definition PlayerStateChange_init (change prereq : list (string * Z))
    (change_fns prereq_fns : list callback) : result PlayerStateChange :=
  prereq' <- init_prereq change prereq ;;
  Ok (mkPlayerStateChange change prereq' change_fns prereq_fns).

(** [_error_message] formats [getattr(player, k)] for every key of
    [prereq]; only the lookups can raise. *)
Definition _error_message (sc : PlayerStateChange) (p : Player)
  : result unit :=
  for_each (fun kv => getattr p (fst kv) ;;; Ok tt) (prereq sc).

(** The first loop of [check_and_apply]. *)
Fixpoint check_prereq (sc : PlayerStateChange) (l : list (string * Z))
    (p : Player) : result unit :=
  match l with
  | [] => Ok tt
  | (k, v) :: t =>
      cur <- (x <- getattr p k ;; as_int x) ;;
      if cur <? v then
        _error_message sc p ;;; Err AgricolaNotEnoughResources
      else check_prereq sc t p
  end.

(** [setattr(player, k, v + getattr(player, k))]. *)
Definition apply_delta (k : string) (v : Z) (p : Player) : outcome :=
  match (x <- getattr p k ;; as_int x) with
  | Err e => Raise e p
  | Ok cur =>
      match setattr p k (v + cur) with
      | Err e => Raise e p
      | Ok p' => Done p'
      end
  end.

Fixpoint apply_change (l : list (string * Z)) (p : Player) : outcome :=
  match l with
  | [] => Done p
  | (k, v) :: t => obind (apply_delta k v p) (apply_change t)
  end.

Definition run_callbacks (fns : list callback) (p : Player) : outcome :=
  match fns with
  | [] => Done p
  | _ :: _ => Raise AttributeError p
  end.

Definition check_and_apply (sc : PlayerStateChange) (p : Player) : outcome :=
  obind (guard (check_prereq sc (prereq sc) p) p) (fun p =>
  obind (run_callbacks (prereq_fns sc) p) (fun p =>
  obind (apply_change (change sc) p) (fun p =>
  run_callbacks (change_fns sc) p))).

(** [Player.change_state] and the tail shared by the building methods:
    construct the state change, then check and apply it. *)
Definition change_state (change prereq : list (string * Z)) (p : Player)
  : outcome :=
  match PlayerStateChange_init change prereq [] [] with
  | Err e => Raise e p
  | Ok sc => check_and_apply sc p
  end.

(** ** Placement checks *)

Definition room_cells (l : list Room) : list (list cell) :=
  map (fun r => [room_space r]) l.
Definition stable_cells (l : list Stable) : list (list cell) :=
  map (fun s => [stable_space s]) l.
Definition field_cells (l : list Field) : list (list cell) :=
  map (fun f => [field_space f]) l.
Definition pasture_cells (l : list Pasture) : list (list cell) :=
  map pasture_spaces l.

(** [self.occupied] after [__init__], in insertion order. *)
Definition occupied (p : Player) : list (string * list (list cell)) :=
  [("room", room_cells (_rooms p));
   ("pasture", pasture_cells (occupied_pasture p));
   ("stable", stable_cells (_stables p));
   ("field", field_cells (_fields p))].

(** [_check_spatial_objects] against a given [occupied] dictionary; an
    object is given by its [spaces].  [omit] is a list of kind names (where
    [__init__] passes a string the substring test agrees with it). *)
Definition check_spatial (shape : cell)
    (occ : list (string * list (list cell)))
    (objects : list (list cell)) (omit : list string) : result unit :=
  for_each (fun o => for_each (fun s => Utils.index_check s shape) o)
           objects ;;;
  let spaces := List.concat objects in
  for_each (fun kv => if snd kv >? 1 then Err AgricolaImpossible else Ok tt)
           (Counter cell_eqb spaces) ;;;
  for_each
    (fun entry =>
       if negb (mem String.eqb (fst entry) omit) then
         for_each
           (fun space =>
              if existsb (fun o => mem cell_eqb space o) (snd entry)
              then Err AgricolaImpossible else Ok tt)
           spaces
       else Ok tt)
    occ.

Definition _check_spatial_objects (p : Player) (objects : list (list cell))
    (omit : list string) : result unit :=
  check_spatial (shape p) (occupied p) objects omit.

(** ** The methods of [Player] *)

Fixpoint map_result {A B} (f : A -> result B) (l : list A) : result (list B) :=
  match l with
  | [] => Ok []
  | x :: t => y <- f x ;; ys <- map_result f t ;; Ok (y :: ys)
  end.

Fixpoint insert_sorted (x : Z) (l : list Z) : list Z :=
  match l with
  | [] => [x]
  | y :: t => if x <=? y then x :: y :: t else y :: insert_sorted x t
  end.

(** [sorted] on a list of ints. *)
Definition sorted (l : list Z) : list Z := fold_right insert_sorted [] l.

(** [Player.__init__] for the arguments that the board engine uses.
    [rooms=None] gives the two default rooms; every check runs against the
    part of [self.occupied] filled in so far. *)
Definition Player_init (shape : option cell) (house_type : string)
    (rooms : option (list Room)) (fields : list Field)
    (stables : list Stable) (pastures : list Pasture)
    (res : Resources) (ani : Animals)
    (people people_avail fences_avail stables_avail : Z) : result Player :=
  let shape := match shape with Some s => s | None => (3, 5) end in
  let rooms := match rooms with
               | Some r => r
               | None => [mkRoom (0, 0); mkRoom (0, 1)]
               end in
  check_spatial shape [] (room_cells rooms) [] ;;;
  check_connected_group (room_cells rooms) ;;;
  let occ1 := [("room", room_cells rooms)] in
  check_spatial shape occ1 (pasture_cells pastures) ["stable"] ;;;
  check_connected_group (pasture_cells pastures) ;;;
  let occ2 := occ1 ++ [("pasture", pasture_cells pastures)] in
  check_spatial shape occ2 (stable_cells stables) ["pasture"] ;;;
  let occ3 := occ2 ++ [("stable", stable_cells stables)] in
  check_spatial shape occ3 (field_cells fields) [] ;;;
  check_connected_group (field_cells fields) ;;;
  Ok {| resources := res; animals := ani; shape := shape;
        house_type := house_type; _rooms := rooms; people := people;
        people_avail := people_avail; _pastures := pastures;
        fences_avail := fences_avail; _stables := stables;
        stables_avail := stables_avail; _fields := fields;
        room_cost := 5; bread_rates := [0];
        cooking_rates := mkCookingRates 1 1 0 0 0;
        occupied_pasture := pastures; attrs := [] |}.

(** [Player(name, ...)] with the default layout and counters and the given
    goods. *)
Definition new_player (res : Resources) : result Player :=
  Player_init None "wood" None [] [] [] res (mkAnimals 0 0 0) 2 3 15 4.

Definition add_people (n : Z) (p : Player) : outcome :=
  if people_avail p <? n then Raise AgricolaImpossible p
  else
    let p1 := set_people p (people p + n) in
    Done (set_people_avail p1 (people_avail p1 - n)).

(** The body of [_check_animal_capacity], abstracted over the name of the
    attribute read in [[1] * (self.<attribute> + 1)]; the arguments
    [n_added] and [name] only appear in the error message. *)
Definition check_animal_capacity_via (attribute : string) (p : Player)
    (animal_counts : list Z) : result unit :=
  let animal_counts := sorted animal_counts in
  n_free_stables <- (x <- getattr p attribute ;; as_int x) ;;
  let capacities := repeat 1 (Z.to_nat (n_free_stables + 1)) in
  extension <- map_result Pasture_capacity (_pastures p) ;;
  let multiset := Counter Z.eqb (capacities ++ extension) in
  if negb (Utils.multiset_satisfy (sorted animal_counts) multiset)
  then Err AgricolaNotEnoughResources
  else Ok tt.

(** [_check_animal_capacity]: the method reads [self.n_free_stables]. *)
Definition _check_animal_capacity : Player -> list Z -> result unit :=
  check_animal_capacity_via "n_free_stables".

(** The loop of [add_animals] over the keyword arguments, abstracted over
    the capacity check that it calls. *)
Fixpoint add_animals_with (check : Player -> list Z -> result unit)
    (kwargs : list (string * Z)) (p : Player) : outcome :=
  match kwargs with
  | [] => Done p
  | (animal, count) :: t =>
      if negb (is_some (animals_get (animals p) animal))
      then Raise AgricolaPoorlyFormed p
      else
        let animal_counts := animals_add (animals p) animal count in
        match check p (animals_values animal_counts) with
        | Err e => Raise e p
        | Ok _ =>
            add_animals_with check t
              (set_animals p (animals_add (animals p) animal count))
        end
  end.

Definition add_animals : list (string * Z) -> Player -> outcome :=
  add_animals_with _check_animal_capacity.

Definition build_rooms (spaces : list cell) (p : Player) : outcome :=
  let rooms := map mkRoom spaces in
  obind (guard (_check_spatial_objects p (room_cells rooms) []) p) (fun p =>
  obind (guard (check_connected_group (room_cells (_rooms p ++ rooms))) p)
  (fun p =>
  let n_rooms := len spaces in
  let change := dict_set String.eqb "reed" (-2 * n_rooms)
                  [(house_type p, - room_cost p * n_rooms)] in
  obind (change_state change [] p) (fun p =>
  Done (set_rooms p (_rooms p ++ rooms))))).

Definition build_pastures (args : list spaces_arg) (p : Player) : outcome :=
  match map_result Pasture_init args with
  | Err e => Raise e p
  | Ok pastures =>
      obind (guard (for_each (fun x => _check_spatial_objects p
                                         [pasture_spaces x] ["stable"])
                             pastures) p) (fun p =>
      obind (guard (check_connected_group
                      (pasture_cells (_pastures p ++ pastures))) p) (fun p =>
      let existing_fences := fences_for_pasture_group (_pastures p) in
      let new_fences :=
        set_minus (fences_for_pasture_group pastures) existing_fences in
      let n_fences := len new_fences in
      let change := [("wood", - n_fences); ("fences_avail", - n_fences)] in
      obind (change_state change [] p) (fun p =>
      Done (set_pastures p (_pastures p ++ pastures)))))
  end.

Definition build_stables (spaces : spaces_arg) (unit_cost : Z) (p : Player)
  : outcome :=
  match as_space_list spaces with
  | Err e => Raise e p
  | Ok spaces =>
      let stables := map mkStable spaces in
      obind (guard (_check_spatial_objects p (stable_cells stables)
                      ["pasture"]) p) (fun p =>
      obind (guard (check_connected_group
                      (stable_cells (_stables p ++ stables))) p) (fun p =>
      let n_stables := len spaces in
      let change := [("wood", - unit_cost * n_stables);
                     ("stables_avail", - n_stables)] in
      obind (change_state change [] p) (fun p =>
      Done (set_stables p (_stables p ++ stables)))))
  end.

Definition plow_fields (spaces : spaces_arg) (p : Player) : outcome :=
  match (l <- as_space_list spaces ;;
         map_result (fun s => Field_init s 0 None) l) with
  | Err e => Raise e p
  | Ok fields =>
      obind (guard (_check_spatial_objects p (field_cells fields) []) p)
      (fun p =>
      obind (guard (check_connected_group
                      (field_cells (_fields p ++ fields))) p) (fun p =>
      Done (set_fields p (_fields p ++ fields))))
  end.

(** *** sow *)

Fixpoint first_empty (fs : list Field) : option nat :=
  match fs with
  | [] => None
  | f :: t => if is_empty f then Some O else option_map S (first_empty t)
  end.

(** The generator [(f for f in self._fields if f.is_empty())] is a position
    in the list of field objects: [next] resumes there and tests each field
    as it is at that time.  The result is the index of the field yielded. *)
Definition gen_next (fs : list Field) (pos : nat) : option nat :=
  option_map (Nat.add pos) (first_empty (skipn pos fs)).

Fixpoint list_set {A} (l : list A) (i : nat) (x : A) : list A :=
  match l, i with
  | [], _ => []
  | _ :: t, O => x :: t
  | y :: t, S i' => y :: list_set t i' x
  end.

(** [for _ in range(n): next(empty_fields).plant()]: the fields and the
    generator position after the loop, and the exception if it raised. *)
Fixpoint plant_loop (plant : Field -> result Field) (n : nat)
    (fs : list Field) (pos : nat) : option exn * list Field * nat :=
  match n with
  | O => (None, fs, pos)
  | S n' =>
      match gen_next fs pos with
      | None => (Some StopIteration, fs, List.length fs)
      | Some i =>
          match nth_error fs i with
          | None => (Some StopIteration, fs, List.length fs)
          | Some f =>
              match plant f with
              | Err e => (Some e, fs, S i)
              | Ok f' => plant_loop plant n' (list_set fs i f') (S i)
              end
          end
      end
  end.

Definition plant_all (n_grain n_veg : Z) (p : Player) : outcome :=
  match plant_loop plant_grain (Z.to_nat n_grain) (_fields p) O with
  | (Some e, fs, _) => Raise e (set_fields p fs)
  | (None, fs, pos) =>
      match plant_loop plant_veg (Z.to_nat n_veg) fs pos with
      | (Some e, fs', _) => Raise e (set_fields p fs')
      | (None, fs', _) => Done (set_fields p fs')
      end
  end.

Definition sow (n_grain n_veg : Z) (p : Player) : outcome :=
  let change := [("grain", - n_grain); ("veg", - n_veg)] in
  let prereq := [("empty_fields", n_grain + n_veg)] in
  obind (change_state change prereq p) (plant_all n_grain n_veg).

(** *** bake_bread *)

(** [self.bread_rates-1] subtracts an [int] from a [list]: the operands
    have no common [-], so the expression raises [TypeError]. *)
Definition list_minus_int (l : list Z) (z : Z) : result (list Z) :=
  Err TypeError.

(** [l[-1]]. *)
Definition last_item (l : list Z) : result Z :=
  match rev l with
  | [] => Err IndexError
  | x :: _ => Ok x
  end.

(** [l[:n]]; a negative [n] counts from the end. *)
Definition slice_to (l : list Z) (n : Z) : list Z :=
  if n <? 0 then firstn (List.length l - Z.to_nat (- n)) l
  else firstn (Z.to_nat n) l.

Definition bake_bread (n : Z) (p : Player) : outcome :=
  match
    (shorter <- list_minus_int (bread_rates p) 1 ;;
     if n >? len shorter then
       final <- last_item (bread_rates p) ;;
       if final =? 0 then Err AgricolaPoorlyFormed else Ok tt
     else Ok tt) ;;;
    (let rates := slice_to (slice_to (bread_rates p) (-1)) n in
     let n_left := Z.max (n - len rates) 0 in
     final <- last_item (bread_rates p) ;;
     Ok (sum (rates ++ repeat final (Z.to_nat n_left))))
  with
  | Err e => Raise e p
  | Ok food_gain => change_state [("grain", - n); ("food", food_gain)] [] p
  end.

(** *** cook_food *)

(** The loop that builds [change], starting from [{'food': 0}]. *)
Fixpoint cook_change (rates : CookingRates) (counts change : list (string * Z))
  : result (list (string * Z)) :=
  match counts with
  | [] => Ok change
  | (r, c) :: t =>
      let change := dict_set String.eqb r (- c) change in
      match dict_get String.eqb change "food",
            cooking_rates_get rates r with
      | Some f, Some rate =>
          cook_change rates t (dict_set String.eqb "food" (f + rate) change)
      | _, _ => Err KeyError
      end
  end.

Definition cook_food (counts : list (string * Z)) (p : Player) : outcome :=
  match cook_change (cooking_rates p) counts [("food", 0)] with
  | Err e => Raise e p
  | Ok change => change_state change [] p
  end.

(** ** The board-mutating operations, as one type *)

Inductive operation : Type :=
| BuildRooms (spaces : list cell)
| BuildPastures (pastures : list spaces_arg)
| BuildStables (spaces : spaces_arg) (unit_cost : Z)
| PlowFields (spaces : spaces_arg)
| Sow (n_grain n_veg : Z)
| BakeBread (n : Z)
| CookFood (counts : list (string * Z))
| AddPeople (n : Z)
| AddAnimals (kwargs : list (string * Z)).

Definition run (o : operation) (p : Player) : outcome :=
  match o with
  | BuildRooms spaces => build_rooms spaces p
  | BuildPastures pastures => build_pastures pastures p
  | BuildStables spaces unit_cost => build_stables spaces unit_cost p
  | PlowFields spaces => plow_fields spaces p
  | Sow n_grain n_veg => sow n_grain n_veg p
  | BakeBread n => bake_bread n p
  | CookFood counts => cook_food counts p
  | AddPeople n => add_people n p
  | AddAnimals kwargs => add_animals kwargs p
  end.

(** ** The registry of regions, as the specification describes it *)

Definition all_cells (objects : list (list cell)) : list cell :=
  List.concat objects.

Definition disjointb (a b : list cell) : bool :=
  forallb (fun c => negb (mem cell_eqb c b)) a.

Definition no_repeat (a : list cell) : bool :=
  Nat.eqb (List.length (distinct cell_eqb a)) (List.length a).

(** One orthogonally connected component (or no cell at all). *)
Definition one_component (a : list cell) : bool :=
  match distinct cell_eqb a with
  | [] => true
  | n :: t => is_connected (n :: t)
  end.

(** The invariant of the registry, in the words of the specification: no
    cell belongs to regions of two kinds, except a stable on a pasture; no
    cell belongs twice to one kind; rooms, fields and pastures are each one
    connected component. *)
Definition registry_invariant (p : Player) : bool :=
  let rooms := all_cells (room_cells (_rooms p)) in
  let fields := all_cells (field_cells (_fields p)) in
  let pastures := all_cells (pasture_cells (_pastures p)) in
  let stables := all_cells (stable_cells (_stables p)) in
  (disjointb rooms fields && disjointb rooms pastures
   && disjointb rooms stables && disjointb fields pastures
   && disjointb fields stables)
  && (no_repeat rooms && no_repeat fields && no_repeat pastures
      && no_repeat stables)
  && (one_component rooms && one_component fields && one_component pastures).

(** ** Names of the ledger *)

(** The goods and animals that the ledger tracks. *)
Definition ledger_names : list string :=
  ["food"; "wood"; "clay"; "stone"; "reed"; "grain"; "veg";
   "sheep"; "boar"; "cattle"].

(** The counters kept as plain instance attributes. *)
Definition counter_names : list string :=
  ["people"; "people_avail"; "fences_avail"; "stables_avail"].

(** The instance dictionary holds, besides what [__init__] stores, only
    entries for goods and animals: [check_and_apply] creates no others. *)
Definition attrs_ok (p : Player) : Prop :=
  Forall (fun kv => In (fst kv) ledger_names) (attrs p).

(** A change whose keys, the first one apart, are goods, animals or
    counters. *)
Definition tail_settable (l : list (string * Z)) : Prop :=
  Forall (fun kv => In (fst kv) (ledger_names ++ counter_names)) (tl l).

(** The board after a call, whether it returned or raised. *)
Definition board_after (o : outcome) : Player :=
  match o with
  | Done p => p
  | Raise _ p => p
  end.

(** The board that [Player(name, ...)] creates with the default layout
    and the given goods. *)
Definition board_with (res : Resources) : Player :=
  {| resources := res; animals := mkAnimals 0 0 0;
     shape := (3, 5); house_type := "wood";
     _rooms := [mkRoom (0, 0); mkRoom (0, 1)];
     people := 2; people_avail := 3; _pastures := []; fences_avail := 15;
     _stables := []; stables_avail := 4; _fields := []; room_cost := 5;
     bread_rates := [0]; cooking_rates := mkCookingRates 1 1 0 0 0;
     occupied_pasture := []; attrs := [] |}.

(** The board that [Player(name)] creates. *)
Definition fresh_board : Player := board_with (mkResources 0 0 0 0 0 0 0).

(** ** Transactions *)

(** The arguments of [PlayerStateChange(description, change, prereq,
    change_fns, prereq_fns)]. *)
Record transaction : Type := mkTransaction {
  t_change : list (string * Z);
  t_prereq : list (string * Z);
  t_change_fns : list callback;
  t_prereq_fns : list callback
}.

(** [PlayerStateChange(...).check_and_apply(player)]. *)
Definition transact (t : transaction) (p : Player) : outcome :=
  match PlayerStateChange_init (t_change t) (t_prereq t)
          (t_change_fns t) (t_prereq_fns t) with
  | Err e => Raise e p
  | Ok sc => check_and_apply sc p
  end.


(** Every tracked resource, read as [check_and_apply] reads it, is an
    integer that is not negative. *)
Definition ledger_nonneg (p : Player) : Prop :=
  forall r, In r ledger_names ->
            exists z, getattr p r = Ok (VInt z) /\ 0 <= z.



(** ** Amounts that a change takes from the ledger *)

(** What the negative deltas of a change take from resource [r]. *)
Fixpoint taken (chg : list (string * Z)) (r : string) : Z :=
  match chg with
  | [] => 0
  | (k, v) :: t =>
      (if String.eqb r k && (v <? 0) then - v else 0) + taken t r
  end.

Definition amount (d : list (string * Z)) (k : string) : Z :=
  match dict_get String.eqb d k with
  | Some x => x
  | None => 0
  end.

(** The ledger has room for what the rest of the change still takes. *)
Definition covers_change (chg : list (string * Z)) (p : Player) : Prop :=
  forall r, In r ledger_names ->
            exists z, getattr p r = Ok (VInt z) /\ taken chg r <= z.

(** ** Sowing, as the specification describes it *)

(** The invariant that [Field.__init__] checks and the mutators keep:
    a field holds items exactly when it has a kind. *)
Definition Field_ok (f : Field) : Prop :=
  negb (is_empty f) = is_some (_kind f).







(** ** Connectivity, as the specification describes it *)

(** [linked cells a b]: a walk from [a] to [b] through cells of the set,
    each step between orthogonally adjacent cells. *)
Inductive linked (cells : list cell) (a : cell) : cell -> Prop :=
| linked_here : In a cells -> linked cells a a
| linked_step : forall b c,
    linked cells a b -> In c cells -> Utils.orthog_adjacent b c = true ->
    linked cells a c.

(** The cells form a single orthogonally connected component. *)
Definition connected (cells : list cell) : Prop :=
  forall a b, In a cells -> In b cells -> linked cells a b.

(** A set of seen nodes that no edge of the graph leaves. *)
Definition closed (nodes seen : list cell) : Prop :=
  forall s c, In s seen -> In c nodes -> Utils.orthog_adjacent s c = true ->
              In c seen.

(** What the search has seen: distinct nodes of the graph, each linked to
    the start [n0]. *)
Definition seen_ok (nodes : list cell) (n0 : cell) (seen : list cell)
  : Prop :=
  NoDup seen /\ (forall x, In x seen -> In x nodes /\ linked nodes n0 x).

(** The nodes that one round of the search adds. *)
Definition frontier (nodes seen : list cell) : list cell :=
  filter (fun c => negb (mem cell_eqb c seen)
                   && existsb (fun s => Utils.orthog_adjacent s c) seen)
         nodes.

(** ** The capacity problem, as the specification describes it *)

(** The requirements [gs] can be met from the capacities [caps]: there are
    sub-multisets [parts] of [caps], pairwise disjoint (together with the
    unused [rest] they are exactly [caps]), one for each requirement under
    some bijection (the requirements are taken in some order [gs']), each
    of total weight at least its requirement. *)
Definition splittable (gs caps : list Z) : Prop :=
  exists (gs' : list Z) (parts : list (list Z)) (rest : list Z),
    Permutation gs gs'
    /\ Permutation (List.concat parts ++ rest) caps
    /\ Forall2 (fun g part => g <= sum part) gs' parts.

(** The capacities that a counter stands for, each key as often as it is
    counted. *)
Definition expand (m : Utils.multiset) : list Z :=
  flat_map (fun kv => repeat (fst kv) (Z.to_nat (snd kv))) m.

(** A counter of capacities: distinct keys, keys and counts not
    negative. *)
Definition counter_ok (m : Utils.multiset) : Prop :=
  NoDup (map fst m) /\ Forall (fun kv => 0 <= fst kv /\ 0 <= snd kv) m.

(** The counter [m] less [cs], position by position. *)
Fixpoint minus (m : Utils.multiset) (cs : list Z) : Utils.multiset :=
  match m, cs with
  | (k, v) :: t, c :: ct => (k, Z.max 0 (v - c)) :: minus t ct
  | _, _ => m
  end.

(** The requirements in the given order, met by parts and a rest that
    make up the list [l]. *)
Definition split_in_order (gs l : list Z) : Prop :=
  exists (parts : list (list Z)) (rest : list Z),
    Permutation (List.concat parts ++ rest) l
    /\ Forall2 (fun g part => g <= sum part) gs parts.

(** How often the capacity [x] is counted in a counter. *)
Fixpoint cnt (m : Utils.multiset) (x : Z) : nat :=
  match m with
  | [] => O
  | (k, v) :: t => Nat.add (if x =? k then Z.to_nat v else O) (cnt t x)
  end.

(** Counts that can be taken from a counter: between 0 and what it has. *)
Definition within (m : Utils.multiset) (cs : list Z) : Prop :=
  Forall2 (fun c kv => 0 <= c <= snd kv) cs m.

(** The counts, key by key, of the sub-multiset in which [x] occurs [c x]
    times. *)
Definition counts_of (c : Z -> nat) (m : Utils.multiset) : list Z :=
  map (fun kv => Z.of_nat (c (fst kv))) m.

(** ** utils.py: [cumsum] and [score_mapping] *)

(** The loop of [cumsum], with the accumulator [acc]. *)
Fixpoint cumsum_from (acc : Z) (lst : list Z) : list Z :=
  match lst with
  | [] => []
  | l :: t => (acc + l) :: cumsum_from (acc + l) t
  end.

Definition cumsum (lst : list Z) : list Z := cumsum_from 0 lst.

(** [l[i]] for an index that is not negative. *)
Definition list_item (l : list Z) (i : nat) : result Z :=
  match nth_error l i with
  | Some x => Ok x
  | None => Err IndexError
  end.

(** [[-1] + range(n)] adds a [range] object to a [list]: the module is
    Python 3 code (the keyword-only argument of [trigger_event] is a syntax
    error before), where the operands cannot be concatenated and the
    expression raises [TypeError]. *)
Definition list_plus_range (l : list Z) (n : Z) : result (list Z) :=
  Err TypeError.

(** The [for] loop of [score_mapping]: [thresholds] is the sorted list from
    index [i] on, so that its first two items are [thresholds[i]] and
    [thresholds[i+1]]; after the last pair the function returns
    [points[-1]]. *)
Fixpoint score_scan (value : Z) (points : list Z) (i : nat)
    (thresholds : list Z) : result Z :=
  match thresholds with
  | a :: ((b :: _) as t) =>
      if (value >=? a) && (value <? b) then list_item points (S i)
      else score_scan value points (S i) t
  | _ => last_item points
  end.

(** [score_mapping(value, thresholds, points)]; [points=None] and the empty
    list are both false in [points or ...]. *)
Definition score_mapping (value : Z) (thresholds points : list Z)
  : result Z :=
  points <- match points with
            | [] => list_plus_range [-1] (len thresholds - 1)
            | _ :: _ => Ok points
            end ;;
  let thresholds := sorted thresholds in
  first <- list_item thresholds 0 ;;
  if value <? first then list_item points 0
  else score_scan value points 0 thresholds.

(** ** player.py: [Field.harvest] and [Pasture.adjacent_to] *)

(** [Field.harvest]: the field after the call and the value returned. *)
Definition harvest (f : Field) : Field * bool :=
  if _n_items f >? 0 then
    let n := _n_items f - 1 in
    (mkField (field_space f) n (if n =? 0 then None else _kind f), true)
  else (f, false).

(** [Pasture.adjacent_to]: the nested loops return [True] at the first
    adjacent pair. *)
Definition adjacent_to (p other : Pasture) : bool :=
  existsb (fun s => existsb (fun so => Utils.orthog_adjacent s so)
                            (pasture_spaces other))
          (pasture_spaces p).

(** [n] successive calls of [harvest] on one field: the field they leave
    and the number of calls that returned [True]. *)
Fixpoint harvest_times (n : nat) (f : Field) : Field * Z :=
  match n with
  | O => (f, 0)
  | S n' =>
      let (f1, ok) := harvest f in
      let (f2, c) := harvest_times n' f1 in
      (f2, (if ok then 1 else 0) + c)
  end.

(** ** Placement, as the checks read it *)

(** How often [x] occurs in a list, counted with the equality test of the
    keys. *)
Definition occurrences {K} (eqb : K -> K -> bool) (l : list K) (x : K) : Z :=
  len (filter (eqb x) l).

(** A cell of a board of the given shape. *)
Definition in_bounds (shape s : cell) : Prop :=
  0 <= fst s < fst shape /\ 0 <= snd s < snd shape.

(** No cell of [cells] lies in an object that [occ] records under a kind
    that is not omitted. *)
Definition unoccupied (occ : list (string * list (list cell)))
    (omit : list string) (cells : list cell) : Prop :=
  forall kind objects s,
    In (kind, objects) occ -> ~ In kind omit -> In s cells ->
    ~ In s (List.concat objects).

(** ** Readings and deltas *)

(** The integer that [getattr(player, r)] gives for a good, an animal or a
    counter. *)
Definition reading (p : Player) (r : string) : Z :=
  match getattr p r with
  | Ok (VInt z) => z
  | _ => 0
  end.

(** What a change adds to [r], all its entries for [r] together. *)
Fixpoint delta (chg : list (string * Z)) (r : string) : Z :=
  match chg with
  | [] => 0
  | (k, v) :: t => (if String.eqb r k then v else 0) + delta t r
  end.

(** Every amount that a change takes is there to be taken. *)
Definition affordable (chg : list (string * Z)) (p : Player) : bool :=
  forallb (fun kv => (0 <=? snd kv) || (- snd kv <=? reading p (fst kv))) chg.

(** The two boards have the same shape, regions and house. *)
Definition same_regions (p p' : Player) : Prop :=
  shape p' = shape p /\ _rooms p' = _rooms p /\ _pastures p' = _pastures p
  /\ _stables p' = _stables p /\ _fields p' = _fields p
  /\ occupied_pasture p' = occupied_pasture p
  /\ house_type p' = house_type p.

(** ** player.py: [add_resources] *)


(** The cooking rate of a kind, 0 for a kind without one. *)
Definition rate_of (rates : CookingRates) (kv : string * Z) : Z :=
  match cooking_rates_get rates (fst kv) with
  | Some rate => rate
  | None => 0
  end.

(** The change that [cook_food] builds from a dict of counts: the food
    gained first, one rate for every kind cooked, then what is taken of
    each kind. *)
Definition cooking_change (rates : CookingRates) (counts : list (string * Z))
  : list (string * Z) :=
  ("food", sum (map (rate_of rates) counts))
  :: map (fun kv => (fst kv, - snd kv)) counts.

(** ** player.py: the cells that the regions of a board cover *)

(** The properties [room_spaces], [pasture_spaces], [stable_spaces] and
    [field_spaces] of [Player]. *)
Definition room_spaces (p : Player) : list cell :=
  flat_map (fun room => [room_space room]) (_rooms p).

Definition Player_pasture_spaces (p : Player) : list cell :=
  flat_map pasture_spaces (_pastures p).

Definition stable_spaces (p : Player) : list cell :=
  flat_map (fun stable => [stable_space stable]) (_stables p).

Definition field_spaces (p : Player) : list cell :=
  flat_map (fun field => [field_space field]) (_fields p).

(** ** The part of the layout rules that every operation keeps *)

(** Rooms [R], fields [F] and stables [S] never share a cell, among
    themselves or with each other; every region lies on the board; rooms,
    fields and pastures [P] are each orthogonally connected. *)
Definition layout_ok (sh : cell) (R F S P : list cell) : Prop :=
  (NoDup R /\ NoDup F /\ NoDup S)
  /\ ((forall s, In s R -> ~ In s F) /\ (forall s, In s R -> ~ In s S)
      /\ (forall s, In s F -> ~ In s S))
  /\ (Forall (in_bounds sh) R /\ Forall (in_bounds sh) F
      /\ Forall (in_bounds sh) S /\ Forall (in_bounds sh) P)
  /\ (connected R /\ connected F /\ connected P).

Definition placement_ok (p : Player) : Prop :=
  layout_ok (shape p) (room_spaces p) (field_spaces p) (stable_spaces p)
            (Player_pasture_spaces p).

(** ** player.py: the house, the fences and the pieces of a player *)

(** [self.house_progression]: [__init__] sets it and no method assigns it
    again. *)
Definition house_progression : list string := ["wood"; "clay"; "stone"].

(** The property [fences] of [Player]. *)
Definition fences (p : Player) : list fence :=
  fences_for_pasture_group (_pastures p).

(** The pieces of a player, on the board or still in the supply: family
    members, stables and fences. *)
Definition pieces (p : Player) : Z * Z * Z :=
  (people p + people_avail p,
   stables_avail p + len (_stables p),
   fences_avail p + len (fences p)).

(** ** player.py: [upgrade_house] *)

(** [l.index(x)]: [ValueError] when [x] is not in the list. *)
Fixpoint list_index (l : list string) (x : string) : result Z :=
  match l with
  | [] => Err ValueError
  | y :: t =>
      if String.eqb y x then Ok 0 else i <- list_index t x ;; Ok (i + 1)
  end.

(** [l[i]] on a list of strings; a negative [i] counts from the end. *)
Definition string_item (l : list string) (i : Z) : result string :=
  let j := if i <? 0 then len l + i else i in
  if j <? 0 then Err IndexError
  else match nth_error l (Z.to_nat j) with
       | Some x => Ok x
       | None => Err IndexError
       end.

(** [upgrade_house].  The [try] block only re-raises.  The dict display
    [{self.material_required: -self.n_rooms, 'reed': -1}] looks up two
    attributes that the class does not define, the key first.  The lookup
    can only find an [int] of the instance dictionary, which is no resource
    name: the state change is then rejected as malformed, so the
    assignment to [self.house_type] is never reached.  The argument
    [material] is not used. *)
Definition upgrade_house (material : string) (p : Player) : outcome :=
  match
    (idx <- list_index house_progression (house_type p) ;;
     material_required <- string_item house_progression (idx + 1) ;;
     key <- getattr p "material_required" ;;
     n_rooms <- (x <- getattr p "n_rooms" ;; as_int x) ;;
     Ok (key, - n_rooms))
  with
  | Err e => Raise e p
  | Ok _ => Raise AgricolaLogicError p
  end.

(** ** The outer boundary of a set of cells *)

(** The four sides of a cell. *)
Inductive side : Type := Top | Right | Bottom | Left.

(** The edge on a side of a cell, as [Pasture.__init__] writes it. *)
Definition edge (s : cell) (d : side) : fence :=
  match d with
  | Top => ((fst s, snd s), (fst s, snd s + 1))
  | Right => ((fst s, snd s + 1), (fst s + 1, snd s + 1))
  | Bottom => ((fst s + 1, snd s), (fst s + 1, snd s + 1))
  | Left => ((fst s, snd s), (fst s + 1, snd s))
  end.

(** The cell on the other side of that edge. *)
Definition across (s : cell) (d : side) : cell :=
  match d with
  | Top => (fst s - 1, snd s)
  | Right => (fst s, snd s + 1)
  | Bottom => (fst s + 1, snd s)
  | Left => (fst s, snd s - 1)
  end.

(** The cells of the pastures that [self.occupied] records: those given to
    [__init__]. *)
Definition recorded_pasture_spaces (p : Player) : list cell :=
  flat_map pasture_spaces (occupied_pasture p).


Definition same_but_fields (p p' : Player) : Prop :=
  shape p' = shape p /\ _rooms p' = _rooms p /\ _pastures p' = _pastures p
  /\ _stables p' = _stables p.



(** * Properties *)

(** ** The capacity solver on the capacities 1, 1, 2 *)

(** C4, as stated, fails: the third requirement list, [[2; 2]], is not
    rejected by the solver. *)
Lemma solver_examples_as_stated_fail :
  ~ (Utils.multiset_satisfy [1; 1] (Counter Z.eqb [1; 1; 2]) = true
     /\ Utils.multiset_satisfy [3] (Counter Z.eqb [1; 1; 2]) = true
     /\ Utils.multiset_satisfy [2; 2] (Counter Z.eqb [1; 1; 2]) = false).
Proof.
  intros (_ & _ & H). vm_compute in H. discriminate H.
Qed.

(** C4, amended: on the capacity multiset 1, 1, 2 the solver accepts the
    requirement lists [[1; 1]], [[3]] and also [[2; 2]]; the last one is
    covered by the parts [[2]] and [[1; 1]], which use every capacity
    once. *)
Theorem solver_examples :
  Utils.multiset_satisfy [1; 1] (Counter Z.eqb [1; 1; 2]) = true
  /\ Utils.multiset_satisfy [3] (Counter Z.eqb [1; 1; 2]) = true
  /\ Utils.multiset_satisfy [2; 2] (Counter Z.eqb [1; 1; 2]) = true
  /\ Permutation (List.concat [[2]; [1; 1]]) [1; 1; 2]
  /\ Forall2 (fun g part => g <= sum part) [2; 2] [[2]; [1; 1]].
Proof.
  repeat split; try reflexivity.
  - simpl. apply (Permutation_cons_append [1; 1] 2).
  - repeat constructor; simpl; lia.
Qed.

(** ** Capacities of pens *)

(** C6: [Pasture.capacity] evaluates [self.n_spaces], which no pasture
    has, so it raises [AttributeError] for every pasture instead of
    returning the number of cells times two to the number of stables; a
    stable has capacity 1. *)
Theorem pasture_capacity_raises :
  (forall p : Pasture, Pasture_capacity p = Err AttributeError)
  /\ (forall s : Stable, Stable_capacity s = 1).
Proof.
  split.
  - intros p. reflexivity.
  - intros s. reflexivity.
Qed.

(** ** bake_bread *)

(** C9: [bake_bread] raises [TypeError] for every [n] on every board, and
    leaves the board as it was: grain is never deducted and food never
    added. *)
Theorem bake_bread_raises :
  forall (n : Z) (p : Player), bake_bread n p = Raise TypeError p.
Proof.
  intros n p. reflexivity.
Qed.

(** ** Animal capacity *)

Lemma new_player_ok (res : Resources) : new_player res = Ok (board_with res).
Proof. reflexivity. Qed.

(** C7: on a fresh board (no stable, no pasture) [add_animals(sheep=1)]
    does not succeed: the capacity check reads [self.n_free_stables], the
    board has no such attribute (the property is [free_stables]), and the
    call raises [AttributeError] with the board unchanged. *)
Theorem add_animals_fresh_board_raises :
  forall res : Resources,
  exists p : Player,
    new_player res = Ok p
    /\ _stables p = [] /\ _pastures p = []
    /\ add_animals [("sheep", 1)] p = Raise AttributeError p.
Proof.
  intros res. eexists. split; [apply new_player_ok|].
  repeat split.
Qed.

(** With the lookup directed at the property that exists, [free_stables],
    the scenario runs as the capacity rule says: the capacities are one unit
    slot, one sheep is accepted and a boar after it is refused. *)
Remark add_animals_via_free_stables :
  forall res : Resources,
  exists p p1 : Player,
    new_player res = Ok p
    /\ add_animals_with (check_animal_capacity_via "free_stables")
         [("sheep", 1)] p = Done p1
    /\ animals p1 = mkAnimals 1 0 0
    /\ add_animals_with (check_animal_capacity_via "free_stables")
         [("boar", 1)] p1 = Raise AgricolaNotEnoughResources p1.
Proof.
  intros res. do 2 eexists. split; [apply new_player_ok|].
  split; [reflexivity|]. split; reflexivity.
Qed.

(** With that lookup [add_animals] would no longer be all or nothing: it
    commits each animal before it checks the next, so a refused boar leaves
    the sheep of the same call on the board. *)
Remark add_animals_via_free_stables_partial :
  forall res : Resources,
  exists p p1 : Player,
    new_player res = Ok p
    /\ add_animals_with (check_animal_capacity_via "free_stables")
         [("sheep", 1); ("boar", 1)] p
       = Raise AgricolaNotEnoughResources p1
    /\ animals p = mkAnimals 0 0 0
    /\ animals p1 = mkAnimals 1 0 0.
Proof.
  intros res. do 2 eexists. split; [apply new_player_ok|].
  split; [reflexivity|]. split; reflexivity.
Qed.

(** ** The registry of regions *)

(** C5: the invariant does not survive every successful build.  On a fresh
    board with 9 wood and 2 reed, [build_pastures([[(1, 0)]])] succeeds and
    then [build_rooms([(1, 0)])] succeeds too: the room is checked against
    [self.occupied['pasture']], which still is the empty list of
    [__init__], and the cell (1, 0) ends up both a room and a pasture. *)
Theorem room_built_on_pasture :
  exists p0 p1 p2 : Player,
    new_player (mkResources 0 9 0 0 2 0 0) = Ok p0
    /\ registry_invariant p0 = true
    /\ build_pastures [Spaces [(1, 0)]] p0 = Done p1
    /\ build_rooms [(1, 0)] p1 = Done p2
    /\ In (1, 0) (all_cells (room_cells (_rooms p2)))
    /\ In (1, 0) (all_cells (pasture_cells (_pastures p2)))
    /\ registry_invariant p2 = false.
Proof.
  do 3 eexists. split; [apply new_player_ok|].
  split; [reflexivity|]. split; [reflexivity|]. split; [reflexivity|].
  split; [|split].
  - simpl. auto.
  - simpl. auto.
  - reflexivity.
Qed.

(** The same registry accepts one cell twice within the pastures:
    [build_pastures] checks each new pasture on its own. *)
Remark pasture_built_twice :
  exists p0 p1 : Player,
    new_player (mkResources 0 4 0 0 0 0 0) = Ok p0
    /\ build_pastures [Spaces [(1, 0)]; Spaces [(1, 0)]] p0 = Done p1
    /\ all_cells (pasture_cells (_pastures p1)) = [(1, 0); (1, 0)]
    /\ registry_invariant p1 = false.
Proof.
  do 2 eexists. split; [apply new_player_ok|].
  split; [reflexivity|]. split; reflexivity.
Qed.

(** ** Atomicity of the operations *)

Lemma guard_raise r p e p' : guard r p = Raise e p' -> p' = p.
Proof. destruct r; simpl; intros H; inversion H; reflexivity. Qed.

Lemma getattr_ledger p k :
  In k ledger_names ->
  getattr p k =
  Ok (VInt match dict_get String.eqb (attrs p) k with
           | Some z => z
           | None =>
               match resources_get (resources p) k with
               | Some z => z
               | None =>
                   match animals_get (animals p) k with
                   | Some z => z
                   | None => 0
                   end
               end
           end).
Proof.
  intros H. simpl in H.
  repeat (destruct H as [<- | H]; [unfold getattr; cbn;
    destruct (dict_get String.eqb (attrs p) _); reflexivity|]).
  contradiction.
Qed.

Lemma getattr_counter p k :
  In k counter_names -> exists z, getattr p k = Ok (VInt z).
Proof.
  intros H. simpl in H.
  repeat (destruct H as [<- | H]; [eexists; reflexivity|]).
  contradiction.
Qed.

Lemma getattr_settable p k :
  In k (ledger_names ++ counter_names) -> exists z, getattr p k = Ok (VInt z).
Proof.
  intros H. apply in_app_or in H. destruct H as [H | H].
  - eexists. apply getattr_ledger, H.
  - apply getattr_counter, H.
Qed.

Lemma setattr_settable p k z :
  In k (ledger_names ++ counter_names) -> exists p', setattr p k z = Ok p'.
Proof.
  intros H. simpl in H.
  repeat (destruct H as [<- | H]; [eexists; reflexivity|]).
  contradiction.
Qed.

Lemma apply_delta_settable p k v :
  In k (ledger_names ++ counter_names) ->
  exists p', apply_delta k v p = Done p'.
Proof.
  intros H. unfold apply_delta.
  destruct (getattr_settable p k H) as [z ->]. simpl.
  destruct (setattr_settable p k (v + z) H) as [p' ->]. eauto.
Qed.

Lemma apply_change_settable l : forall p,
  Forall (fun kv => In (fst kv) (ledger_names ++ counter_names)) l ->
  exists p', apply_change l p = Done p'.
Proof.
  induction l as [|[k v] t IH]; intros p H; simpl.
  - eauto.
  - inversion H as [|? ? Hk Ht]; subst. simpl in Hk.
    destruct (apply_delta_settable p k v Hk) as [p1 ->]. simpl.
    apply IH, Ht.
Qed.

Lemma apply_delta_raise k v p e p' :
  apply_delta k v p = Raise e p' -> p' = p.
Proof.
  unfold apply_delta.
  destruct (x <- getattr p k ;; as_int x); [|intros H; inversion H; auto].
  destruct (setattr p k (v + a)); intros H; inversion H; auto.
Qed.

Lemma apply_change_raise l p e p' :
  tail_settable l -> apply_change l p = Raise e p' -> p' = p.
Proof.
  destruct l as [|[k v] t]; simpl; intros Ht H.
  - discriminate H.
  - destruct (apply_delta k v p) as [p1|e1 p1] eqn:E; simpl in H.
    + destruct (apply_change_settable t p1 Ht) as [p2 E2].
      rewrite E2 in H. discriminate H.
    + inversion H; subst. eapply apply_delta_raise; eauto.
Qed.

Lemma check_and_apply_raise sc p e p' :
  tail_settable (change sc) -> change_fns sc = [] ->
  check_and_apply sc p = Raise e p' -> p' = p.
Proof.
  intros Ht Hf. unfold check_and_apply. rewrite Hf.
  destruct (check_prereq sc (prereq sc) p); simpl;
    [|intros H; inversion H; auto].
  destruct (prereq_fns sc); simpl; [|intros H; inversion H; auto].
  destruct (apply_change (change sc) p) as [p1|e1 p1] eqn:E; simpl.
  - discriminate.
  - intros H; inversion H; subst. eapply apply_change_raise; eauto.
Qed.

Lemma init_change chg : forall pre sc,
  PlayerStateChange_init chg pre [] [] = Ok sc ->
  change sc = chg /\ change_fns sc = [] /\ prereq_fns sc = [].
Proof.
  intros pre sc. unfold PlayerStateChange_init.
  destruct (init_prereq chg pre); simpl; intros H; inversion H; subst.
  simpl. auto.
Qed.

Lemma change_state_raise chg pre p e p' :
  tail_settable chg -> change_state chg pre p = Raise e p' -> p' = p.
Proof.
  intros Ht. unfold change_state.
  destruct (PlayerStateChange_init chg pre [] []) as [sc|e1] eqn:E.
  - apply init_change in E. destruct E as (E1 & E2 & _).
    apply check_and_apply_raise; [rewrite E1; exact Ht | exact E2].
  - intros H; inversion H; auto.
Qed.

Ltac solve_settable :=
  unfold tail_settable; simpl;
  repeat (apply Forall_cons; [simpl; tauto|]); apply Forall_nil.

Ltac step_guard :=
  match goal with
  | |- obind (guard ?r ?p) _ = Raise _ _ -> _ =>
      destruct r as [[]|?]; cbn [obind guard];
      [|let H := fresh in intros H; inversion H; reflexivity]
  end.

Ltac step_change :=
  match goal with
  | |- obind (change_state ?c ?q ?p) _ = Raise _ _ -> _ =>
      let E := fresh "E" in
      destruct (change_state c q p) eqn:E; cbn [obind];
      [discriminate
      |let H := fresh in
       intros H; inversion H; subst;
       eapply change_state_raise; [|exact E]]
  end.

Lemma build_rooms_raise spaces p e p' :
  build_rooms spaces p = Raise e p' -> p' = p.
Proof.
  unfold build_rooms. step_guard. step_guard. step_change.
  unfold tail_settable. cbv [dict_set].
  destruct (String.eqb "reed" (house_type p)); solve_settable.
Qed.

Lemma build_pastures_raise args p e p' :
  build_pastures args p = Raise e p' -> p' = p.
Proof.
  unfold build_pastures.
  destruct (map_result Pasture_init args);
    [|intros H; inversion H; reflexivity].
  step_guard. step_guard. step_change.
  solve_settable.
Qed.

Lemma build_stables_raise spaces cost p e p' :
  build_stables spaces cost p = Raise e p' -> p' = p.
Proof.
  unfold build_stables.
  destruct (as_space_list spaces);
    [|intros H; inversion H; reflexivity].
  step_guard. step_guard. step_change.
  solve_settable.
Qed.

Lemma plow_fields_raise spaces p e p' :
  plow_fields spaces p = Raise e p' -> p' = p.
Proof.
  unfold plow_fields.
  destruct (l <- as_space_list spaces ;; map_result _ l);
    [|intros H; inversion H; reflexivity].
  step_guard. step_guard. discriminate.
Qed.

Lemma add_people_raise n p e p' :
  add_people n p = Raise e p' -> p' = p.
Proof.
  unfold add_people. destruct (people_avail p <? n); intros H; inversion H.
  reflexivity.
Qed.

Lemma cooking_rates_key c k z :
  cooking_rates_get c k = Some z -> In k ledger_names.
Proof.
  unfold cooking_rates_get.
  repeat match goal with
         | |- context [String.eqb k ?s] =>
             let E := fresh "E" in
             destruct (String.eqb k s) eqn:E;
             [apply String.eqb_eq in E; subst; simpl; auto 20|]
         end.
  discriminate.
Qed.

Lemma dict_set_keys (P : string -> Prop) k v d :
  P k -> Forall (fun kv => P (fst kv)) d ->
  Forall (fun kv => P (fst kv)) (dict_set String.eqb k v d).
Proof.
  intros Hk. induction d as [|[k' v'] t IH]; simpl; intros H.
  - constructor; auto.
  - inversion H; subst. destruct (String.eqb k k'); constructor; auto.
Qed.

Lemma cook_change_keys rates counts : forall chg chg',
  Forall (fun kv => In (fst kv) (ledger_names ++ counter_names)) chg ->
  cook_change rates counts chg = Ok chg' ->
  Forall (fun kv => In (fst kv) (ledger_names ++ counter_names)) chg'.
Proof.
  induction counts as [|[r c] t IH]; simpl; intros chg chg' H E.
  - inversion E; subst; exact H.
  - destruct (dict_get String.eqb (dict_set String.eqb r (- c) chg) "food");
      [|discriminate].
    destruct (cooking_rates_get rates r) eqn:Er; [|discriminate].
    apply cooking_rates_key in Er.
    eapply IH; [|exact E].
    apply dict_set_keys
      with (P := fun k => In k (ledger_names ++ counter_names)).
    + simpl; auto.
    + apply dict_set_keys
        with (P := fun k => In k (ledger_names ++ counter_names)); auto.
      apply in_or_app; auto.
Qed.

Lemma cook_food_raise counts p e p' :
  cook_food counts p = Raise e p' -> p' = p.
Proof.
  unfold cook_food.
  destruct (cook_change (cooking_rates p) counts [("food", 0)]) eqn:E;
    [|intros H; inversion H; reflexivity].
  apply change_state_raise.
  apply cook_change_keys in E.
  - unfold tail_settable. destruct a; simpl; [constructor|].
    inversion E; auto.
  - repeat constructor.
Qed.

(** The generator yields a field that is empty when it is yielded. *)
Lemma first_empty_some fs : forall i,
  first_empty fs = Some i ->
  exists f, nth_error fs i = Some f /\ is_empty f = true.
Proof.
  induction fs as [|f t IH]; simpl; intros i H.
  - discriminate.
  - destruct (is_empty f) eqn:E.
    + inversion H; subst. exists f. auto.
    + destruct (first_empty t) as [j|]; [|discriminate].
      inversion H; subst. simpl. apply IH. reflexivity.
Qed.

Lemma gen_next_some fs pos i :
  gen_next fs pos = Some i ->
  (pos <= i)%nat /\ exists f, nth_error fs i = Some f /\ is_empty f = true.
Proof.
  unfold gen_next. destruct (first_empty (skipn pos fs)) as [j|] eqn:E;
    [|discriminate].
  simpl. intros H; inversion H; subst. split; [lia|].
  apply first_empty_some in E. destruct E as (f & Hf & He).
  exists f. split; [|exact He].
  rewrite nth_error_skipn in Hf. exact Hf.
Qed.

Lemma plant_loop_exn plant :
  (forall f, is_empty f = true -> exists f', plant f = Ok f') ->
  forall n fs pos e fs' pos',
    plant_loop plant n fs pos = (Some e, fs', pos') -> e = StopIteration.
Proof.
  intros Hp. induction n as [|n IH]; simpl; intros fs pos e fs' pos' H.
  - discriminate.
  - destruct (gen_next fs pos) as [i|] eqn:E; [|inversion H; auto].
    apply gen_next_some in E. destruct E as (_ & f & Hf & He).
    rewrite Hf in H. destruct (Hp f He) as [f' Hf']. rewrite Hf' in H.
    eapply IH; eauto.
Qed.

Lemma plant_grain_empty f :
  is_empty f = true -> exists f', plant_grain f = Ok f'.
Proof. unfold plant_grain. intros ->. simpl. eauto. Qed.

Lemma plant_veg_empty f : is_empty f = true -> exists f', plant_veg f = Ok f'.
Proof. unfold plant_veg. intros ->. simpl. eauto. Qed.

Lemma plant_all_raise ng nv p e p' :
  plant_all ng nv p = Raise e p' -> e = StopIteration.
Proof.
  unfold plant_all.
  destruct (plant_loop plant_grain (Z.to_nat ng) (_fields p) 0)
    as [[[e1|] fs] pos] eqn:E1.
  - intros H; inversion H; subst.
    eapply plant_loop_exn; [apply plant_grain_empty | exact E1].
  - destruct (plant_loop plant_veg (Z.to_nat nv) fs pos)
      as [[[e2|] fs'] pos'] eqn:E2; intros H; inversion H; subst.
    eapply plant_loop_exn; [apply plant_veg_empty | exact E2].
Qed.

Lemma sow_raise ng nv p e p' :
  sow ng nv p = Raise e p' -> e <> StopIteration -> p' = p.
Proof.
  unfold sow.
  destruct (change_state _ _ p) as [p1|e1 p1] eqn:E; simpl.
  - intros H Hne. apply plant_all_raise in H. contradiction.
  - intros H _. inversion H; subst.
    eapply change_state_raise; [|exact E].
    solve_settable.
Qed.

Lemma attrs_ok_lookup p k :
  attrs_ok p -> ~ In k ledger_names -> dict_get String.eqb (attrs p) k = None.
Proof.
  unfold attrs_ok. intros H Hk.
  induction H as [|[k' v] t Hk' _ IH]; simpl; [reflexivity|].
  destruct (String.eqb k k') eqn:E; [|exact IH].
  apply String.eqb_eq in E. subst. simpl in Hk'. contradiction.
Qed.

Lemma n_free_stables_missing p :
  attrs_ok p -> getattr p "n_free_stables" = Err AttributeError.
Proof.
  intros H. unfold getattr. cbn.
  rewrite (attrs_ok_lookup p "n_free_stables" H); [reflexivity|].
  simpl. intros C. repeat (destruct C as [C|C]; [discriminate C|]). exact C.
Qed.

Lemma check_animal_capacity_raises p l :
  attrs_ok p -> _check_animal_capacity p l = Err AttributeError.
Proof.
  intros H. unfold _check_animal_capacity, check_animal_capacity_via.
  rewrite (n_free_stables_missing p H). reflexivity.
Qed.

Lemma add_animals_raise kwargs p e p' :
  attrs_ok p -> add_animals kwargs p = Raise e p' -> p' = p.
Proof.
  intros Hok. unfold add_animals.
  destruct kwargs as [|[animal count] t]; simpl; [discriminate|].
  destruct (is_some (animals_get (animals p) animal)); simpl;
    [|intros H; inversion H; reflexivity].
  rewrite (check_animal_capacity_raises p _ Hok).
  intros H; inversion H; reflexivity.
Qed.

(** C1: for every operation of the board (build rooms, pastures or stables,
    plow, sow, bake bread, cook food, add people, add animals) and every
    board, an operation that is rejected raises with the board, ledger and
    regions, exactly as it was before the call.  Rejection is any exception
    but the [StopIteration] of the planting loop of [sow], which comes
    after validation, when the state change has been applied.  The board is
    any board whose instance dictionary holds only ledger entries besides
    what [__init__] stores, as every board made by [__init__] and the
    operations does.  ([add_animals] never commits anything: its capacity
    check raises on every such board.) *)
Theorem rejected_operation_leaves_board_unchanged :
  forall (o : operation) (p p' : Player) (e : exn),
    attrs_ok p ->
    run o p = Raise e p' ->
    e <> StopIteration ->
    p' = p.
Proof.
  intros o p p' e Hok H Hne. destruct o; simpl in H.
  - eapply build_rooms_raise; eauto.
  - eapply build_pastures_raise; eauto.
  - eapply build_stables_raise; eauto.
  - eapply plow_fields_raise; eauto.
  - eapply sow_raise; eauto.
  - unfold bake_bread in H. simpl in H. inversion H; reflexivity.
  - eapply cook_food_raise; eauto.
  - eapply add_people_raise; eauto.
  - eapply add_animals_raise; eauto.
Qed.

Lemma rejected_operation_witness :
  attrs_ok fresh_board
  /\ run (Sow 1 0) fresh_board = Raise AgricolaNotEnoughResources fresh_board
  /\ AgricolaNotEnoughResources <> StopIteration
  /\ fresh_board = fresh_board.
Proof.
  assert (H1 : attrs_ok fresh_board) by constructor.
  assert (H2 : run (Sow 1 0) fresh_board
               = Raise AgricolaNotEnoughResources fresh_board)
    by reflexivity.
  assert (H3 : AgricolaNotEnoughResources <> StopIteration) by discriminate.
  split; [exact H1|]. split; [exact H2|]. split; [exact H3|].
  exact (rejected_operation_leaves_board_unchanged
           (Sow 1 0) fresh_board fresh_board AgricolaNotEnoughResources
           H1 H2 H3).
Defined.

(** *** The instance dictionary stays within the ledger *)

Lemma init_prereq_keys chg : forall pre pre',
  init_prereq chg pre = Ok pre' ->
  Forall (fun kv => In (fst kv) RESOURCE_TYPES) chg.
Proof.
  induction chg as [|[k v] t IH]; intros pre pre'.
  - constructor.
  - cbn [init_prereq].
    destruct (mem String.eqb k RESOURCE_TYPES) eqn:E; cbn [negb];
      [|discriminate].
    intros H. constructor.
    + simpl. unfold mem in E. apply existsb_exists in E.
      destruct E as (x & Hx & Ex). apply String.eqb_eq in Ex. subst. exact Hx.
    + destruct (v <? 0); eapply IH; eauto.
Qed.

Lemma setattr_attrs_ok p k z p' :
  In k RESOURCE_TYPES -> attrs_ok p -> setattr p k z = Ok p' -> attrs_ok p'.
Proof.
  intros Hk Hok. simpl in Hk.
  repeat (destruct Hk as [<- | Hk];
          [vm_compute; intros H; inversion H; subst; clear H;
           try exact Hok|]); try contradiction;
    try (apply (dict_set_keys (fun k => In k ledger_names));
         [simpl; tauto | exact Hok]);
    try discriminate.
Qed.

Lemma apply_delta_attrs_ok p k v :
  In k RESOURCE_TYPES -> attrs_ok p ->
  attrs_ok (board_after (apply_delta k v p)).
Proof.
  intros Hk Hok. unfold apply_delta.
  destruct (x <- getattr p k ;; as_int x); simpl; [|exact Hok].
  destruct (setattr p k (v + a)) eqn:E; simpl; [|exact Hok].
  eapply setattr_attrs_ok; eauto.
Qed.

Lemma apply_change_attrs_ok l : forall p,
  Forall (fun kv => In (fst kv) RESOURCE_TYPES) l -> attrs_ok p ->
  attrs_ok (board_after (apply_change l p)).
Proof.
  induction l as [|[k v] t IH]; intros p Hl Hok; cbn [apply_change].
  - exact Hok.
  - inversion Hl as [|? ? Hk Ht]; subst. cbn [fst] in Hk.
    pose proof (apply_delta_attrs_ok p k v Hk Hok) as H1.
    destruct (apply_delta k v p) as [p1|e1 p1]; cbn [obind board_after] in *.
    + apply IH; assumption.
    + exact H1.
Qed.

Lemma transact_attrs_ok t p :
  attrs_ok p -> attrs_ok (board_after (transact t p)).
Proof.
  intros Hok. unfold transact, PlayerStateChange_init.
  destruct (init_prereq (t_change t) (t_prereq t)) as [pre'|e] eqn:E;
    cbn [rbind board_after]; [|exact Hok].
  apply init_prereq_keys in E.
  unfold check_and_apply. cbn [change prereq prereq_fns change_fns].
  destruct (check_prereq _ pre' p); cbn [guard obind board_after];
    [|exact Hok].
  destruct (t_prereq_fns t); cbn [run_callbacks obind board_after];
    [|exact Hok].
  pose proof (apply_change_attrs_ok (t_change t) p E Hok) as H1.
  destruct (apply_change (t_change t) p) as [p1|e1 p1];
    cbn [obind board_after] in *; [|exact H1].
  destruct (t_change_fns t); exact H1.
Qed.

Lemma change_state_transact chg pre p :
  change_state chg pre p = transact (mkTransaction chg pre [] []) p.
Proof. reflexivity. Qed.

Lemma attrs_ok_fields p fs : attrs_ok p -> attrs_ok (set_fields p fs).
Proof. exact (fun H => H). Qed.

Ltac keep_guard Hok :=
  match goal with
  | |- attrs_ok (board_after (obind (guard ?r ?p) _)) =>
      destruct r as [[]|?]; cbn [obind guard board_after]; [|exact Hok]
  end.

Ltac keep_change Hok :=
  match goal with
  | |- attrs_ok (board_after (obind (change_state ?c ?q ?p) _)) =>
      let H1 := fresh "H" in
      pose proof (transact_attrs_ok (mkTransaction c q [] []) p Hok) as H1;
      rewrite <- change_state_transact in H1;
      destruct (change_state c q p); cbn [obind board_after] in *;
      [|exact H1]
  end.

(** Every operation, accepted or rejected, leaves a board whose instance
    dictionary holds only entries of the ledger; so does [__init__]. *)
Lemma run_attrs_ok o p : attrs_ok p -> attrs_ok (board_after (run o p)).
Proof.
  intros Hok. destruct o; cbn [run].
  - unfold build_rooms. keep_guard Hok. keep_guard Hok. keep_change Hok.
    exact H.
  - unfold build_pastures.
    destruct (map_result Pasture_init pastures); [|exact Hok].
    keep_guard Hok. keep_guard Hok. keep_change Hok. exact H.
  - unfold build_stables.
    destruct (as_space_list spaces); [|exact Hok].
    keep_guard Hok. keep_guard Hok. keep_change Hok. exact H.
  - unfold plow_fields.
    destruct (l <- as_space_list spaces ;; map_result _ l); [|exact Hok].
    keep_guard Hok. keep_guard Hok. exact Hok.
  - unfold sow. keep_change Hok. unfold plant_all.
    destruct (plant_loop plant_grain _ _ _) as [[[e1|] fs] pos];
      [exact H|].
    destruct (plant_loop plant_veg _ _ _) as [[[e2|] fs'] pos']; exact H.
  - exact Hok.
  - unfold cook_food. destruct (cook_change _ _ _); [|exact Hok].
    pose proof (transact_attrs_ok (mkTransaction a [] [] []) p Hok) as H1.
    exact H1.
  - unfold add_people. destruct (people_avail p <? n); exact Hok.
  - unfold add_animals. destruct kwargs as [|[animal count] t];
      cbn [add_animals_with]; [exact Hok|].
    destruct (is_some (animals_get (animals p) animal)); cbn [negb];
      [|exact Hok].
    rewrite (check_animal_capacity_raises p _ Hok). exact Hok.
Qed.

Lemma Player_init_attrs_ok
    sh ht rooms fields stables pastures res ani a b c d p :
  Player_init sh ht rooms fields stables pastures res ani a b c d = Ok p ->
  attrs_ok p.
Proof.
  unfold Player_init.
  repeat match goal with
         | |- (rbind ?r _) = Ok _ -> _ =>
             destruct r; cbn [rbind]; [|discriminate]
         end.
  intros H. inversion H. constructor.
Qed.

(** ** Non-negativity of the ledger *)

Lemma dict_get_set k v d r :
  dict_get String.eqb (dict_set String.eqb k v d) r
  = if String.eqb r k then Some v else dict_get String.eqb d r.
Proof.
  induction d as [|[k' v'] t IH]; cbn [dict_set dict_get].
  - destruct (String.eqb r k); reflexivity.
  - destruct (String.eqb k k') eqn:E; cbn [dict_get].
    + apply String.eqb_eq in E. subst k'.
      destruct (String.eqb r k); reflexivity.
    + destruct (String.eqb r k') eqn:E'.
      * apply String.eqb_eq in E'. subst k'.
        rewrite String.eqb_sym in E. rewrite E. reflexivity.
      * exact IH.
Qed.

Lemma dict_get_In d k x :
  dict_get String.eqb d k = Some x -> In (k, x) d.
Proof.
  induction d as [|[k' v'] t IH]; cbn [dict_get]; [discriminate|].
  destruct (String.eqb k k') eqn:E.
  - apply String.eqb_eq in E. subst. intros H; inversion H. left; reflexivity.
  - intros H. right. apply IH, H.
Qed.

Lemma taken_nonneg chg r : 0 <= taken chg r.
Proof.
  induction chg as [|[k v] t IH]; cbn [taken]; [lia|].
  destruct (String.eqb r k && (v <? 0)) eqn:E; [|lia].
  apply andb_prop in E. destruct E as [_ E]. apply Z.ltb_lt in E. lia.
Qed.

Lemma amount_set k v d r :
  amount (dict_set String.eqb k v d) r
  = if String.eqb r k then v else amount d r.
Proof.
  unfold amount. rewrite dict_get_set. destruct (String.eqb r k); reflexivity.
Qed.

Lemma init_prereq_amount chg : forall pre pre' r,
  init_prereq chg pre = Ok pre' ->
  amount pre' r = amount pre r + taken chg r.
Proof.
  induction chg as [|[k v] t IH]; intros pre pre' r; cbn [init_prereq taken].
  - intros H; inversion H; subst. lia.
  - destruct (mem String.eqb k RESOURCE_TYPES); cbn [negb]; [|discriminate].
    destruct (v <? 0) eqn:Ev; intros H; rewrite (IH _ _ r H).
    + rewrite amount_set. fold (amount pre k).
      destruct (String.eqb r k) eqn:Er; cbn [andb]; [|lia].
      apply String.eqb_eq in Er. subst r. lia.
    + rewrite andb_false_r. lia.
Qed.

Lemma init_prereq_keeps chg k : forall pre pre',
  init_prereq chg pre = Ok pre' ->
  dict_get String.eqb pre k <> None ->
  dict_get String.eqb pre' k <> None.
Proof.
  induction chg as [|[k1 v1] t IH]; intros pre pre'; cbn [init_prereq].
  - intros H; inversion H; subst; auto.
  - destruct (mem String.eqb k1 RESOURCE_TYPES); cbn [negb]; [|discriminate].
    destruct (v1 <? 0); intros H Hd; [|eapply IH; eauto].
    eapply IH; [exact H|]. rewrite dict_get_set.
    destruct (String.eqb k k1); [discriminate|exact Hd].
Qed.

Lemma init_prereq_has chg r : forall pre pre',
  init_prereq chg pre = Ok pre' ->
  0 < taken chg r ->
  dict_get String.eqb pre' r <> None.
Proof.
  induction chg as [|[k v] t IH]; intros pre pre'; cbn [init_prereq taken].
  - intros _ H. lia.
  - destruct (mem String.eqb k RESOURCE_TYPES); cbn [negb]; [|discriminate].
    destruct (v <? 0) eqn:Ev; intros H Ht.
    + destruct (String.eqb r k) eqn:Er; cbn [andb] in Ht.
      * apply String.eqb_eq in Er. subst r.
        eapply init_prereq_keeps; [exact H|].
        rewrite dict_get_set, String.eqb_refl. discriminate.
      * eapply IH; [exact H|lia].
    + rewrite andb_false_r in Ht. eapply IH; [exact H|lia].
Qed.


Lemma check_prereq_ok sc l p :
  check_prereq sc l p = Ok tt ->
  forall k x, In (k, x) l ->
              exists cur, getattr p k = Ok (VInt cur) /\ x <= cur.
Proof.
  induction l as [|[k0 x0] t IH]; cbn [check_prereq]; intros H k x Hin.
  - destruct Hin.
  - destruct (getattr p k0) as [[cur|]|e] eqn:Eg; cbn [rbind as_int] in H;
      try discriminate.
    destruct (cur <? x0) eqn:Ec.
    + destruct (_error_message sc p); discriminate.
    + destruct Hin as [Hin|Hin].
      * inversion Hin; subst. exists cur. split; [exact Eg|].
        apply Z.ltb_ge in Ec. exact Ec.
      * apply IH; assumption.
Qed.

Lemma getattr_ledger_value p r :
  In r ledger_names -> exists z, getattr p r = Ok (VInt z).
Proof. intros H. eexists. apply getattr_ledger, H. Qed.

Lemma setattr_getattr p k z p' r :
  In r ledger_names ->
  setattr p k z = Ok p' ->
  getattr p' r = if String.eqb r k then Ok (VInt z) else getattr p r.
Proof.
  intros Hr. unfold setattr.
  destruct (mem String.eqb k (property_names p)) eqn:Em; [discriminate|].
  assert (Hcase :
    forall q, resources q = resources p -> animals q = animals p ->
              attrs q = attrs p -> getattr q r = getattr p r).
  { intros q H1 H2 H3. rewrite !getattr_ledger by exact Hr.
    rewrite H1, H2, H3. reflexivity. }
  assert (Hne : forall c, In c counter_names \/ c = "room_cost" ->
                          String.eqb r c = false).
  { intros c Hc. apply String.eqb_neq. intros ->.
    simpl in Hr, Hc.
    repeat (destruct Hr as [Hr|Hr]; [destruct Hc as [Hc|Hc];
      [repeat (destruct Hc as [Hc|Hc]; [subst; discriminate|]);
       contradiction | subst; discriminate]|]).
    contradiction. }
  repeat match goal with
         | |- (if String.eqb k ?c then _ else _) = _ -> _ =>
             let E := fresh "E" in
             destruct (String.eqb k c) eqn:E;
             [apply String.eqb_eq in E; subst k;
              intros H; inversion H; subst; clear H;
              rewrite Hne by (simpl; tauto);
              apply Hcase; reflexivity|]
         end.
  intros H; inversion H; subst; clear H.
  rewrite !getattr_ledger by exact Hr.
  cbn [attrs set_attrs resources animals]. rewrite dict_get_set.
  destruct (String.eqb r k); reflexivity.
Qed.

Lemma apply_delta_covers k v t p :
  covers_change ((k, v) :: t) p ->
  match apply_delta k v p with
  | Done p' => covers_change t p'
  | Raise _ p' => covers_change [] p'
  end.
Proof.
  intros Hc.
  assert (Hnil : covers_change [] p).
  { intros r Hr. destruct (Hc r Hr) as (z & Hz & Hle). exists z.
    split; [exact Hz|]. cbn [taken].
    pose proof (taken_nonneg ((k, v) :: t) r). lia. }
  unfold apply_delta.
  destruct (getattr p k) as [[cur|]|e] eqn:Eg; cbn [rbind as_int];
    try exact Hnil.
  destruct (setattr p k (v + cur)) as [p'|e] eqn:Es; [|exact Hnil].
  intros r Hr. destruct (Hc r Hr) as (z & Hz & Hle).
  rewrite (setattr_getattr p k (v + cur) p' r Hr Es).
  cbn [taken] in Hle.
  destruct (String.eqb r k) eqn:Er.
  - apply String.eqb_eq in Er. subst r. rewrite Eg in Hz. inversion Hz; subst.
    exists (v + z). split; [reflexivity|]. cbn [andb] in Hle.
    destruct (v <? 0) eqn:Ev; [apply Z.ltb_lt in Ev|apply Z.ltb_ge in Ev]; lia.
  - exists z. split; [exact Hz|]. cbn [andb] in Hle. lia.
Qed.

Lemma covers_nil_nonneg p : covers_change [] p -> ledger_nonneg p.
Proof. exact (fun H => H). Qed.

Lemma apply_change_covers chg : forall p,
  covers_change chg p -> ledger_nonneg (board_after (apply_change chg p)).
Proof.
  induction chg as [|[k v] t IH]; intros p Hc; cbn [apply_change].
  - exact Hc.
  - pose proof (apply_delta_covers k v t p Hc) as H.
    destruct (apply_delta k v p) as [p1|e1 p1]; cbn [obind board_after].
    + apply IH, H.
    + exact H.
Qed.


Lemma fresh_board_nonneg : ledger_nonneg fresh_board.
Proof.
  intros r Hr. exists 0. split; [|lia]. simpl in Hr.
  repeat (destruct Hr as [<- | Hr]; [reflexivity|]). contradiction.
Qed.







(** ** Sowing *)

Lemma Field_init_ok s n k f : Field_init s n k = Ok f -> Field_ok f.
Proof.
  unfold Field_init, Field_ok, is_empty.
  destruct (Bool.eqb (negb (n =? 0)) (is_some k)) eqn:E; cbn [negb];
    [|discriminate].
  intros H; inversion H; subst. cbn. apply Bool.eqb_prop, E.
Qed.

Lemma plant_grain_ok f f' : plant_grain f = Ok f' -> Field_ok f'.
Proof.
  unfold plant_grain. destruct (negb (is_empty f)); [discriminate|].
  intros H; inversion H. reflexivity.
Qed.

Lemma plant_veg_ok f f' : plant_veg f = Ok f' -> Field_ok f'.
Proof.
  unfold plant_veg. destruct (negb (is_empty f)); [discriminate|].
  intros H; inversion H. reflexivity.
Qed.










Section Planting.
Variables (plant : Field -> result Field) (mk : Field -> Field).
Hypothesis plant_mk : forall f, is_empty f = true -> plant f = Ok (mk f).
Hypothesis mk_full : forall f, is_empty (mk f) = false.





End Planting.











(** The board of the end-to-end scenario: the fresh board with one grain
    and one veg. *)
Lemma sow_scenario :
  exists p0 p1 p2 : Player,
    new_player (mkResources 0 0 0 0 0 1 1) = Ok p0
    /\ plow_fields (Spaces [(1, 0); (1, 1)]) p0 = Done p1
    /\ sow 1 1 p1 = Done p2
    /\ _fields p2 = [mkField (1, 0) 3 (Some Grain); mkField (1, 1) 2 (Some Veg)]
    /\ getattr p2 "grain" = Ok (VInt 0)
    /\ getattr p2 "veg" = Ok (VInt 0)
    /\ sow 1 0 p2 = Raise AgricolaNotEnoughResources p2.
Proof.
  do 3 eexists. split; [apply new_player_ok|].
  split; [reflexivity|]. split; [reflexivity|].
  repeat split.
Qed.


(** ** Connectivity *)

Lemma cell_eqb_eq a b : cell_eqb a b = true <-> a = b.
Proof.
  unfold cell_eqb. destruct a as [a1 a2], b as [b1 b2]. cbn [fst snd].
  rewrite andb_true_iff, !Z.eqb_eq. split.
  - intros [-> ->]. reflexivity.
  - intros H; inversion H; auto.
Qed.

Lemma mem_cell_In x l : mem cell_eqb x l = true <-> In x l.
Proof.
  unfold mem. rewrite existsb_exists. split.
  - intros (y & Hy & E). apply cell_eqb_eq in E. subst. exact Hy.
  - intros H. exists x. split; [exact H|]. apply cell_eqb_eq. reflexivity.
Qed.

Lemma distinct_fold l : forall acc,
  NoDup acc ->
  let r := fold_left (fun acc k => if mem cell_eqb k acc then acc
                                   else acc ++ [k]) l acc in
  NoDup r /\ forall x, In x r <-> In x acc \/ In x l.
Proof.
  induction l as [|k t IH]; intros acc Hacc; cbn [fold_left].
  - split; [exact Hacc|]. intros x. cbn. tauto.
  - destruct (mem cell_eqb k acc) eqn:E.
    + destruct (IH acc Hacc) as [H1 H2]. split; [exact H1|].
      intros x. rewrite H2. apply mem_cell_In in E. cbn [In].
      split; [tauto|]. intros [H|[<-|H]]; auto.
    + assert (Hk : ~ In k acc).
      { intros C. apply mem_cell_In in C. congruence. }
      destruct (IH (acc ++ [k])) as [H1 H2].
      { apply NoDup_app; [exact Hacc| repeat constructor; auto |].
        intros x Hx [<-|[]]. exact (Hk Hx). }
      split; [exact H1|]. intros x. rewrite H2, in_app_iff. cbn [In]. tauto.
Qed.

Lemma distinct_NoDup l : NoDup (distinct cell_eqb l).
Proof. apply (distinct_fold l []). constructor. Qed.

Lemma distinct_In l x : In x (distinct cell_eqb l) <-> In x l.
Proof.
  unfold distinct. destruct (distinct_fold l [] (NoDup_nil _)) as [_ H].
  rewrite H. cbn. tauto.
Qed.

Lemma orthog_adjacent_sym a b :
  Utils.orthog_adjacent a b = Utils.orthog_adjacent b a.
Proof.
  unfold Utils.orthog_adjacent.
  replace (fst b - fst a) with (- (fst a - fst b)) by lia.
  replace (snd b - snd a) with (- (snd a - snd b)) by lia.
  rewrite !Z.abs_opp. reflexivity.
Qed.


Lemma linked_in_l cells a b : linked cells a b -> In a cells.
Proof. induction 1; auto. Qed.

Lemma linked_in_r cells a b : linked cells a b -> In b cells.
Proof. induction 1; auto. Qed.

Lemma linked_trans cells a b c :
  linked cells a b -> linked cells b c -> linked cells a c.
Proof.
  intros Hab Hbc. induction Hbc as [Hb|c d Hbc IH Hd Hadj]; [exact Hab|].
  eapply linked_step; [exact IH | exact Hd | exact Hadj].
Qed.

Lemma linked_sym cells a b : linked cells a b -> linked cells b a.
Proof.
  induction 1 as [Ha|b c Hab IH Hc Hadj]; [constructor; exact Ha|].
  eapply linked_trans; [|exact IH].
  eapply linked_step; [constructor; exact Hc | eapply linked_in_r; eauto |].
  rewrite orthog_adjacent_sym. exact Hadj.
Qed.

Lemma linked_incl cells cells' a b :
  (forall x, In x cells -> In x cells') ->
  linked cells a b -> linked cells' a b.
Proof.
  intros Hi. induction 1; [constructor; auto|].
  eapply linked_step; eauto.
Qed.

Section Search.
Variable nodes : list cell.
Variable n0 : cell.
Hypothesis nodes_nodup : NoDup nodes.
Hypothesis n0_in : In n0 nodes.

Lemma bfs_step_frontier seen :
  bfs_step nodes seen = seen ++ frontier nodes seen.
Proof. reflexivity. Qed.

Lemma frontier_In seen c :
  In c (frontier nodes seen) <->
  In c nodes /\ ~ In c seen
  /\ exists s, In s seen /\ Utils.orthog_adjacent s c = true.
Proof.
  unfold frontier. rewrite filter_In, andb_true_iff, negb_true_iff,
    existsb_exists.
  split.
  - intros (H1 & H2 & H3). repeat split; auto.
    intros C. apply mem_cell_In in C. congruence.
  - intros (H1 & H2 & H3). repeat split; auto.
    destruct (mem cell_eqb c seen) eqn:E; [|reflexivity].
    apply mem_cell_In in E. contradiction.
Qed.

Lemma bfs_step_ok seen :
  seen_ok nodes n0 seen -> seen_ok nodes n0 (bfs_step nodes seen).
Proof.
  intros [Hnd Hs]. rewrite bfs_step_frontier. split.
  - apply NoDup_app; [exact Hnd | apply NoDup_filter, nodes_nodup |].
    intros x Hx Hf. apply frontier_In in Hf. tauto.
  - intros x Hx. apply in_app_iff in Hx. destruct Hx as [Hx|Hx]; [auto|].
    apply frontier_In in Hx. destruct Hx as (H1 & _ & s & Hs1 & Hadj).
    split; [exact H1|].
    eapply linked_step; [apply Hs, Hs1 | exact H1 | exact Hadj].
Qed.

Lemma frontier_nil_closed seen : frontier nodes seen = [] -> closed nodes seen.
Proof.
  intros E s c Hs Hc Hadj.
  destruct (mem cell_eqb c seen) eqn:Em; [apply mem_cell_In, Em|].
  assert (H : In c (frontier nodes seen)).
  { apply frontier_In. repeat split; auto.
    - intros C. apply mem_cell_In in C. congruence.
    - exists s. auto. }
  rewrite E in H. destruct H.
Qed.

Lemma bfs_fixed fuel : forall seen,
  frontier nodes seen = [] -> bfs fuel nodes seen = seen.
Proof.
  induction fuel as [|f IH]; intros seen E; cbn [bfs]; [reflexivity|].
  rewrite bfs_step_frontier, E, app_nil_r. apply IH, E.
Qed.

Lemma bfs_ok fuel : forall seen,
  seen_ok nodes n0 seen -> seen_ok nodes n0 (bfs fuel nodes seen).
Proof.
  induction fuel as [|f IH]; intros seen H; cbn [bfs]; [exact H|].
  apply IH, bfs_step_ok, H.
Qed.

Lemma bfs_grows fuel : forall seen x,
  In x seen -> In x (bfs fuel nodes seen).
Proof.
  induction fuel as [|f IH]; intros seen x H; cbn [bfs]; [exact H|].
  apply IH. rewrite bfs_step_frontier. apply in_app_iff. auto.
Qed.

(** The search either reaches a closed set or sees a new node in every
    round. *)
Lemma bfs_closed_or_long fuel : forall seen,
  closed nodes (bfs fuel nodes seen)
  \/ (List.length seen + fuel <= List.length (bfs fuel nodes seen))%nat.
Proof.
  induction fuel as [|f IH]; intros seen; cbn [bfs].
  - right. lia.
  - destruct (frontier nodes seen) as [|c t] eqn:E.
    + left. rewrite bfs_step_frontier, E, app_nil_r.
      rewrite (bfs_fixed f seen E). apply frontier_nil_closed, E.
    + destruct (IH (bfs_step nodes seen)) as [H|H]; [left; exact H|].
      right. rewrite bfs_step_frontier, E, length_app in H.
      cbn [List.length] in H. rewrite bfs_step_frontier, E. lia.
Qed.

Lemma bfs_closed :
  closed nodes (bfs (List.length nodes) nodes [n0]).
Proof.
  assert (Hok : seen_ok nodes n0 [n0]).
  { split; [repeat constructor; auto|].
    intros x [<-|[]]. split; [exact n0_in|]. constructor. exact n0_in. }
  destruct (bfs_closed_or_long (List.length nodes) [n0]) as [H|H];
    [exact H|].
  exfalso.
  destruct (bfs_ok (List.length nodes) [n0] Hok) as [Hnd Hin].
  assert (Hle : (List.length (bfs (List.length nodes) nodes [n0])
                 <= List.length nodes)%nat).
  { apply NoDup_incl_length; [exact Hnd|]. intros x Hx. apply Hin, Hx. }
  cbn [List.length] in H. lia.
Qed.

Lemma closed_linked seen :
  closed nodes seen -> In n0 seen ->
  forall x, linked nodes n0 x -> In x seen.
Proof.
  intros Hc H0 x Hl. induction Hl as [Ha|b c Hab IH Hcn Hadj].
  - exact H0.
  - eapply Hc; [exact IH | exact Hcn | exact Hadj].
Qed.

(** The search from [n0] sees exactly the nodes linked to [n0]. *)
Lemma bfs_sees x :
  In x (bfs (List.length nodes) nodes [n0]) <-> linked nodes n0 x.
Proof.
  split.
  - intros H. apply bfs_ok in H; [tauto|].
    split; [repeat constructor; auto|].
    intros y [<-|[]]. split; [exact n0_in|]. constructor. exact n0_in.
  - apply closed_linked; [apply bfs_closed|].
    apply bfs_grows. left. reflexivity.
Qed.

End Search.

(** [nx.is_connected] as modelled decides connectivity of the node set. *)
Lemma is_connected_spec nodes :
  NoDup nodes -> nodes <> [] ->
  (is_connected nodes = true <-> connected nodes).
Proof.
  intros Hnd Hne. destruct nodes as [|n0 t]; [contradiction|].
  unfold is_connected.
  set (nodes := n0 :: t) in *.
  assert (H0 : In n0 nodes) by (left; reflexivity).
  assert (Hok : seen_ok nodes n0 (bfs (List.length nodes) nodes [n0])).
  { apply bfs_ok; [exact Hnd|].
    split; [repeat constructor; auto|].
    intros x [<-|[]]. split; [exact H0|]. constructor. exact H0. }
  destruct Hok as [Hnd' Hin'].
  rewrite Nat.eqb_eq. split.
  - intros Hlen a b Ha Hb.
    assert (Hall : forall x, In x nodes -> linked nodes n0 x).
    { assert (Hincl : incl nodes (bfs (List.length nodes) nodes [n0])).
      { apply NoDup_length_incl; [exact Hnd' | lia |].
        intros y Hy. apply Hin', Hy. }
      intros x Hx. apply (bfs_sees nodes n0 Hnd H0). apply Hincl, Hx. }
    eapply linked_trans; [apply linked_sym, Hall, Ha | apply Hall, Hb].
  - intros Hc. apply Nat.le_antisymm.
    + apply NoDup_incl_length; [exact Hnd'|]. intros x Hx. apply Hin', Hx.
    + apply NoDup_incl_length; [exact Hnd|]. intros x Hx.
      apply (bfs_sees nodes n0 Hnd H0). apply Hc; assumption.
Qed.

Lemma connected_ext l l' :
  (forall x, In x l <-> In x l') -> connected l -> connected l'.
Proof.
  intros H Hc a b Ha Hb.
  apply (linked_incl l l'); [intros x; apply H|].
  apply Hc; apply H; assumption.
Qed.

Lemma connected_small l : (List.length l <= 1)%nat -> connected l.
Proof.
  intros Hl a b Ha Hb.
  destruct l as [|x [|y t]]; cbn in Hl; try lia.
  - destruct Ha.
  - destruct Ha as [<-|[]]. destruct Hb as [<-|[]].
    constructor. left. reflexivity.
Qed.

(** [check_connected_group] accepts exactly the groups whose cells form
    one connected component, and raises [AgricolaLogicError] otherwise. *)
Lemma check_connected_group_spec objects :
  (connected (List.concat objects) ->
   check_connected_group objects = Ok tt)
  /\ (~ connected (List.concat objects) ->
      check_connected_group objects = Err AgricolaLogicError).
Proof.
  unfold check_connected_group, graph_nodes.
  set (G := distinct cell_eqb (List.concat objects)).
  assert (HG : forall x, In x G <-> In x (List.concat objects))
    by (intros x; apply distinct_In).
  assert (Hnd : NoDup G) by apply distinct_NoDup.
  destruct (Z.gtb_spec (len G) 1) as [Hlen|Hlen]; cbn [andb].
  - assert (Hne : G <> []).
    { intros E. rewrite E in Hlen. cbn in Hlen. lia. }
    pose proof (is_connected_spec G Hnd Hne) as Hspec.
    destruct (is_connected G) eqn:E; cbn [negb]; split; intros H;
      try reflexivity.
    + exfalso. apply H. apply (connected_ext G); [exact HG|].
      apply Hspec. reflexivity.
    + exfalso. assert (C : connected G).
      { apply (connected_ext (List.concat objects)); [|exact H].
        intros x. symmetry. apply HG. }
      apply Hspec in C. discriminate C.
  - split; intros H; [reflexivity|].
    exfalso. apply H. apply (connected_ext G); [exact HG|].
    apply connected_small. unfold len in Hlen. lia.
Qed.

Lemma concat_stable_cells l :
  List.concat (stable_cells l) = map stable_space l.
Proof.
  unfold stable_cells. induction l as [|s t IH]; cbn; [reflexivity|].
  f_equal. exact IH.
Qed.

Lemma map_stable_space cells : map stable_space (map mkStable cells) = cells.
Proof.
  induction cells as [|c t IH]; cbn; [reflexivity|]. f_equal. exact IH.
Qed.

(** C10, as stated, fails.  On the fresh board the stables asked for at
    (0, 0) and (2, 4) are not connected, and the call raises the overlap
    error [AgricolaImpossible], not the connectivity error: (0, 0) is a
    room, and the placement check comes first. *)
Lemma disconnected_stables_other_error :
  ~ (~ connected (map stable_space (_stables fresh_board)
                  ++ [(0, 0); (2, 4)]) ->
     build_stables (Spaces [(0, 0); (2, 4)]) 1 fresh_board
     = Raise AgricolaLogicError fresh_board).
Proof.
  intros H.
  assert (Hn : ~ connected (map stable_space (_stables fresh_board)
                            ++ [(0, 0); (2, 4)])).
  { intros C.
    apply (is_connected_spec [(0, 0); (2, 4)]) in C.
    - discriminate C.
    - repeat constructor; cbn; intuition discriminate.
    - discriminate. }
  specialize (H Hn). vm_compute in H. discriminate H.
Qed.

(** C10, amended: when the cells of the stables already built together
    with the cells of the new stables do not form one orthogonally
    connected component, [build_stables] raises and neither the stable
    list nor anything else on the board changes; the exception is the
    connectivity error [AgricolaLogicError] whenever the new stables pass
    the placement check (in bounds, no cell twice, no room, stable or field
    on their cells). *)
Theorem build_stables_requires_connected_stables :
  forall (p : Player) (spaces : spaces_arg) (unit_cost : Z)
         (cells : list cell),
    as_space_list spaces = Ok cells ->
    ~ connected (map stable_space (_stables p) ++ cells) ->
    (exists e, build_stables spaces unit_cost p = Raise e p)
    /\ (_check_spatial_objects p (stable_cells (map mkStable cells))
          ["pasture"] = Ok tt ->
        build_stables spaces unit_cost p = Raise AgricolaLogicError p).
Proof.
  intros p spaces cost cells Hs Hn.
  assert (Hc : check_connected_group
                 (stable_cells (_stables p ++ map mkStable cells))
               = Err AgricolaLogicError).
  { apply check_connected_group_spec.
    rewrite concat_stable_cells, map_app, map_stable_space. exact Hn. }
  unfold build_stables. rewrite Hs.
  destruct (_check_spatial_objects p _ _) as [[]|e] eqn:E;
    cbn [guard obind]; rewrite ?Hc; cbn [guard obind].
  - split; [eexists; reflexivity|]. intros _. reflexivity.
  - split; [eexists; reflexivity|]. intros C. discriminate C.
Qed.

Lemma build_stables_requires_connected_stables_witness :
  build_stables (Spaces [(2, 0); (2, 2)]) 1 fresh_board
  = Raise AgricolaLogicError fresh_board.
Proof.
  assert (Hn : ~ connected (map stable_space (_stables fresh_board)
                            ++ [(2, 0); (2, 2)])).
  { intros C.
    apply (is_connected_spec [(2, 0); (2, 2)]) in C.
    - discriminate C.
    - repeat constructor; cbn; intuition discriminate.
    - discriminate. }
  apply (build_stables_requires_connected_stables fresh_board
           (Spaces [(2, 0); (2, 2)]) 1 [(2, 0); (2, 2)] eq_refl Hn).
  reflexivity.
Defined.

(** ** The capacity solver *)

Lemma sum_app l l' : sum (l ++ l') = sum l + sum l'.
Proof. unfold sum. induction l; cbn; [reflexivity|]. rewrite IHl. lia. Qed.

Lemma sum_repeat k n : sum (repeat k n) = k * Z.of_nat n.
Proof.
  unfold sum. induction n; cbn [repeat fold_right]; [lia|].
  rewrite IHn. lia.
Qed.

Lemma sum_perm l l' : Permutation l l' -> sum l = sum l'.
Proof.
  unfold sum. induction 1; cbn; lia.
Qed.

Lemma sum_nonneg l : Forall (fun x => 0 <= x) l -> 0 <= sum l.
Proof. unfold sum. induction 1; cbn; lia. Qed.

Lemma sum_expand m :
  Forall (fun kv => 0 <= snd kv) m -> sum (expand m) = Utils.multiset_weight m.
Proof.
  unfold expand, Utils.multiset_weight.
  induction 1 as [|[k v] t Hv _ IH]; cbn [flat_map map]; [reflexivity|].
  rewrite sum_app, sum_repeat, IH. cbn [fst snd sum fold_right] in *.
  rewrite Z2Nat.id by exact Hv. reflexivity.
Qed.

Lemma range_In c n : In c (range n) <-> 0 <= c < n.
Proof.
  unfold range. rewrite in_map_iff. split.
  - intros (i & <- & Hi). apply in_seq in Hi. lia.
  - intros H. exists (Z.to_nat c). split; [lia|]. apply in_seq. lia.
Qed.

Lemma product_In {A} (ls : list (list A)) : forall cs,
  In cs (Utils.product ls) <-> Forall2 (fun c l => In c l) cs ls.
Proof.
  induction ls as [|l t IH]; intros cs; cbn [Utils.product].
  - split.
    + intros [<-|[]]. constructor.
    + intros H; inversion H. left. reflexivity.
  - rewrite in_flat_map. split.
    + intros (x & Hx & H). apply in_map_iff in H.
      destruct H as (ct & <- & Hct). constructor; [exact Hx|].
      apply IH, Hct.
    + intros H. inversion H as [|c l' ct t' Hc Hct]; subst.
      exists c. split; [exact Hc|]. apply in_map. apply IH, Hct.
Qed.

Lemma product_within m cs :
  In cs (Utils.product (map (fun kv => range (snd kv + 1)) m))
  <-> within m cs.
Proof.
  rewrite product_In. unfold within. revert cs.
  induction m as [|kv t IH]; intros cs; cbn [map].
  - split; intros H; inversion H; constructor.
  - split; intros H; inversion H; subst; constructor;
      try (apply IH; assumption).
    + match goal with H : In _ (range _) |- _ => apply range_In in H end. lia.
    + apply range_In. lia.
Qed.

Lemma fold_sub_head k v t l :
  ~ In k (map fst l) ->
  fold_left (fun a kv => Utils.sub_at (fst kv) (snd kv) a) l ((k, v) :: t)
  = (k, v) :: fold_left (fun a kv => Utils.sub_at (fst kv) (snd kv) a) l t.
Proof.
  revert t. induction l as [|[k' c'] l IH]; intros t Hk; cbn [fold_left];
    [reflexivity|].
  cbn [Utils.sub_at fst snd].
  destruct (Z.eqb_spec k' k) as [->|Hne].
  - exfalso. apply Hk. left. reflexivity.
  - apply IH. intros C. apply Hk. right. exact C.
Qed.

(** With distinct keys, [multiset_subtract] of a sub-multiset given by its
    counts is the subtraction position by position. *)
Lemma multiset_subtract_minus m : forall cs,
  NoDup (map fst m) -> List.length cs = List.length m ->
  Utils.multiset_subtract m (combine (map fst m) cs) = minus m cs.
Proof.
  unfold Utils.multiset_subtract.
  induction m as [|[k v] t IH]; intros cs Hnd Hlen.
  - destruct cs; reflexivity.
  - destruct cs as [|c ct]; [discriminate|].
    cbn [map fst combine fold_left minus Utils.sub_at snd].
    rewrite Z.eqb_refl. inversion Hnd as [|? ? Hk Hnd']; subst.
    rewrite fold_sub_head.
    + f_equal. apply IH; [exact Hnd'|]. cbn in Hlen. lia.
    + intros C. apply Hk.
      clear - C. revert ct C. induction (map fst t) as [|a l IHl];
        intros ct C; [destruct C|].
      destruct ct as [|c ct]; [destruct C|].
      cbn in C. destruct C as [<-|C]; [left; reflexivity|].
      right. eapply IHl, C.
Qed.

Lemma minus_keys m : forall cs, map fst (minus m cs) = map fst m.
Proof.
  induction m as [|[k v] t IH]; intros cs; [destruct cs; reflexivity|].
  destruct cs as [|c ct]; [reflexivity|]. cbn. f_equal. apply IH.
Qed.

Lemma minus_ok m cs : counter_ok m -> counter_ok (minus m cs).
Proof.
  intros [Hnd Hf]. split; [rewrite minus_keys; exact Hnd|].
  clear Hnd. revert cs. induction Hf as [|[k v] t Hkv Ht IH]; intros cs.
  - destruct cs; constructor.
  - destruct cs as [|c ct]; [constructor; assumption|].
    cbn [minus]. constructor; [cbn [fst snd] in *; lia|]. apply IH.
Qed.

Lemma expand_minus m : forall cs,
  within m cs ->
  Permutation (expand (combine (map fst m) cs) ++ expand (minus m cs))
              (expand m).
Proof.
  unfold within, expand.
  induction m as [|[k v] t IH]; intros cs H; inversion H; subst.
  - constructor.
  - cbn [map fst combine flat_map minus snd] in *.
    rewrite <- app_assoc.
    match goal with
    | |- Permutation (?a ++ ?b ++ ?c ++ ?d) _ =>
        transitivity ((a ++ c) ++ (b ++ d))
    end.
    + rewrite <- !app_assoc. apply Permutation_app_head.
      rewrite !app_assoc. apply Permutation_app_tail.
      apply Permutation_app_comm.
    + apply Permutation_app.
      * rewrite <- repeat_app.
        replace (Z.to_nat x + Z.to_nat (Z.max 0 (v - x)))%nat
          with (Z.to_nat v) by lia.
        reflexivity.
      * apply IH. assumption.
Qed.

Lemma weight_counts m : forall cs,
  within m cs ->
  Utils.multiset_weight (combine (map fst m) cs)
  = sum (expand (combine (map fst m) cs)).
Proof.
  intros cs H. symmetry. apply sum_expand.
  revert cs H. unfold within.
  induction m as [|[k v] t IH]; intros cs H; inversion H; subst;
    cbn [map combine]; constructor; [cbn; lia|].
  apply IH. assumption.
Qed.

Lemma within_length m cs : within m cs -> List.length cs = List.length m.
Proof. unfold within. induction 1; cbn; lia. Qed.

(** Soundness: what the solver accepts can be split. *)
Lemma multiset_satisfy_sound gs : forall m,
  counter_ok m ->
  Utils.multiset_satisfy gs m = true ->
  split_in_order gs (expand m).
Proof.
  induction gs as [|g rest IH]; intros m Hok H.
  - exists [], (expand m). split; [reflexivity|constructor].
  - cbn [Utils.multiset_satisfy] in H. destruct rest as [|g2 r].
    + exists [expand m], []. split.
      * cbn. rewrite !app_nil_r. reflexivity.
      * constructor; [|constructor].
        rewrite sum_expand.
        -- apply Z.geb_le in H. exact H.
        -- destruct Hok as [_ Hf]. eapply Forall_impl; [|exact Hf].
           cbn. intros; tauto.
    + destruct (Utils.multiset_weight m <? sum (g :: g2 :: r));
        [discriminate|].
      apply existsb_exists in H. destruct H as (cs & Hcs & H).
      apply product_within in Hcs.
      destruct (Utils.multiset_weight (combine (map fst m) cs) <? g) eqn:Ew;
        [discriminate|].
      apply Z.ltb_ge in Ew.
      rewrite multiset_subtract_minus in H;
        [|apply Hok|apply within_length, Hcs].
      apply IH in H; [|apply minus_ok, Hok].
      destruct H as (parts & rst & Hp & Hf).
      exists (expand (combine (map fst m) cs) :: parts), rst. split.
      * cbn [List.concat]. rewrite <- app_assoc.
        rewrite <- (expand_minus m cs Hcs).
        apply Permutation_app_head. exact Hp.
      * constructor; [|exact Hf].
        rewrite <- weight_counts by exact Hcs. exact Ew.
Qed.

Lemma count_expand m x : count_occ Z.eq_dec (expand m) x = cnt m x.
Proof.
  unfold expand. induction m as [|[k v] t IH]; cbn [flat_map cnt fst snd];
    [reflexivity|].
  rewrite count_occ_app, IH. f_equal.
  destruct (Z.eqb_spec x k) as [->|Hne].
  - apply count_occ_repeat_eq. reflexivity.
  - apply count_occ_repeat_neq. exact Hne.
Qed.

Lemma cnt_absent m x : ~ In x (map fst m) -> cnt m x = O.
Proof.
  induction m as [|[k v] t IH]; cbn [cnt map fst In]; [reflexivity|].
  intros H. destruct (Z.eqb_spec x k) as [->|Hne]; [tauto|].
  apply IH. tauto.
Qed.

Lemma cnt_present m k v :
  NoDup (map fst m) -> In (k, v) m -> cnt m k = Z.to_nat v.
Proof.
  induction m as [|[k' v'] t IH]; cbn [cnt map fst In]; [tauto|].
  intros Hnd [E|Hin]; inversion Hnd as [|? ? Hk Hnd']; subst.
  - inversion E; subst. rewrite Z.eqb_refl, cnt_absent by exact Hk. lia.
  - destruct (Z.eqb_spec k k') as [->|Hne].
    + exfalso. apply Hk. apply (in_map fst) in Hin. exact Hin.
    + rewrite IH by assumption. lia.
Qed.

Lemma combine_counts_of c m :
  combine (map fst m) (counts_of c m)
  = map (fun kv => (fst kv, Z.of_nat (c (fst kv)))) m.
Proof.
  unfold counts_of. induction m as [|kv t IH]; cbn; [reflexivity|].
  f_equal. exact IH.
Qed.

Lemma cnt_counts_of c m x :
  NoDup (map fst m) -> In x (map fst m) ->
  cnt (combine (map fst m) (counts_of c m)) x = c x.
Proof.
  rewrite combine_counts_of.
  induction m as [|[k v] t IH]; cbn [cnt map fst In]; [tauto|].
  intros Hnd Hin. inversion Hnd as [|? ? Hk Hnd']; subst.
  destruct (Z.eqb_spec x k) as [->|Hne].
  - rewrite cnt_absent; [lia|].
    rewrite map_map. cbn [fst]. exact Hk.
  - destruct Hin as [E|Hin]; [congruence|].
    rewrite IH by assumption. lia.
Qed.

Lemma cnt_minus c m x :
  NoDup (map fst m) -> In x (map fst m) ->
  cnt (minus m (counts_of c m)) x = (cnt m x - c x)%nat.
Proof.
  unfold counts_of.
  induction m as [|[k v] t IH]; cbn [cnt map fst In minus]; [tauto|].
  intros Hnd Hin. inversion Hnd as [|? ? Hk Hnd']; subst.
  destruct (Z.eqb_spec x k) as [->|Hne].
  - rewrite !cnt_absent; [lia | exact Hk | rewrite minus_keys; exact Hk].
  - destruct Hin as [E|Hin]; [congruence|].
    rewrite IH by assumption. lia.
Qed.

Lemma Forall2_covers_sum gs : forall parts,
  Forall2 (fun g part => g <= sum part) gs parts ->
  sum gs <= sum (List.concat parts).
Proof.
  induction 1 as [|g part gs parts Hg _ IH]; cbn; [lia|].
  rewrite sum_app. cbn in IH. unfold sum in *. cbn. lia.
Qed.

Lemma expand_keys m x : In x (expand m) -> In x (map fst m).
Proof.
  unfold expand. rewrite in_flat_map. intros ((k, v) & Hkv & Hx).
  apply repeat_spec in Hx. subst. apply (in_map fst) in Hkv. exact Hkv.
Qed.

Lemma expand_nonneg m :
  counter_ok m -> Forall (fun x => 0 <= x) (expand m).
Proof.
  intros [_ Hf]. apply Forall_forall. intros x Hx.
  unfold expand in Hx. apply in_flat_map in Hx.
  destruct Hx as ((k, v) & Hkv & Hx). apply repeat_spec in Hx. subst.
  rewrite Forall_forall in Hf. apply (Hf _ Hkv).
Qed.

(** The counts of a part of the capacities are counts that the solver
    tries. *)
Lemma counts_of_within m part others :
  counter_ok m ->
  Permutation (part ++ others) (expand m) ->
  within m (counts_of (count_occ Z.eq_dec part) m).
Proof.
  intros [Hnd Hf] Hp. unfold within, counts_of.
  assert (H : forall kv, In kv m ->
            0 <= Z.of_nat (count_occ Z.eq_dec part (fst kv)) <= snd kv).
  { intros [k v] Hkv. cbn [fst snd]. split; [lia|].
    pose proof (proj1 (Permutation_count_occ Z.eq_dec _ _) Hp k) as Hc.
    rewrite count_occ_app, count_expand, (cnt_present m k v Hnd Hkv) in Hc.
    rewrite Forall_forall in Hf. specialize (Hf _ Hkv). cbn in Hf. lia. }
  clear Hnd Hf Hp. induction m as [|kv t IH]; cbn [map]; constructor.
  - apply H. left. reflexivity.
  - apply IH. intros kv' Hkv'. apply H. right. exact Hkv'.
Qed.

Lemma counts_of_part m part others :
  counter_ok m ->
  Permutation (part ++ others) (expand m) ->
  Permutation (expand (combine (map fst m)
                         (counts_of (count_occ Z.eq_dec part) m)))
              part
  /\ Permutation others
       (expand (minus m (counts_of (count_occ Z.eq_dec part) m))).
Proof.
  intros [Hnd Hf] Hp.
  assert (Hc : forall x, (count_occ Z.eq_dec part x
                          + count_occ Z.eq_dec others x)%nat = cnt m x).
  { intros x.
    pose proof (proj1 (Permutation_count_occ Z.eq_dec _ _) Hp x) as Hc.
    rewrite count_occ_app, count_expand in Hc. exact Hc. }
  split; apply (Permutation_count_occ Z.eq_dec); intros x;
    rewrite count_expand;
    destruct (in_dec Z.eq_dec x (map fst m)) as [Hin|Hout].
  - apply cnt_counts_of; assumption.
  - rewrite cnt_absent.
    + specialize (Hc x). rewrite (cnt_absent m x Hout) in Hc. lia.
    + rewrite combine_counts_of, map_map. cbn [fst]. exact Hout.
  - rewrite cnt_minus by assumption. specialize (Hc x). lia.
  - rewrite cnt_absent by (rewrite minus_keys; exact Hout).
    specialize (Hc x). rewrite (cnt_absent m x Hout) in Hc. lia.
Qed.

(** Completeness: what can be split, the solver accepts. *)
Lemma multiset_satisfy_complete gs : forall m,
  counter_ok m ->
  split_in_order gs (expand m) ->
  Utils.multiset_satisfy gs m = true.
Proof.
  induction gs as [|g rest IH]; intros m Hok (parts & rst & Hp & Hf);
    [reflexivity|].
  assert (Hw : sum (g :: rest) <= Utils.multiset_weight m).
  { rewrite <- sum_expand.
    - rewrite <- (sum_perm _ _ Hp), sum_app.
      pose proof (Forall2_covers_sum _ _ Hf).
      assert (0 <= sum rst); [|lia].
      apply sum_nonneg. apply Forall_forall. intros x Hx.
      pose proof (expand_nonneg m Hok) as Hn. rewrite Forall_forall in Hn.
      apply Hn. eapply Permutation_in; [exact Hp|].
      apply in_app_iff. right. exact Hx.
    - destruct Hok as [_ H]. eapply Forall_impl; [|exact H]. cbn. tauto. }
  cbn [Utils.multiset_satisfy]. destruct rest as [|g2 r].
  - apply Z.geb_le. unfold sum in Hw. cbn in Hw. lia.
  - destruct (Z.ltb_spec (Utils.multiset_weight m) (sum (g :: g2 :: r)));
      [lia|].
    inversion Hf as [|? part ? parts' Hg Hf']; subst.
    cbn [List.concat] in Hp. rewrite <- app_assoc in Hp.
    pose proof (counts_of_within m part _ Hok Hp) as Hin.
    destruct (counts_of_part m part _ Hok Hp) as [Hpart Hothers].
    apply existsb_exists.
    exists (counts_of (count_occ Z.eq_dec part) m). split.
    + apply product_within, Hin.
    + rewrite (weight_counts m _ Hin), (sum_perm _ _ Hpart).
      destruct (Z.ltb_spec (sum part) g); [lia|].
      rewrite multiset_subtract_minus;
        [|apply Hok|apply within_length, Hin].
      apply IH; [apply minus_ok, Hok|].
      exists parts', rst. split; [exact Hothers|exact Hf'].
Qed.

Lemma counter_incr_keys k c x :
  In x (map fst (counter_incr Z.eqb k c)) -> x = k \/ In x (map fst c).
Proof.
  induction c as [|[k' v] t IH]; cbn [counter_incr map fst In].
  - intros [<-|[]]. left. reflexivity.
  - destruct (Z.eqb_spec k k') as [->|Hne]; cbn [map fst In].
    + tauto.
    + intros [<-|H]; [tauto|]. apply IH in H. tauto.
Qed.

Lemma counter_incr_ok k c :
  0 <= k -> counter_ok c ->
  counter_ok (counter_incr Z.eqb k c)
  /\ Permutation (expand (counter_incr Z.eqb k c)) (k :: expand c).
Proof.
  intros Hk. unfold counter_ok, expand.
  induction c as [|[k' v] t IH]; intros [Hnd Hf];
    cbn [counter_incr map fst flat_map snd].
  - split; [split|].
    + repeat constructor. intros [].
    + repeat constructor; cbn; lia.
    + reflexivity.
  - inversion Hnd as [|? ? Hk' Hnd']; inversion Hf as [|? ? Hkv Hf']; subst.
    cbn [fst snd] in Hkv.
    destruct (Z.eqb_spec k k') as [->|Hne]; cbn [map fst flat_map snd].
    + split; [split|].
      * exact Hnd.
      * constructor; [cbn; lia|exact Hf'].
      * replace (Z.to_nat (v + 1)) with (S (Z.to_nat v)) by lia.
        reflexivity.
    + destruct (IH (conj Hnd' Hf')) as [[Hnd2 Hf2] Hp]. split; [split|].
      * constructor; [|exact Hnd2].
        intros C. apply counter_incr_keys in C. destruct C; [congruence|tauto].
      * constructor; [cbn; lia|exact Hf2].
      * rewrite Hp. symmetry. apply Permutation_middle.
Qed.

Lemma Counter_fold l : forall acc,
  Forall (fun c => 0 <= c) l -> counter_ok acc ->
  counter_ok (fold_left (fun c k => counter_incr Z.eqb k c) l acc)
  /\ Permutation
       (expand (fold_left (fun c k => counter_incr Z.eqb k c) l acc))
       (expand acc ++ l).
Proof.
  induction l as [|k t IH]; intros acc Hl Hacc; cbn [fold_left].
  - split; [exact Hacc|]. rewrite app_nil_r. reflexivity.
  - inversion Hl as [|? ? Hk Ht]; subst.
    destruct (counter_incr_ok k acc Hk Hacc) as [Hok Hp].
    destruct (IH _ Ht Hok) as [Hok' Hp']. split; [exact Hok'|].
    rewrite Hp', Hp. cbn [app]. apply Permutation_middle.
Qed.

Lemma Counter_ok caps :
  Forall (fun c => 0 <= c) caps ->
  counter_ok (Counter Z.eqb caps)
  /\ Permutation (expand (Counter Z.eqb caps)) caps.
Proof.
  intros H. apply (Counter_fold caps []); [exact H|].
  split; constructor.
Qed.

Lemma concat_perm (l l' : list (list Z)) :
  Permutation l l' -> Permutation (List.concat l) (List.concat l').
Proof.
  induction 1 as [|x l l' _ IH|x y l|l l' l'' _ IH1 _ IH2]; cbn [List.concat].
  - reflexivity.
  - apply Permutation_app_head, IH.
  - rewrite !app_assoc. apply Permutation_app_tail, Permutation_app_comm.
  - etransitivity; eassumption.
Qed.

(** C3: for every list of required group sizes and every multiset of
    capacities, none of them negative, handed to the solver as a
    [Counter], [multiset_satisfy] returns [True] exactly when the
    capacities can be split into pairwise disjoint sub-multisets, one per
    requirement under some bijection, each weighing at least its
    requirement.  An empty requirement list is accepted, and a single
    requirement is accepted exactly when the total weight of the
    capacities reaches it. *)
Theorem multiset_satisfy_decides_split :
  forall (gs caps : list Z),
    Forall (fun c => 0 <= c) caps ->
    (Utils.multiset_satisfy gs (Counter Z.eqb caps) = true
     <-> splittable gs caps)
    /\ Utils.multiset_satisfy [] (Counter Z.eqb caps) = true
    /\ (forall g, Utils.multiset_satisfy [g] (Counter Z.eqb caps) = true
                  <-> g <= sum caps).
Proof.
  intros gs caps Hcaps.
  destruct (Counter_ok caps Hcaps) as [Hok Hp].
  split; [split|split].
  - intros H. apply multiset_satisfy_sound in H; [|exact Hok].
    destruct H as (parts & rst & Hperm & Hf).
    exists gs, parts, rst. split; [reflexivity|]. split; [|exact Hf].
    rewrite Hperm. exact Hp.
  - intros (gs' & parts & rst & Hg & Hperm & Hf).
    apply multiset_satisfy_complete; [exact Hok|].
    destruct (Permutation_Forall2 (Permutation_sym Hg) Hf)
      as (parts' & Hparts & Hf').
    exists parts', rst. split; [|exact Hf'].
    rewrite <- (concat_perm _ _ Hparts), Hperm. symmetry. exact Hp.
  - reflexivity.
  - intros g. cbn [Utils.multiset_satisfy].
    rewrite <- (sum_perm _ _ Hp), sum_expand.
    + rewrite Z.geb_le. reflexivity.
    + destruct Hok as [_ H]. eapply Forall_impl; [|exact H]. cbn. tauto.
Qed.

Lemma multiset_satisfy_decides_split_witness : splittable [2; 2] [1; 1; 2].
Proof.
  assert (H : Forall (fun c => 0 <= c) [1; 1; 2])
    by (repeat constructor; lia).
  apply (proj1 (proj1 (multiset_satisfy_decides_split [2; 2] [1; 1; 2] H))).
  reflexivity.
Defined.

(** ** Grid geometry: orthogonal adjacency *)


(** ** Running sums *)

Lemma cumsum_from_spec lst : forall acc,
  cumsum_from acc lst
  = map (fun i => acc + sum (firstn (S i) lst)) (seq 0 (List.length lst)).
Proof.
  induction lst as [|x t IH]; intros acc; [reflexivity|].
  cbn [cumsum_from List.length seq map]. f_equal.
  - cbn. lia.
  - rewrite IH, <- seq_shift, map_map. apply map_ext. intros i.
    cbn [firstn sum fold_right]. unfold sum. lia.
Qed.

(** X2: [cumsum] returns the running sums of its argument: the item at
    position [i] is the sum of the first [i + 1] items, so the result is as
    long as the argument. *)
Theorem cumsum_prefix_sums :
  forall lst : list Z,
    cumsum lst
    = map (fun i => sum (firstn (S i) lst)) (seq 0 (List.length lst)).
Proof.
  intros lst. unfold cumsum. rewrite cumsum_from_spec.
  apply map_ext. intros i. lia.
Qed.

(** ** Score tables *)

Lemma insert_sorted_perm x l : Permutation (insert_sorted x l) (x :: l).
Proof.
  induction l as [|y t IH]; cbn [insert_sorted]; [reflexivity|].
  destruct (x <=? y); [reflexivity|].
  rewrite IH. apply perm_swap.
Qed.

Lemma sorted_perm l : Permutation (sorted l) l.
Proof.
  induction l as [|x t IH]; cbn [sorted fold_right]; [reflexivity|].
  fold (sorted t). rewrite insert_sorted_perm, IH. reflexivity.
Qed.

Lemma insert_sorted_sorted x l :
  StronglySorted Z.le l -> StronglySorted Z.le (insert_sorted x l).
Proof.
  induction l as [|y t IH]; intros H; cbn [insert_sorted].
  - repeat constructor.
  - inversion H as [|? ? Ht Hy]; subst.
    destruct (Z.leb_spec x y) as [L|L].
    + constructor; [exact H|]. constructor; [exact L|].
      eapply Forall_impl; [|exact Hy]. cbn. intros; lia.
    + constructor; [apply IH, Ht|].
      apply (Permutation_Forall (Permutation_sym (insert_sorted_perm x t))).
      constructor; [lia|exact Hy].
Qed.

Lemma sorted_sorted l : StronglySorted Z.le (sorted l).
Proof.
  induction l as [|x t IH]; cbn [sorted fold_right]; [constructor|].
  apply insert_sorted_sorted, IH.
Qed.

Lemma count_le_perm value l l' :
  Permutation l l' ->
  List.length (filter (fun t => t <=? value) l)
  = List.length (filter (fun t => t <=? value) l').
Proof.
  induction 1 as [|x l l' _ IH|x y l|l l' l'' _ IH1 _ IH2]; cbn [filter].
  - reflexivity.
  - destruct (x <=? value); cbn [List.length]; congruence.
  - destruct (x <=? value), (y <=? value); reflexivity.
  - congruence.
Qed.

Lemma count_le_above value b t :
  value < b -> Forall (Z.le b) t ->
  List.length (filter (fun t => t <=? value) t) = O.
Proof.
  intros Hv H. induction H as [|x t Hx _ IH]; [reflexivity|].
  cbn [filter]. destruct (Z.leb_spec x value); [lia|exact IH].
Qed.

Lemma score_scan_spec value points l : forall i a t,
  l = a :: t -> a <= value -> StronglySorted Z.le l ->
  score_scan value points i l
  = let k := List.length (filter (fun t => t <=? value) l) in
    if (k <? List.length l)%nat then list_item points (i + k)
    else last_item points.
Proof.
  induction l as [|a' l' IH]; intros i a t E Ha Hs; [discriminate|].
  inversion E; subst a' l'. clear E.
  cbn [filter]. destruct (Z.leb_spec a value) as [_|]; [|lia].
  destruct t as [|b t'].
  - reflexivity.
  - change (score_scan value points i (a :: b :: t'))
      with (if (value >=? a) && (value <? b) then list_item points (S i)
            else score_scan value points (S i) (b :: t')).
    inversion Hs as [|? ? Ht Hb]; subst.
    destruct (Z.geb_spec value a) as [_|]; [|lia]. cbn [andb].
    destruct (Z.ltb_spec value b) as [L|L].
    + inversion Ht as [|? ? _ Hb']; subst.
      assert (H0 : List.length (filter (fun t => t <=? value) (b :: t')) = O).
      { apply (count_le_above value b); [exact L|].
        constructor; [lia|exact Hb']. }
      cbn zeta. cbn [List.length]. rewrite H0. cbn [Nat.ltb Nat.leb].
      rewrite Nat.add_1_r. reflexivity.
    + rewrite (IH (S i) b t' eq_refl L Ht). cbn zeta.
      cbn [List.length].
      set (k := List.length (filter (fun t => t <=? value) (b :: t'))).
      change (S k <? S (S (List.length t')))%nat
        with (k <? S (List.length t'))%nat.
      rewrite Nat.add_succ_r. reflexivity.
Qed.

(** X3: [score_mapping] without a list of points raises [TypeError], and
    with points but no thresholds [IndexError].  Otherwise, with [k] the
    number of thresholds that the value reaches, it returns [points[k]] as
    long as some threshold is above the value, and [points[-1]] once the
    value reaches every threshold. *)
Theorem score_mapping_steps :
  forall (value : Z) (thresholds points : list Z),
    score_mapping value thresholds points
    = match points, thresholds with
      | [], _ => Err TypeError
      | _ :: _, [] => Err IndexError
      | _ :: _, _ :: _ =>
          let k := List.length (filter (fun t => t <=? value) thresholds) in
          if (k <? List.length thresholds)%nat then list_item points k
          else last_item points
      end.
Proof.
  intros value thresholds points. unfold score_mapping.
  destruct points as [|p ps]; [reflexivity|]. cbn [rbind].
  destruct thresholds as [|t0 ts]; [reflexivity|].
  pose proof (sorted_perm (t0 :: ts)) as Hp.
  pose proof (sorted_sorted (t0 :: ts)) as Hs.
  rewrite (count_le_perm value _ _ (Permutation_sym Hp)).
  rewrite <- (Permutation_length Hp).
  destruct (sorted (t0 :: ts)) as [|a t] eqn:E.
  - apply Permutation_nil in Hp. discriminate.
  - cbn [list_item nth_error rbind].
    destruct (Z.ltb_spec value a) as [L|L].
    + inversion Hs as [|? ? _ Ha]; subst.
      rewrite (count_le_above value a (a :: t) L)
        by (constructor; [lia|exact Ha]).
      reflexivity.
    + apply (score_scan_spec value (p :: ps) (a :: t) O a t eq_refl L Hs).
Qed.

(** ** Fields: harvesting *)

Lemma harvest_ok f : Field_ok f -> Field_ok (fst (harvest f)).
Proof.
  unfold harvest, Field_ok, is_empty.
  destruct (Z.gtb_spec (_n_items f) 0) as [L|L]; cbn [fst]; [|tauto].
  cbn [_n_items _kind]. intros H.
  destruct (Z.eqb_spec (_n_items f - 1) 0) as [E|E]; [reflexivity|].
  rewrite <- H. cbn [negb]. destruct (Z.eqb_spec (_n_items f) 0); [lia|].
  reflexivity.
Qed.

(** X4: [n] calls of [harvest] on a well-formed field return [True] as
    often as the field holds items, and at most [n] times; each such call
    takes one item, and the field stays well formed and in place. *)
Theorem harvest_yields_what_the_field_holds :
  forall (n : nat) (f : Field),
    Field_ok f ->
    snd (harvest_times n f) = Z.min (Z.of_nat n) (Z.max 0 (_n_items f))
    /\ _n_items (fst (harvest_times n f))
       = _n_items f - snd (harvest_times n f)
    /\ Field_ok (fst (harvest_times n f))
    /\ field_space (fst (harvest_times n f)) = field_space f.
Proof.
  induction n as [|n IH]; intros f Hok.
  - cbn [harvest_times fst snd]. repeat split; [lia|lia|exact Hok].
  - cbn [harvest_times].
    pose proof (harvest_ok f Hok) as Hok1.
    destruct (IH (fst (harvest f)) Hok1) as (H1 & H2 & H3 & H4).
    destruct (harvest f) as [f1 ok] eqn:E. cbn [fst] in *.
    destruct (harvest_times n f1) as [f2 c]. cbn [fst snd] in *.
    unfold harvest in E.
    destruct (Z.gtb_spec (_n_items f) 0) as [L|L]; inversion E; subst;
      cbn [_n_items field_space] in *; repeat split; try assumption; lia.
Qed.

Lemma harvest_yields_what_the_field_holds_witness :
  snd (harvest_times 5 (mkField (1, 0) 3 (Some Grain))) = 3
  /\ _n_items (fst (harvest_times 5 (mkField (1, 0) 3 (Some Grain)))) = 0.
Proof.
  assert (H : Field_ok (mkField (1, 0) 3 (Some Grain))) by reflexivity.
  destruct (harvest_yields_what_the_field_holds 5 _ H) as (H1 & H2 & _).
  split; [exact H1|]. rewrite H2, H1. reflexivity.
Defined.

(** X5: planting and harvesting are inverse on an empty field: after
    [plant_grain] exactly three calls of [harvest], and after [plant_veg]
    exactly two, return [True] and leave the field as it was before
    planting; on the empty field itself [harvest] returns [False] and
    changes nothing. *)
Theorem harvest_undoes_planting :
  forall f : Field,
    Field_ok f -> is_empty f = true ->
    exists g v : Field,
      plant_grain f = Ok g /\ harvest_times 3 g = (f, 3)
      /\ plant_veg f = Ok v /\ harvest_times 2 v = (f, 2)
      /\ harvest f = (f, false).
Proof.
  intros [s n k]. unfold Field_ok, is_empty. cbn [_n_items _kind].
  intros Hok He. rewrite He in Hok. apply Z.eqb_eq in He. subst n.
  destruct k as [c|]; [discriminate|].
  exists (mkField s 3 (Some Grain)), (mkField s 2 (Some Veg)).
  repeat split.
Qed.

Lemma harvest_undoes_planting_witness :
  exists g v : Field,
    plant_grain (mkField (1, 0) 0 None) = Ok g
    /\ harvest_times 3 g = (mkField (1, 0) 0 None, 3)
    /\ plant_veg (mkField (1, 0) 0 None) = Ok v
    /\ harvest_times 2 v = (mkField (1, 0) 0 None, 2)
    /\ harvest (mkField (1, 0) 0 None) = (mkField (1, 0) 0 None, false).
Proof.
  apply (harvest_undoes_planting (mkField (1, 0) 0 None)); reflexivity.
Defined.

(** ** Pastures: adjacency *)

(** X6: [adjacent_to] is symmetric: a pasture touches another exactly when
    the other touches it. *)
Theorem adjacent_to_sym :
  forall p q : Pasture, adjacent_to p q = adjacent_to q p.
Proof.
  intros p q. apply Bool.eq_iff_eq_true. unfold adjacent_to.
  rewrite !existsb_exists.
  split; intros (s & Hs & H); apply existsb_exists in H;
    destruct H as (so & Hso & H); exists so; (split; [exact Hso|]);
    apply existsb_exists; exists s; (split; [exact Hs|]);
    rewrite orthog_adjacent_sym; exact H.
Qed.

(** ** Multisets of capacities *)

Lemma dict_get_sub_at k w a x :
  dict_get Z.eqb (Utils.sub_at k w a) x
  = if x =? k then option_map (fun v => Z.max 0 (v - w)) (dict_get Z.eqb a x)
    else dict_get Z.eqb a x.
Proof.
  induction a as [|[k' v'] t IH]; cbn [Utils.sub_at dict_get].
  - destruct (x =? k); reflexivity.
  - destruct (Z.eqb_spec k k') as [E|E]; cbn [dict_get].
    + subst k'. destruct (Z.eqb_spec x k); reflexivity.
    + rewrite IH. destruct (Z.eqb_spec x k') as [E'|E']; [|reflexivity].
      subst k'. destruct (Z.eqb_spec x k); [congruence|reflexivity].
Qed.

Lemma sub_at_keys k w a : map fst (Utils.sub_at k w a) = map fst a.
Proof.
  induction a as [|[k' v'] t IH]; cbn [Utils.sub_at]; [reflexivity|].
  destruct (k =? k'); cbn [map fst]; [reflexivity|]. rewrite IH. reflexivity.
Qed.

Lemma dict_get_absent (b : Utils.multiset) k :
  ~ In k (map fst b) -> dict_get Z.eqb b k = None.
Proof.
  induction b as [|[k' v'] t IH]; cbn [dict_get map fst In]; [reflexivity|].
  intros H. destruct (Z.eqb_spec k k'); [exfalso; apply H; left; congruence|].
  apply IH. tauto.
Qed.

(** X7: [multiset_subtract a b] has the keys of [a], in the same order; a
    key that [b] also has is counted [max(0, a[k] - b[k])] times, and any
    other key keeps its count. *)
Theorem multiset_subtract_lookup :
  forall (a b : Utils.multiset) (k : Z),
    NoDup (map fst b) ->
    map fst (Utils.multiset_subtract a b) = map fst a
    /\ dict_get Z.eqb (Utils.multiset_subtract a b) k
       = match dict_get Z.eqb a k, dict_get Z.eqb b k with
         | None, _ => None
         | Some v, None => Some v
         | Some v, Some w => Some (Z.max 0 (v - w))
         end.
Proof.
  intros a b k. revert a. unfold Utils.multiset_subtract.
  induction b as [|[k' w] t IH]; intros a Hnd; cbn [fold_left fst snd].
  - split; [reflexivity|]. cbn [dict_get]. destruct (dict_get Z.eqb a k);
      reflexivity.
  - inversion Hnd as [|? ? Hk Ht]; subst.
    destruct (IH (Utils.sub_at k' w a) Ht) as [IH1 IH2].
    split; [rewrite IH1; apply sub_at_keys|].
    rewrite IH2, dict_get_sub_at. cbn [dict_get].
    destruct (Z.eqb_spec k k') as [E|E].
    + subst k'. rewrite (dict_get_absent t k Hk).
      destruct (dict_get Z.eqb a k); reflexivity.
    + reflexivity.
Qed.

Lemma multiset_subtract_lookup_witness :
  dict_get Z.eqb (Utils.multiset_subtract [(1, 2); (2, 1)] [(1, 3); (4, 1)]) 1
  = Some 0.
Proof.
  assert (H : NoDup (map fst [(1, 3); (4, 1)])).
  { cbn. repeat constructor; cbn; lia. }
  exact (proj2 (multiset_subtract_lookup [(1, 2); (2, 1)] [(1, 3); (4, 1)]
                  1 H)).
Defined.

(** ** Counters, for any type of keys *)

Section CounterFacts.
Context {K : Type} (eqb : K -> K -> bool).
Hypothesis eqb_eq : forall a b, eqb a b = true <-> a = b.

Lemma eqb_same a : eqb a a = true.
Proof. apply eqb_eq. reflexivity. Qed.

Lemma eqb_differ a b : a <> b -> eqb a b = false.
Proof.
  intros H. destruct (eqb a b) eqn:E; [|reflexivity].
  apply eqb_eq in E. contradiction.
Qed.

Lemma mem_In x l : mem eqb x l = true <-> In x l.
Proof.
  unfold mem. rewrite existsb_exists. split.
  - intros (y & Hy & E). apply eqb_eq in E. subst. exact Hy.
  - intros H. exists x. split; [exact H|apply eqb_same].
Qed.

Lemma mem_not_In x l : mem eqb x l = false <-> ~ In x l.
Proof.
  rewrite <- mem_In. destruct (mem eqb x l); split; congruence.
Qed.

Lemma lookup_absent (d : list (K * Z)) k :
  dict_get eqb d k = None <-> ~ In k (map fst d).
Proof.
  induction d as [|[k' v] t IH]; cbn [dict_get map fst In]; [tauto|].
  destruct (eqb k k') eqn:E.
  - apply eqb_eq in E. subst. split; [discriminate|]. intros H. tauto.
  - rewrite IH. split; [|tauto]. intros H [C|C]; [|tauto].
    subst. rewrite eqb_same in E. discriminate.
Qed.

Lemma lookup_In (d : list (K * Z)) k v :
  NoDup (map fst d) -> (In (k, v) d <-> dict_get eqb d k = Some v).
Proof.
  induction d as [|[k' v'] t IH]; cbn [dict_get map fst In]; intros Hnd.
  - split; [tauto|discriminate].
  - inversion Hnd as [|? ? Hk Ht]; subst.
    destruct (eqb k k') eqn:E.
    + apply eqb_eq in E. subst k'. split.
      * intros [H|H]; [congruence|]. exfalso. apply Hk.
        apply (in_map fst) in H. exact H.
      * intros H. left. congruence.
    + rewrite <- (IH Ht). split; [|tauto]. intros [H|H]; [|exact H].
      inversion H; subst. rewrite eqb_same in E. discriminate.
Qed.

Lemma occurrences_nonneg l x : 0 <= occurrences eqb l x.
Proof. unfold occurrences, len. lia. Qed.

Lemma occurrences_cons y l x :
  occurrences eqb (y :: l) x
  = (if eqb x y then 1 else 0) + occurrences eqb l x.
Proof.
  unfold occurrences, len. cbn [filter].
  destruct (eqb x y); cbn [List.length]; lia.
Qed.

Lemma occurrences_app l l' x :
  occurrences eqb (l ++ l') x = occurrences eqb l x + occurrences eqb l' x.
Proof.
  unfold occurrences, len. rewrite filter_app, length_app. lia.
Qed.

Lemma occurrences_zero l x : occurrences eqb l x = 0 <-> ~ In x l.
Proof.
  induction l as [|y t IH]; [cbn; tauto|].
  rewrite occurrences_cons. pose proof (occurrences_nonneg t x) as H0.
  cbn [In]. destruct (eqb x y) eqn:E.
  - apply eqb_eq in E. subst. split; [lia|]. intros H. exfalso. auto.
  - rewrite Z.add_0_l, IH. split; [|tauto]. intros H [C|C]; [|tauto].
    subst. rewrite eqb_same in E. discriminate.
Qed.

Lemma occurrences_NoDup l :
  NoDup l <-> forall x, occurrences eqb l x <= 1.
Proof.
  induction l as [|y t IH].
  - split; [intros _ x; cbn; lia|constructor].
  - split.
    + intros H x. inversion H as [|? ? Hy Ht]; subst.
      rewrite occurrences_cons. destruct (eqb x y) eqn:E.
      * apply eqb_eq in E. subst.
        apply occurrences_zero in Hy. lia.
      * apply IH with (x := x) in Ht. lia.
    + intros H. constructor.
      * apply occurrences_zero. specialize (H y).
        rewrite occurrences_cons, eqb_same in H.
        pose proof (occurrences_nonneg t y). lia.
      * apply IH. intros x. specialize (H x).
        rewrite occurrences_cons in H. destruct (eqb x y); lia.
Qed.

Lemma counter_incr_lookup k c x :
  dict_get eqb (counter_incr eqb k c) x
  = if eqb x k
    then Some (match dict_get eqb c k with Some v => v + 1 | None => 1 end)
    else dict_get eqb c x.
Proof.
  induction c as [|[k' v] t IH]; cbn [counter_incr dict_get].
  - reflexivity.
  - destruct (eqb k k') eqn:E; cbn [dict_get].
    + apply eqb_eq in E. subst k'. destruct (eqb x k); reflexivity.
    + rewrite IH. destruct (eqb x k') eqn:E'; [|reflexivity].
      apply eqb_eq in E'. subst k'.
      rewrite (eqb_differ x k); [reflexivity|].
      intros C. subst. rewrite eqb_same in E. discriminate.
Qed.

Lemma counter_incr_keys_iff k c x :
  In x (map fst (counter_incr eqb k c)) <-> x = k \/ In x (map fst c).
Proof.
  induction c as [|[k' v] t IH]; cbn [counter_incr map fst In].
  - intuition congruence.
  - destruct (eqb k k') eqn:E; cbn [map fst In].
    + apply eqb_eq in E. subst. intuition congruence.
    + rewrite IH. intuition congruence.
Qed.

Lemma counter_incr_nodup k c :
  NoDup (map fst c) -> NoDup (map fst (counter_incr eqb k c)).
Proof.
  induction c as [|[k' v] t IH]; cbn [counter_incr map fst]; intros H.
  - repeat constructor. intros [].
  - inversion H as [|? ? Hk Ht]; subst.
    destruct (eqb k k') eqn:E; cbn [map fst].
    + constructor; assumption.
    + constructor; [|apply IH, Ht].
      rewrite counter_incr_keys_iff. intros [C|C]; [|tauto].
      subst. rewrite eqb_same in E. discriminate.
Qed.

Lemma Counter_fold_lookup l : forall acc x,
  dict_get eqb (fold_left (fun c k => counter_incr eqb k c) l acc) x
  = if occurrences eqb l x =? 0 then dict_get eqb acc x
    else Some (match dict_get eqb acc x with Some v => v | None => 0 end
               + occurrences eqb l x).
Proof.
  induction l as [|y t IH]; intros acc x; cbn [fold_left]; [reflexivity|].
  rewrite IH, occurrences_cons, counter_incr_lookup.
  pose proof (occurrences_nonneg t x) as H0.
  destruct (eqb x y) eqn:E.
  - apply eqb_eq in E. subst y.
    destruct (Z.eqb_spec (1 + occurrences eqb t x) 0) as [C|_]; [lia|].
    destruct (Z.eqb_spec (occurrences eqb t x) 0) as [Z0|_];
      destruct (dict_get eqb acc x); f_equal; lia.
  - rewrite Z.add_0_l. reflexivity.
Qed.

Lemma Counter_fold_nodup l : forall acc,
  NoDup (map fst acc) ->
  NoDup (map fst (fold_left (fun c k => counter_incr eqb k c) l acc)).
Proof.
  induction l as [|y t IH]; intros acc H; cbn [fold_left]; [exact H|].
  apply IH, counter_incr_nodup, H.
Qed.

(** [Counter(l)] holds every item of [l] once, with the number of its
    occurrences. *)
Lemma Counter_In l k v :
  In (k, v) (Counter eqb l) <-> In k l /\ v = occurrences eqb l k.
Proof.
  unfold Counter.
  rewrite lookup_In by (apply Counter_fold_nodup; constructor).
  rewrite Counter_fold_lookup. cbn [dict_get].
  destruct (Z.eqb_spec (occurrences eqb l k) 0) as [E|E].
  - apply occurrences_zero in E. split; [discriminate|tauto].
  - split.
    + intros H. inversion H. split; [|lia].
      destruct (mem eqb k l) eqn:M; [apply mem_In, M|].
      apply mem_not_In, occurrences_zero in M. contradiction.
    + intros [_ ->]. f_equal.
Qed.

End CounterFacts.

(** ** The placement check *)

Lemma for_each_ok {A} (f : A -> result unit) l :
  for_each f l = Ok tt <-> forall x, In x l -> f x = Ok tt.
Proof.
  induction l as [|y t IH]; cbn [for_each In].
  - split; [tauto|reflexivity].
  - unfold rbind. destruct (f y) as [[]|e] eqn:E.
    + rewrite IH. split; [|auto]. intros H x [<-|Hx]; auto.
    + split; [discriminate|]. intros H.
      specialize (H y (or_introl eq_refl)). congruence.
Qed.


Lemma index_check_ok s shape :
  Utils.index_check s shape = Ok tt <-> in_bounds shape s.
Proof.
  unfold Utils.index_check, in_bounds.
  destruct (Z.ltb_spec (fst s) 0), (Z.ltb_spec (snd s) 0),
    (Z.geb_spec (fst s) (fst shape)), (Z.geb_spec (snd s) (snd shape));
    cbn [orb]; split; intros X; try discriminate; try reflexivity; lia.
Qed.


Lemma bounds_check_ok shape objects :
  for_each (fun o => for_each (fun s => Utils.index_check s shape) o) objects
  = Ok tt
  <-> Forall (in_bounds shape) (List.concat objects).
Proof.
  rewrite for_each_ok, Forall_forall. split.
  - intros H s Hs. apply in_concat in Hs. destruct Hs as (o & Ho & Hs).
    apply index_check_ok. apply (proj1 (for_each_ok _ _) (H o Ho)), Hs.
  - intros H o Ho. apply for_each_ok. intros s Hs.
    apply index_check_ok, H, in_concat. eauto.
Qed.


Lemma overlap_check_ok spaces :
  for_each (fun kv : cell * Z =>
              if snd kv >? 1 then Err AgricolaImpossible else Ok tt)
           (Counter cell_eqb spaces) = Ok tt
  <-> NoDup spaces.
Proof.
  rewrite for_each_ok, (occurrences_NoDup cell_eqb cell_eqb_eq). split.
  - intros H x.
    destruct (Z.eqb_spec (occurrences cell_eqb spaces x) 0) as [E|E]; [lia|].
    assert (Hin : In (x, occurrences cell_eqb spaces x)
                     (Counter cell_eqb spaces)).
    { apply (Counter_In cell_eqb cell_eqb_eq). split; [|reflexivity].
      destruct (mem cell_eqb x spaces) eqn:M; [apply mem_cell_In, M|].
      apply (mem_not_In cell_eqb cell_eqb_eq) in M.
      apply (occurrences_zero cell_eqb cell_eqb_eq) in M. contradiction. }
    apply H in Hin. cbn [snd] in Hin.
    destruct (Z.gtb_spec (occurrences cell_eqb spaces x) 1);
      [discriminate|lia].
  - intros H [k v] Hin. apply (Counter_In cell_eqb cell_eqb_eq) in Hin.
    destruct Hin as [_ ->]. cbn [snd]. specialize (H k).
    destruct (Z.gtb_spec (occurrences cell_eqb spaces k) 1);
      [lia|reflexivity].
Qed.

Lemma string_eqb_eq (a b : string) : String.eqb a b = true <-> a = b.
Proof. apply String.eqb_eq. Qed.

Lemma occupied_check_ok occ omit spaces :
  for_each
    (fun entry : string * list (list cell) =>
       if negb (mem String.eqb (fst entry) omit) then
         for_each
           (fun space =>
              if existsb (fun o => mem cell_eqb space o) (snd entry)
              then Err AgricolaImpossible else Ok tt)
           spaces
       else Ok tt)
    occ = Ok tt
  <-> unoccupied occ omit spaces.
Proof.
  rewrite for_each_ok. unfold unoccupied. split.
  - intros H kind objects s Hin Homit Hs Hc.
    specialize (H _ Hin). cbn [fst snd] in H.
    apply (mem_not_In String.eqb string_eqb_eq) in Homit.
    rewrite Homit in H. cbn [negb] in H.
    apply (proj1 (for_each_ok _ _)) with (x := s) in H; [|exact Hs].
    apply in_concat in Hc. destruct Hc as (o & Ho & Hso).
    assert (E : existsb (fun o => mem cell_eqb s o) objects = true).
    { apply existsb_exists. exists o. split; [exact Ho|].
      apply mem_cell_In, Hso. }
    rewrite E in H. discriminate.
  - intros H [kind objects] Hin. cbn [fst snd].
    destruct (mem String.eqb kind omit) eqn:M; cbn [negb]; [reflexivity|].
    apply (mem_not_In String.eqb string_eqb_eq) in M.
    apply for_each_ok. intros s Hs.
    destruct (existsb (fun o => mem cell_eqb s o) objects) eqn:E;
      [|reflexivity].
    exfalso. apply existsb_exists in E. destruct E as (o & Ho & Hso).
    apply mem_cell_In in Hso.
    apply (H kind objects s Hin M Hs). apply in_concat. eauto.
Qed.

Lemma check_spatial_ok shape occ objects omit :
  check_spatial shape occ objects omit = Ok tt
  <-> Forall (in_bounds shape) (List.concat objects)
      /\ NoDup (List.concat objects)
      /\ unoccupied occ omit (List.concat objects).
Proof.
  unfold check_spatial.
  rewrite <- bounds_check_ok, <- overlap_check_ok,
    <- (occupied_check_ok occ omit).
  unfold rbind.
  destruct (for_each (fun o => for_each _ o) objects) as [[]|e1];
    [|split; [discriminate|intros [H _]; discriminate]].
  destruct (for_each _ (Counter cell_eqb (List.concat objects))) as [[]|e2];
    [|split; [discriminate|intros (_ & H & _); discriminate]].
  tauto.
Qed.



Lemma check_connected_group_connected objects :
  check_connected_group objects = Ok tt -> connected (List.concat objects).
Proof.
  unfold check_connected_group, graph_nodes.
  set (G := distinct cell_eqb (List.concat objects)).
  assert (HG : forall x, In x G <-> In x (List.concat objects))
    by (intros x; apply distinct_In).
  assert (Hnd : NoDup G) by apply distinct_NoDup.
  destruct (Z.gtb_spec (len G) 1) as [Hlen|Hlen]; cbn [andb].
  - assert (Hne : G <> []).
    { intros E. rewrite E in Hlen. cbn in Hlen. lia. }
    destruct (is_connected G) eqn:E; cbn [negb]; [|discriminate].
    intros _. apply (connected_ext G); [exact HG|].
    apply (is_connected_spec G Hnd Hne), E.
  - intros _. apply (connected_ext G); [exact HG|].
    apply connected_small. unfold len in Hlen. lia.
Qed.


(** ** What a state change does to the goods and the counters *)

Lemma reading_value p r z : getattr p r = Ok (VInt z) -> reading p r = z.
Proof. unfold reading. intros ->. reflexivity. Qed.

Lemma reading_ledger p r :
  In r ledger_names -> getattr p r = Ok (VInt (reading p r)).
Proof.
  intros H. destruct (getattr_ledger_value p r H) as (z & Hz).
  rewrite (reading_value p r z Hz). exact Hz.
Qed.

Lemma reading_counter p r :
  In r counter_names -> getattr p r = Ok (VInt (reading p r)).
Proof.
  intros H. destruct (getattr_counter p r H) as (z & Hz).
  rewrite (reading_value p r z Hz). exact Hz.
Qed.

Lemma reading_settable p r :
  In r (ledger_names ++ counter_names) ->
  getattr p r = Ok (VInt (reading p r)).
Proof.
  intros H. apply in_app_or in H.
  destruct H; [apply reading_ledger|apply reading_counter]; assumption.
Qed.

Lemma setattr_getattr_counter p k z p' c :
  In c counter_names ->
  setattr p k z = Ok p' ->
  getattr p' c = if String.eqb c k then Ok (VInt z) else getattr p c.
Proof.
  intros Hc. unfold setattr.
  destruct (mem String.eqb k (property_names p)) eqn:Em; [discriminate|].
  repeat match goal with
         | |- (if String.eqb k ?n then _ else _) = _ -> _ =>
             let E := fresh "E" in
             destruct (String.eqb k n) eqn:E;
             [apply String.eqb_eq in E; subst k;
              intros H; inversion H; subst; clear H;
              simpl in Hc;
              repeat (destruct Hc as [<-|Hc]; [reflexivity|]);
              contradiction|]
         end.
  intros H; inversion H; subst; clear H.
  simpl in Hc.
  repeat (destruct Hc as [<-|Hc];
    [rewrite String.eqb_sym;
     match goal with E : String.eqb k ?n = false |- context [String.eqb k ?n]
       => rewrite E end; reflexivity|]).
  contradiction.
Qed.

Lemma setattr_reading p k z p' r :
  In r (ledger_names ++ counter_names) ->
  setattr p k z = Ok p' ->
  getattr p' r = if String.eqb r k then Ok (VInt z) else getattr p r.
Proof.
  intros H. apply in_app_or in H.
  destruct H; [apply setattr_getattr|apply setattr_getattr_counter];
    assumption.
Qed.

Lemma apply_delta_effect k v p p' r :
  In r (ledger_names ++ counter_names) ->
  apply_delta k v p = Done p' ->
  reading p' r = (if String.eqb r k then v else 0) + reading p r.
Proof.
  intros Hr. unfold apply_delta.
  destruct (getattr p k) as [[cur|]|e] eqn:Eg; cbn [rbind as_int];
    try discriminate.
  destruct (setattr p k (v + cur)) as [p1|e] eqn:Es; [|discriminate].
  intros H; inversion H; subst p1. apply reading_value.
  rewrite (setattr_reading _ _ _ _ r Hr Es).
  destruct (String.eqb r k) eqn:E.
  - apply String.eqb_eq in E. subst. rewrite (reading_value _ _ _ Eg).
    reflexivity.
  - rewrite Z.add_0_l. apply reading_settable, Hr.
Qed.

Lemma apply_change_effect chg : forall p p' r,
  In r (ledger_names ++ counter_names) ->
  apply_change chg p = Done p' ->
  reading p' r = reading p r + delta chg r.
Proof.
  induction chg as [|[k v] t IH]; intros p p' r Hr; cbn [apply_change delta].
  - intros H; inversion H. lia.
  - destruct (apply_delta k v p) as [p1|e p1] eqn:E; cbn [obind];
      [|discriminate].
    intros H. rewrite (IH _ _ r Hr H), (apply_delta_effect _ _ _ _ r Hr E).
    lia.
Qed.

Lemma change_state_done chg pre p p' :
  change_state chg pre p = Done p' ->
  exists pre',
    init_prereq chg pre = Ok pre'
    /\ check_prereq (mkPlayerStateChange chg pre' [] []) pre' p = Ok tt
    /\ apply_change chg p = Done p'.
Proof.
  unfold change_state, PlayerStateChange_init.
  destruct (init_prereq chg pre) as [pre'|e]; cbn [rbind]; [|discriminate].
  unfold check_and_apply. cbn [change prereq prereq_fns change_fns].
  destruct (check_prereq _ pre' p) as [[]|e] eqn:Ec; cbn [guard obind];
    [|discriminate].
  cbn [run_callbacks obind].
  destruct (apply_change chg p) as [p1|e p1]; cbn [obind]; [|discriminate].
  intros H; inversion H; subst. exists pre'. auto.
Qed.

(** The regions and the shape of two boards are the same. *)
Lemma setattr_regions p k z p' :
  setattr p k z = Ok p' ->
  shape p' = shape p /\ _rooms p' = _rooms p /\ _pastures p' = _pastures p
  /\ _stables p' = _stables p /\ _fields p' = _fields p
  /\ occupied_pasture p' = occupied_pasture p
  /\ house_type p' = house_type p.
Proof.
  unfold setattr.
  destruct (mem String.eqb k (property_names p)); [discriminate|].
  repeat match goal with
         | |- (if ?b then _ else _) = _ -> _ => destruct b
         end;
    intros H; inversion H; subst; repeat split.
Qed.

Lemma same_regions_refl p : same_regions p p.
Proof. repeat split. Qed.

Lemma same_regions_trans p q r :
  same_regions p q -> same_regions q r -> same_regions p r.
Proof.
  unfold same_regions.
  intros (A1 & A2 & A3 & A4 & A5 & A6 & A7) (B1 & B2 & B3 & B4 & B5 & B6 & B7).
  repeat split; congruence.
Qed.

Lemma apply_delta_regions k v p :
  same_regions p (board_after (apply_delta k v p)).
Proof.
  unfold apply_delta.
  destruct (x <- getattr p k;; as_int x) as [cur|e];
    cbn [board_after]; [|apply same_regions_refl].
  destruct (setattr p k (v + cur)) as [p1|e] eqn:Es;
    cbn [board_after]; [|apply same_regions_refl].
  apply (setattr_regions _ _ _ _ Es).
Qed.

Lemma apply_change_regions chg : forall p,
  same_regions p (board_after (apply_change chg p)).
Proof.
  induction chg as [|[k v] t IH]; intros p; cbn [apply_change].
  - apply same_regions_refl.
  - pose proof (apply_delta_regions k v p) as H.
    destruct (apply_delta k v p) as [p1|e p1]; cbn [obind board_after] in *;
      [|exact H].
    eapply same_regions_trans; [exact H|apply IH].
Qed.

Lemma change_state_regions chg pre p :
  same_regions p (board_after (change_state chg pre p)).
Proof.
  unfold change_state, PlayerStateChange_init.
  destruct (init_prereq chg pre) as [pre'|e]; cbn [rbind board_after];
    [|apply same_regions_refl].
  unfold check_and_apply. cbn [change prereq prereq_fns change_fns].
  destruct (check_prereq _ pre' p) as [[]|e];
    cbn [guard obind board_after]; [|apply same_regions_refl].
  cbn [run_callbacks obind].
  pose proof (apply_change_regions chg p) as H.
  destruct (apply_change chg p) as [p1|e p1]; cbn [obind board_after] in *;
    exact H.
Qed.

(** ** When a state change on goods goes through *)

Lemma dict_set_keys_iff k v (d : list (string * Z)) x :
  In x (map fst (dict_set String.eqb k v d)) <-> x = k \/ In x (map fst d).
Proof.
  induction d as [|[k' v'] t IH]; cbn [dict_set map fst In].
  - intuition congruence.
  - destruct (String.eqb_spec k k') as [E|E]; cbn [map fst In].
    + subst. intuition congruence.
    + rewrite IH. intuition congruence.
Qed.

Lemma dict_set_nodup k v (d : list (string * Z)) :
  NoDup (map fst d) -> NoDup (map fst (dict_set String.eqb k v d)).
Proof.
  induction d as [|[k' v'] t IH]; cbn [dict_set map fst]; intros H.
  - repeat constructor. intros [].
  - inversion H as [|? ? Hk Ht]; subst.
    destruct (String.eqb_spec k k') as [E|E]; cbn [map fst].
    + constructor; assumption.
    + constructor; [|apply IH, Ht].
      rewrite dict_set_keys_iff. intros [C|C]; [congruence|tauto].
Qed.

Lemma init_prereq_nodup chg : forall pre pre',
  init_prereq chg pre = Ok pre' ->
  NoDup (map fst pre) -> NoDup (map fst pre').
Proof.
  induction chg as [|[k v] t IH]; intros pre pre'; cbn [init_prereq].
  - intros H; inversion H; auto.
  - destruct (negb (mem String.eqb k RESOURCE_TYPES)); [discriminate|].
    destruct (v <? 0); intros H Hnd; [|eapply IH; eauto].
    eapply IH; [exact H|]. apply dict_set_nodup, Hnd.
Qed.

Lemma init_prereq_positive chg : forall pre pre' k,
  init_prereq chg pre = Ok pre' ->
  In k (map fst pre') -> In k (map fst pre) \/ 0 < taken chg k.
Proof.
  induction chg as [|[k0 v] t IH]; intros pre pre' k;
    cbn [init_prereq taken].
  - intros H; inversion H; auto.
  - destruct (negb (mem String.eqb k0 RESOURCE_TYPES)); [discriminate|].
    pose proof (taken_nonneg t k) as Ht.
    destruct (Z.ltb_spec v 0) as [L|L]; intros H Hin.
    + destruct (IH _ _ k H Hin) as [Hk|Hk].
      * apply dict_set_keys_iff in Hk. destruct Hk as [->|Hk]; [|auto].
        right. rewrite String.eqb_refl. cbn [andb]. lia.
      * right. destruct (String.eqb k k0); cbn [andb]; lia.
    + destruct (IH _ _ k H Hin) as [Hk|Hk]; [auto|].
      right. rewrite Bool.andb_false_r. lia.
Qed.

Lemma init_prereq_total chg : forall pre,
  Forall (fun kv => In (fst kv) RESOURCE_TYPES) chg ->
  exists pre', init_prereq chg pre = Ok pre'.
Proof.
  induction chg as [|[k v] t IH]; intros pre H; cbn [init_prereq].
  - eauto.
  - inversion H as [|? ? Hk Ht]; subst. cbn [fst] in Hk.
    apply (mem_In String.eqb string_eqb_eq) in Hk. rewrite Hk. cbn [negb].
    destruct (v <? 0); apply IH, Ht.
Qed.

Lemma ledger_resource_type k : In k ledger_names -> In k RESOURCE_TYPES.
Proof.
  intros H. simpl in H.
  repeat (destruct H as [<-|H]; [simpl; tauto|]). contradiction.
Qed.

Lemma check_prereq_complete sc l p :
  (forall k x, In (k, x) l ->
               exists cur, getattr p k = Ok (VInt cur) /\ x <= cur) ->
  check_prereq sc l p = Ok tt.
Proof.
  induction l as [|[k x] t IH]; intros H; cbn [check_prereq]; [reflexivity|].
  destruct (H k x (or_introl eq_refl)) as (cur & Hc & Hle).
  rewrite Hc. cbn [rbind as_int].
  destruct (Z.ltb_spec cur x); [lia|].
  apply IH. intros k' x' Hin. apply H. right. exact Hin.
Qed.

Lemma error_message_ok sc p :
  (forall k x, In (k, x) (prereq sc) -> exists v, getattr p k = Ok v) ->
  _error_message sc p = Ok tt.
Proof.
  intros H. unfold _error_message. apply for_each_ok.
  intros [k x] Hin. cbn [fst]. destruct (H k x Hin) as (v & ->). reflexivity.
Qed.

Lemma check_prereq_error sc l p e :
  (forall k x, In (k, x) l -> exists cur, getattr p k = Ok (VInt cur)) ->
  (forall k x, In (k, x) (prereq sc) -> exists v, getattr p k = Ok v) ->
  check_prereq sc l p = Err e -> e = AgricolaNotEnoughResources.
Proof.
  intros Hl Hm. induction l as [|[k x] t IH]; cbn [check_prereq];
    [discriminate|].
  destruct (Hl k x (or_introl eq_refl)) as (cur & Hc).
  rewrite Hc. cbn [rbind as_int].
  destruct (cur <? x).
  - rewrite (error_message_ok sc p Hm). cbn [rbind].
    intros H; inversion H; reflexivity.
  - apply IH. intros k' x' Hin. apply (Hl k' x'). right. exact Hin.
Qed.

Lemma taken_positive_In chg r :
  0 < taken chg r -> exists v, In (r, v) chg /\ v < 0.
Proof.
  induction chg as [|[k v] t IH]; cbn [taken]; [lia|].
  destruct (String.eqb_spec r k) as [E|E]; cbn [andb].
  - destruct (Z.ltb_spec v 0) as [L|L].
    + intros _. exists v. subst. split; [left; reflexivity|exact L].
    + intros H. destruct (IH H) as (w & Hw & Hlt). exists w.
      split; [right; exact Hw|exact Hlt].
  - intros H. destruct (IH H) as (w & Hw & Hlt). exists w.
    split; [right; exact Hw|exact Hlt].
Qed.

Lemma taken_absent chg r : ~ In r (map fst chg) -> taken chg r = 0.
Proof.
  induction chg as [|[k v] t IH]; cbn [taken map fst In]; [reflexivity|].
  intros H. rewrite IH by tauto.
  destruct (String.eqb_spec r k); [exfalso; apply H; left; congruence|].
  reflexivity.
Qed.

Lemma taken_nodup chg k v :
  NoDup (map fst chg) -> In (k, v) chg ->
  taken chg k = if v <? 0 then - v else 0.
Proof.
  induction chg as [|[k0 v0] t IH]; cbn [taken map fst In]; [tauto|].
  intros Hnd Hin. inversion Hnd as [|? ? Hk Ht]; subst.
  destruct Hin as [Hin|Hin].
  - inversion Hin; subst. rewrite String.eqb_refl, (taken_absent t k Hk).
    cbn [andb]. destruct (v <? 0); lia.
  - assert (k <> k0).
    { intros ->. apply Hk. apply (in_map fst) in Hin. exact Hin. }
    rewrite (IH Ht Hin). destruct (String.eqb_spec k k0); [contradiction|].
    reflexivity.
Qed.

Lemma delta_absent chg r : ~ In r (map fst chg) -> delta chg r = 0.
Proof.
  induction chg as [|[k v] t IH]; cbn [delta map fst In]; [reflexivity|].
  intros H. rewrite IH by tauto.
  destruct (String.eqb_spec r k); [exfalso; apply H; left; congruence|].
  reflexivity.
Qed.

Lemma delta_nodup chg k v :
  NoDup (map fst chg) -> In (k, v) chg -> delta chg k = v.
Proof.
  induction chg as [|[k0 v0] t IH]; cbn [delta map fst In]; [tauto|].
  intros Hnd Hin. inversion Hnd as [|? ? Hk Ht]; subst.
  destruct Hin as [Hin|Hin].
  - inversion Hin; subst. rewrite String.eqb_refl, (delta_absent t k Hk).
    lia.
  - assert (k <> k0).
    { intros ->. apply Hk. apply (in_map fst) in Hin. exact Hin. }
    rewrite (IH Ht Hin). destruct (String.eqb_spec k k0); [contradiction|].
    reflexivity.
Qed.

Lemma affordable_taken chg p :
  NoDup (map fst chg) ->
  (affordable chg p = true
   <-> forall r, 0 < taken chg r -> taken chg r <= reading p r).
Proof.
  intros Hnd. unfold affordable. rewrite forallb_forall. split.
  - intros H r Hr. destruct (taken_positive_In chg r Hr) as (v & Hin & Hv).
    rewrite (taken_nodup chg r v Hnd Hin).
    specialize (H _ Hin). cbn [fst snd] in H.
    destruct (Z.ltb_spec v 0); [|lia].
    apply Bool.orb_true_iff in H. destruct H as [H|H]; lia.
  - intros H [k v] Hin. cbn [fst snd].
    destruct (Z.leb_spec 0 v) as [L|L]; [reflexivity|]. cbn [orb].
    specialize (H k). rewrite (taken_nodup chg k v Hnd Hin) in H.
    destruct (Z.ltb_spec v 0); lia.
Qed.

Lemma settable_resource_type k :
  In k (ledger_names ++ counter_names) -> In k RESOURCE_TYPES.
Proof.
  intros H. simpl in H.
  repeat (destruct H as [<-|H]; [simpl; tauto|]). contradiction.
Qed.

(** A change of goods, animals and counters, with no precondition of its
    own, on a board. *)
Lemma settable_change_spec chg p :
  Forall (fun kv => In (fst kv) (ledger_names ++ counter_names)) chg ->
  if forallb (fun r => (taken chg r <=? 0) || (taken chg r <=? reading p r))
             (map fst chg)
  then exists p', change_state chg [] p = Done p'
                  /\ same_regions p p'
                  /\ forall r, In r (ledger_names ++ counter_names) ->
                               reading p' r = reading p r + delta chg r
  else change_state chg [] p = Raise AgricolaNotEnoughResources p.
Proof.
  intros Hk.
  assert (Hrt : Forall (fun kv => In (fst kv) RESOURCE_TYPES) chg).
  { eapply Forall_impl; [|exact Hk]. intros kv. apply settable_resource_type. }
  destruct (init_prereq_total chg [] Hrt) as (pre' & Hpre).
  assert (Hnd : NoDup (map fst pre')).
  { apply (init_prereq_nodup _ _ _ Hpre). constructor. }
  assert (Hentry : forall k x, In (k, x) pre' ->
            0 < taken chg k /\ x = taken chg k
            /\ In k (ledger_names ++ counter_names)).
  { intros k x Hin.
    assert (Hpos : 0 < taken chg k).
    { destruct (init_prereq_positive _ _ _ k Hpre) as [[]|H]; [|exact H].
      apply (in_map fst) in Hin. exact Hin. }
    split; [exact Hpos|]. split.
    - pose proof (init_prereq_amount _ _ _ k Hpre) as Ha.
      unfold amount in Ha. cbn [dict_get] in Ha.
      apply (lookup_In String.eqb string_eqb_eq _ _ _ Hnd) in Hin.
      rewrite Hin in Ha. lia.
    - destruct (taken_positive_In chg k Hpos) as (v & Hv & _).
      rewrite Forall_forall in Hk. apply (Hk _ Hv). }
  pose proof Hk as Hsettable.
  destruct (forallb _ (map fst chg)) eqn:Ea.
  - rewrite forallb_forall in Ea.
    destruct (apply_change_settable chg p Hsettable) as (p' & Hp').
    exists p'. split; [|split].
    + unfold change_state, PlayerStateChange_init. rewrite Hpre.
      cbn [rbind]. unfold check_and_apply.
      cbn [change prereq prereq_fns change_fns].
      rewrite check_prereq_complete.
      * cbn [guard obind run_callbacks]. rewrite Hp'. reflexivity.
      * intros k x Hin. destruct (Hentry k x Hin) as (Hpos & -> & Hl).
        exists (reading p k). split; [apply reading_settable, Hl|].
        destruct (taken_positive_In chg k Hpos) as (v & Hv & _).
        apply (in_map fst) in Hv. specialize (Ea _ Hv). cbn [fst] in Ea.
        apply Bool.orb_true_iff in Ea. rewrite !Z.leb_le in Ea. lia.
    + pose proof (apply_change_regions chg p) as H. rewrite Hp' in H.
      exact H.
    + intros r Hr. apply (apply_change_effect chg p p' r Hr Hp').
  - unfold change_state, PlayerStateChange_init. rewrite Hpre.
    cbn [rbind]. unfold check_and_apply.
    cbn [change prereq prereq_fns change_fns].
    destruct (check_prereq _ pre' p) as [[]|e] eqn:Ec; cbn [guard obind].
    + exfalso. apply Bool.not_true_iff_false in Ea. apply Ea.
      apply forallb_forall. intros r Hr.
      destruct (Z.leb_spec (taken chg r) 0) as [L|L]; [reflexivity|].
      cbn [orb]. apply Z.leb_le.
      pose proof (init_prereq_has _ r _ _ Hpre L) as Hhas.
      destruct (dict_get String.eqb pre' r) as [x|] eqn:Ex; [|contradiction].
      apply dict_get_In in Ex.
      destruct (check_prereq_ok _ _ _ Ec r x Ex) as (cur & Hcur & Hle).
      destruct (Hentry r x Ex) as (_ & -> & _).
      rewrite (reading_value _ _ _ Hcur). exact Hle.
    + f_equal. eapply check_prereq_error; [| |exact Ec].
      * intros k x Hin. destruct (Hentry k x Hin) as (_ & _ & Hl).
        exists (reading p k). apply reading_settable, Hl.
      * cbn [prereq]. intros k x Hin.
        destruct (Hentry k x Hin) as (_ & _ & Hl).
        exists (VInt (reading p k)). apply reading_settable, Hl.
Qed.

(** A change of goods and animals only. *)
Lemma goods_change_spec chg p :
  Forall (fun kv => In (fst kv) ledger_names) chg ->
  if forallb (fun r => (taken chg r <=? 0) || (taken chg r <=? reading p r))
             (map fst chg)
  then exists p', change_state chg [] p = Done p'
                  /\ same_regions p p'
                  /\ forall r, In r (ledger_names ++ counter_names) ->
                               reading p' r = reading p r + delta chg r
  else change_state chg [] p = Raise AgricolaNotEnoughResources p.
Proof.
  intros Hk. apply settable_change_spec.
  eapply Forall_impl; [|exact Hk]. intros kv H. apply in_or_app. auto.
Qed.

Lemma affordable_keys chg p :
  NoDup (map fst chg) ->
  forallb (fun r => (taken chg r <=? 0) || (taken chg r <=? reading p r))
          (map fst chg)
  = affordable chg p.
Proof.
  intros Hnd. apply Bool.eq_iff_eq_true.
  rewrite (affordable_taken chg p Hnd), forallb_forall. split.
  - intros H r Hr. destruct (taken_positive_In chg r Hr) as (v & Hin & _).
    apply (in_map fst) in Hin. specialize (H _ Hin). cbn [fst] in H.
    apply Bool.orb_true_iff in H. rewrite !Z.leb_le in H. lia.
  - intros H r _. destruct (Z.leb_spec (taken chg r) 0); [reflexivity|].
    cbn [orb]. apply Z.leb_le, H. lia.
Qed.

(** X10: a state change on goods and animals, given as a dict with no
    precondition of its own, goes through exactly when the board has at
    least what each negative delta takes; every reading of a good, an
    animal or a counter then changes by its delta, and the regions stay
    as they are.  Otherwise the call raises
    [AgricolaNotEnoughResources] and the board is untouched. *)
Theorem goods_change_decided :
  forall (chg : list (string * Z)) (p : Player),
    NoDup (map fst chg) ->
    Forall (fun kv => In (fst kv) ledger_names) chg ->
    if affordable chg p
    then exists p', change_state chg [] p = Done p'
                    /\ same_regions p p'
                    /\ forall r, In r (ledger_names ++ counter_names) ->
                                 reading p' r = reading p r + delta chg r
    else change_state chg [] p = Raise AgricolaNotEnoughResources p.
Proof.
  intros chg p Hnd Hk. rewrite <- (affordable_keys chg p Hnd).
  apply goods_change_spec, Hk.
Qed.

Lemma goods_change_decided_witness :
  exists p', change_state [("wood", 3); ("food", -1)] []
               (board_with (mkResources 2 0 0 0 0 0 0)) = Done p'
             /\ reading p' "food" = 1 /\ reading p' "wood" = 3.
Proof.
  assert (Hnd : NoDup (map fst [("wood", 3); ("food", -1)])).
  { cbn. repeat constructor; cbn; intuition discriminate. }
  assert (Hk : Forall (fun kv : string * Z => In (fst kv) ledger_names)
                      [("wood", 3); ("food", -1)]).
  { repeat constructor; cbn; tauto. }
  pose proof (goods_change_decided _ (board_with (mkResources 2 0 0 0 0 0 0))
                Hnd Hk) as H.
  cbn in H. destruct H as (p' & H1 & _ & H3). exists p'.
  split; [exact H1|]. split.
  - rewrite (H3 "food") by (cbn; tauto). reflexivity.
  - rewrite (H3 "wood") by (cbn; tauto). reflexivity.
Defined.

(** ** Adding resources *)





(** ** Cooking *)

Lemma dict_set_fresh k v (d : list (string * Z)) :
  ~ In k (map fst d) -> dict_set String.eqb k v d = d ++ [(k, v)].
Proof.
  induction d as [|[k' v'] t IH]; cbn [dict_set map fst In app];
    [reflexivity|].
  intros H. destruct (String.eqb_spec k k'); [exfalso; apply H; auto|].
  rewrite IH by tauto. reflexivity.
Qed.

Lemma cook_change_spec rates counts : forall f acc,
  NoDup (map fst counts) ->
  (forall k, In k (map fst counts) -> ~ In k (map fst acc)) ->
  cook_change rates counts (("food", f) :: acc)
  = if forallb (fun kv => is_some (cooking_rates_get rates (fst kv))) counts
    then Ok (("food", f + sum (map (rate_of rates) counts))
             :: acc ++ map (fun kv => (fst kv, - snd kv)) counts)
    else Err KeyError.
Proof.
  induction counts as [|[r c] t IH]; intros f acc Hnd Hdis;
    cbn [cook_change forallb fst].
  - cbn [map sum fold_right]. rewrite app_nil_r. do 3 f_equal. lia.
  - inversion Hnd as [|? ? Hr Ht]; subst.
    destruct (cooking_rates_get rates r) as [rate|] eqn:Er; cbn [is_some andb].
    + assert (Hf : r <> "food").
      { intros ->. discriminate Er. }
      cbn [dict_set]. destruct (String.eqb_spec r "food"); [contradiction|].
      cbn [dict_get]. rewrite String.eqb_refl.
      rewrite (dict_set_fresh r (- c) acc) by (apply (Hdis r); cbn; auto).
      cbn [dict_set]. rewrite String.eqb_refl.
      rewrite IH.
      * destruct (forallb _ t); [|reflexivity].
        rewrite <- app_assoc. cbn [app map fst snd].
        do 3 f_equal. unfold rate_of at 2. cbn [fst]. rewrite Er.
        unfold sum. cbn [fold_right]. lia.
      * exact Ht.
      * intros k Hk. rewrite map_app, in_app_iff. cbn [map fst In].
        intros [C|[C|[]]]; [apply (Hdis k); [cbn; auto|exact C]|].
        subst. contradiction.
    + destruct (dict_get String.eqb _ "food"); reflexivity.
Qed.

Lemma cookable_keys rates counts :
  forallb (fun kv => is_some (cooking_rates_get rates (fst kv))) counts = true ->
  Forall (fun kv => In (fst kv) ledger_names) (cooking_change rates counts)
  /\ ~ In "food" (map fst counts).
Proof.
  rewrite forallb_forall. intros H. split.
  - unfold cooking_change. constructor; [cbn; tauto|].
    apply Forall_forall. intros kv Hin. apply in_map_iff in Hin.
    destruct Hin as ([k v] & <- & Hin). cbn [fst].
    specialize (H _ Hin). cbn [fst] in H.
    destruct (cooking_rates_get rates k) as [z|] eqn:E; [|discriminate].
    apply (cooking_rates_key _ _ _ E).
  - intros Hin. apply in_map_iff in Hin. destruct Hin as ([k v] & E & Hin).
    cbn [fst] in E. subst k. specialize (H _ Hin). discriminate H.
Qed.

(** X12: [cook_food] with a kind that has no cooking rate raises
    [KeyError].  Otherwise it takes the given count of every kind and
    adds to the food, for every kind cooked, its rate once, whatever the
    count; it goes through exactly when the board has what is taken, and
    when it raises the board is untouched. *)
Theorem cook_food_spec :
  forall (counts : list (string * Z)) (p : Player),
    NoDup (map fst counts) ->
    if negb (forallb (fun kv => is_some (cooking_rates_get (cooking_rates p)
                                           (fst kv))) counts)
    then cook_food counts p = Raise KeyError p
    else if affordable (cooking_change (cooking_rates p) counts) p
    then exists p',
           cook_food counts p = Done p'
           /\ same_regions p p'
           /\ forall r, In r (ledger_names ++ counter_names) ->
                reading p' r
                = reading p r + delta (cooking_change (cooking_rates p) counts) r
    else cook_food counts p = Raise AgricolaNotEnoughResources p.
Proof.
  intros counts p Hnd. unfold cook_food.
  rewrite (cook_change_spec _ counts 0 [] Hnd) by (intros k _ []).
  destruct (forallb _ counts) eqn:E; cbn [negb]; [|reflexivity].
  destruct (cookable_keys _ _ E) as [Hk Hfood].
  cbn [app]. rewrite Z.add_0_l.
  change (("food", sum (map (rate_of (cooking_rates p)) counts))
          :: map (fun kv => (fst kv, - snd kv)) counts)
    with (cooking_change (cooking_rates p) counts).
  assert (Hnd' : NoDup (map fst (cooking_change (cooking_rates p) counts))).
  { unfold cooking_change. cbn [map fst]. rewrite map_map. cbn [fst].
    constructor; assumption. }
  pose proof (goods_change_spec _ p Hk) as H.
  rewrite (affordable_keys _ p Hnd') in H. exact H.
Qed.

Lemma cook_food_spec_witness :
  exists p', cook_food [("grain", 3)]
               (board_with (mkResources 0 0 0 0 0 3 0)) = Done p'
             /\ reading p' "grain" = 0 /\ reading p' "food" = 1.
Proof.
  assert (Hnd : NoDup (map fst [("grain", 3)])).
  { cbn. repeat constructor. intros []. }
  pose proof (cook_food_spec _ (board_with (mkResources 0 0 0 0 0 3 0)) Hnd)
    as H.
  cbn in H. destruct H as (p' & H1 & _ & H3). exists p'.
  split; [exact H1|]. split.
  - rewrite (H3 "grain") by (cbn; tauto). reflexivity.
  - rewrite (H3 "food") by (cbn; tauto). reflexivity.
Defined.

(** ** Placement: what the operations keep *)

Lemma concat_singletons {A} (f : A -> cell) l :
  List.concat (map (fun x => [f x]) l) = map f l.
Proof.
  induction l as [|x t IH]; cbn [map List.concat app]; [reflexivity|].
  rewrite IH. reflexivity.
Qed.

Lemma flat_map_singletons {A} (f : A -> cell) l :
  flat_map (fun x => [f x]) l = map f l.
Proof.
  induction l as [|x t IH]; cbn [flat_map map app]; [reflexivity|].
  rewrite IH. reflexivity.
Qed.

Lemma room_cells_spaces l : List.concat (room_cells l) = map room_space l.
Proof. apply concat_singletons. Qed.

Lemma field_cells_spaces l : List.concat (field_cells l) = map field_space l.
Proof. apply concat_singletons. Qed.

Lemma pasture_cells_spaces l :
  List.concat (pasture_cells l) = flat_map pasture_spaces l.
Proof. unfold pasture_cells. symmetry. apply flat_map_concat_map. Qed.

Lemma map_room_space cells : map room_space (map mkRoom cells) = cells.
Proof.
  rewrite map_map. cbn [room_space]. apply map_id.
Qed.

(** What an accepted placement says about the board. *)
Lemma placed_on_board p objects omit :
  _check_spatial_objects p objects omit = Ok tt ->
  Forall (in_bounds (shape p)) (List.concat objects)
  /\ NoDup (List.concat objects)
  /\ (~ In "room" omit ->
      forall s, In s (List.concat objects) -> ~ In s (room_spaces p))
  /\ (~ In "stable" omit ->
      forall s, In s (List.concat objects) -> ~ In s (stable_spaces p))
  /\ (~ In "field" omit ->
      forall s, In s (List.concat objects) -> ~ In s (field_spaces p)).
Proof.
  unfold _check_spatial_objects. intros H.
  apply check_spatial_ok in H. destruct H as (H1 & H2 & H3).
  split; [exact H1|]. split; [exact H2|].
  unfold unoccupied, occupied in H3.
  unfold room_spaces, stable_spaces, field_spaces.
  rewrite !flat_map_singletons.
  split; [|split]; intros Ho s Hs.
  - rewrite <- room_cells_spaces.
    apply (H3 "room" _ s); [cbn; tauto|exact Ho|exact Hs].
  - rewrite <- concat_stable_cells.
    apply (H3 "stable" _ s); [cbn; tauto|exact Ho|exact Hs].
  - rewrite <- field_cells_spaces.
    apply (H3 "field" _ s); [cbn; tauto|exact Ho|exact Hs].
Qed.

Lemma placement_ok_ext p p' :
  shape p' = shape p -> room_spaces p' = room_spaces p ->
  field_spaces p' = field_spaces p -> stable_spaces p' = stable_spaces p ->
  Player_pasture_spaces p' = Player_pasture_spaces p ->
  placement_ok p -> placement_ok p'.
Proof.
  unfold placement_ok. intros -> -> -> -> ->. tauto.
Qed.

Lemma placement_ok_regions p p' :
  same_regions p p' -> placement_ok p -> placement_ok p'.
Proof.
  intros (H1 & H2 & H3 & H4 & H5 & _). apply placement_ok_ext;
    unfold room_spaces, field_spaces, stable_spaces, Player_pasture_spaces;
    congruence.
Qed.

Lemma Forall_app_intro {A} (P : A -> Prop) l l' :
  Forall P l -> Forall P l' -> Forall P (l ++ l').
Proof. intros H H'. apply Forall_app. split; assumption. Qed.

Lemma disjoint_app_l (a b c : list cell) :
  (forall s, In s a -> ~ In s c) -> (forall s, In s b -> ~ In s c) ->
  forall s, In s (a ++ b) -> ~ In s c.
Proof.
  intros H1 H2 s Hs. apply in_app_or in Hs. destruct Hs; auto.
Qed.

Lemma disjoint_app_r (a b c : list cell) :
  (forall s, In s c -> ~ In s a) -> (forall s, In s b -> ~ In s c) ->
  forall s, In s c -> ~ In s (a ++ b).
Proof.
  intros H1 H2 s Hs C. apply in_app_or in C. destruct C as [C|C].
  - exact (H1 s Hs C).
  - exact (H2 s C Hs).
Qed.

Lemma NoDup_app_intro (a b : list cell) :
  NoDup a -> NoDup b -> (forall s, In s b -> ~ In s a) -> NoDup (a ++ b).
Proof.
  intros Ha Hb H. apply NoDup_app; [exact Ha|exact Hb|].
  intros s Hs C. exact (H s C Hs).
Qed.

Lemma build_rooms_done spaces p p' :
  build_rooms spaces p = Done p' ->
  exists p1,
    _check_spatial_objects p (room_cells (map mkRoom spaces)) [] = Ok tt
    /\ check_connected_group (room_cells (_rooms p ++ map mkRoom spaces))
       = Ok tt
    /\ change_state
         (dict_set String.eqb "reed" (-2 * len spaces)
            [(house_type p, - room_cost p * len spaces)]) [] p = Done p1
    /\ p' = set_rooms p1 (_rooms p1 ++ map mkRoom spaces).
Proof.
  unfold build_rooms.
  destruct (_check_spatial_objects p _ []) as [[]|e] eqn:E1;
    cbn [guard obind]; [|discriminate].
  destruct (check_connected_group _) as [[]|e] eqn:E2; cbn [guard obind];
    [|discriminate].
  destruct (change_state _ [] p) as [p1|e p1] eqn:E3; cbn [obind];
    [|discriminate].
  intros H; inversion H. exists p1. repeat split; assumption.
Qed.

Lemma build_stables_done spaces cost p p' :
  build_stables spaces cost p = Done p' ->
  exists cells p1,
    as_space_list spaces = Ok cells
    /\ _check_spatial_objects p (stable_cells (map mkStable cells))
         ["pasture"] = Ok tt
    /\ check_connected_group
         (stable_cells (_stables p ++ map mkStable cells)) = Ok tt
    /\ change_state [("wood", - cost * len cells);
                     ("stables_avail", - len cells)] [] p = Done p1
    /\ p' = set_stables p1 (_stables p1 ++ map mkStable cells).
Proof.
  unfold build_stables.
  destruct (as_space_list spaces) as [cells|e] eqn:E0; [|discriminate].
  destruct (_check_spatial_objects p _ _) as [[]|e] eqn:E1;
    cbn [guard obind]; [|discriminate].
  destruct (check_connected_group _) as [[]|e] eqn:E2; cbn [guard obind];
    [|discriminate].
  destruct (change_state _ [] p) as [p1|e p1] eqn:E3; cbn [obind];
    [|discriminate].
  intros H; inversion H. exists cells, p1. repeat split; assumption.
Qed.

Lemma build_pastures_done args p p' :
  build_pastures args p = Done p' ->
  exists pastures p1,
    map_result Pasture_init args = Ok pastures
    /\ for_each (fun x => _check_spatial_objects p [pasture_spaces x]
                            ["stable"]) pastures = Ok tt
    /\ check_connected_group (pasture_cells (_pastures p ++ pastures))
       = Ok tt
    /\ change_state
         [("wood", - len (set_minus (fences_for_pasture_group pastures)
                            (fences_for_pasture_group (_pastures p))));
          ("fences_avail",
            - len (set_minus (fences_for_pasture_group pastures)
                     (fences_for_pasture_group (_pastures p))))] [] p
       = Done p1
    /\ p' = set_pastures p1 (_pastures p1 ++ pastures).
Proof.
  unfold build_pastures.
  destruct (map_result Pasture_init args) as [pastures|e] eqn:E0;
    [|discriminate].
  destruct (for_each _ pastures) as [[]|e] eqn:E1; cbn [guard obind];
    [|discriminate].
  destruct (check_connected_group _) as [[]|e] eqn:E2; cbn [guard obind];
    [|discriminate].
  destruct (change_state _ [] p) as [p1|e p1] eqn:E3; cbn [obind];
    [|discriminate].
  intros H; inversion H. exists pastures, p1. repeat split; assumption.
Qed.

Lemma empty_fields_init l :
  map_result (fun s => Field_init s 0 None) l
  = Ok (map (fun s => mkField s 0 None) l).
Proof.
  induction l as [|s t IH]; cbn [map_result map]; [reflexivity|].
  rewrite IH. reflexivity.
Qed.

Lemma plow_fields_done spaces p p' :
  plow_fields spaces p = Done p' ->
  exists cells,
    as_space_list spaces = Ok cells
    /\ _check_spatial_objects p
         (field_cells (map (fun s => mkField s 0 None) cells)) [] = Ok tt
    /\ check_connected_group
         (field_cells (_fields p ++ map (fun s => mkField s 0 None) cells))
       = Ok tt
    /\ p' = set_fields p (_fields p ++ map (fun s => mkField s 0 None) cells).
Proof.
  unfold plow_fields.
  destruct (as_space_list spaces) as [cells|e] eqn:E0; cbn [rbind];
    [|discriminate].
  rewrite empty_fields_init.
  destruct (_check_spatial_objects p _ _) as [[]|e] eqn:E1;
    cbn [guard obind]; [|discriminate].
  destruct (check_connected_group _) as [[]|e] eqn:E2; cbn [guard obind];
    [|discriminate].
  intros H; inversion H. exists cells. repeat split; assumption.
Qed.

Lemma list_set_map {A B} (g : A -> B) l : forall i x y,
  nth_error l i = Some y -> g x = g y ->
  map g (list_set l i x) = map g l.
Proof.
  induction l as [|z t IH]; intros [|i] x y; cbn [nth_error list_set map];
    try discriminate.
  - intros H E. inversion H; subst. rewrite E. reflexivity.
  - intros H E. rewrite (IH i x y H E). reflexivity.
Qed.

Lemma list_set_Forall {A} (P : A -> Prop) l : forall i x,
  Forall P l -> P x -> Forall P (list_set l i x).
Proof.
  induction l as [|z t IH]; intros [|i] x H Hx; cbn [list_set];
    try exact H; inversion H; subst; constructor; auto.
Qed.

Lemma plant_loop_fields plant :
  (forall f f', plant f = Ok f' ->
                Field_ok f' /\ field_space f' = field_space f) ->
  forall n fs pos,
    map field_space (snd (fst (plant_loop plant n fs pos)))
    = map field_space fs
    /\ (Forall Field_ok fs ->
        Forall Field_ok (snd (fst (plant_loop plant n fs pos)))).
Proof.
  intros Hp. induction n as [|n IH]; intros fs pos; cbn [plant_loop].
  - cbn [fst snd]. auto.
  - destruct (gen_next fs pos) as [i|]; [|cbn [fst snd]; auto].
    destruct (nth_error fs i) as [f|] eqn:En; [|cbn [fst snd]; auto].
    destruct (plant f) as [f'|e] eqn:Ef; [|cbn [fst snd]; auto].
    destruct (Hp f f' Ef) as [Hok Hsp].
    destruct (IH (list_set fs i f') (S i)) as [H1 H2].
    split.
    + rewrite H1. apply (list_set_map field_space fs i f' f En Hsp).
    + intros H. apply H2. apply list_set_Forall; assumption.
Qed.

Lemma plant_grain_keeps f f' :
  plant_grain f = Ok f' -> Field_ok f' /\ field_space f' = field_space f.
Proof.
  intros H. split; [apply (plant_grain_ok f f' H)|].
  unfold plant_grain in H. destruct (negb (is_empty f)); [discriminate|].
  inversion H. reflexivity.
Qed.

Lemma plant_veg_keeps f f' :
  plant_veg f = Ok f' -> Field_ok f' /\ field_space f' = field_space f.
Proof.
  intros H. split; [apply (plant_veg_ok f f' H)|].
  unfold plant_veg in H. destruct (negb (is_empty f)); [discriminate|].
  inversion H. reflexivity.
Qed.

(** Planting changes what the fields hold, and nothing else. *)
Lemma plant_all_fields ng nv p :
  exists fs,
    board_after (plant_all ng nv p) = set_fields p fs
    /\ map field_space fs = map field_space (_fields p)
    /\ (Forall Field_ok (_fields p) -> Forall Field_ok fs).
Proof.
  unfold plant_all.
  destruct (plant_loop_fields plant_grain plant_grain_keeps
              (Z.to_nat ng) (_fields p) O) as [G1 G2].
  destruct (plant_loop plant_grain (Z.to_nat ng) (_fields p) O)
    as [[[e|] fs] pos]; cbn [fst snd] in G1, G2.
  - exists fs. auto.
  - destruct (plant_loop_fields plant_veg plant_veg_keeps
                (Z.to_nat nv) fs pos) as [V1 V2].
    destruct (plant_loop plant_veg (Z.to_nat nv) fs pos)
      as [[[e|] fs'] pos']; cbn [fst snd] in V1, V2; exists fs';
      (split; [reflexivity|]); (split; [congruence|auto]).
Qed.

Lemma bake_bread_board n p : board_after (bake_bread n p) = p.
Proof. reflexivity. Qed.

Lemma add_animals_regions check kwargs : forall p,
  same_regions p (board_after (add_animals_with check kwargs p))
  /\ forall c, In c counter_names ->
       reading (board_after (add_animals_with check kwargs p)) c = reading p c.
Proof.
  induction kwargs as [|[a n] t IH]; intros p; cbn [add_animals_with].
  - split; [apply same_regions_refl|reflexivity].
  - destruct (negb (is_some (animals_get (animals p) a)));
      [split; [apply same_regions_refl|reflexivity]|].
    destruct (check p _) as [[]|e];
      [|split; [apply same_regions_refl|reflexivity]].
    destruct (IH (set_animals p (animals_add (animals p) a n))) as [H1 H2].
    split.
    + eapply same_regions_trans; [|exact H1]. repeat split.
    + intros c Hc. rewrite (H2 c Hc). simpl in Hc.
      repeat (destruct Hc as [<-|Hc]; [reflexivity|]). contradiction.
Qed.

Lemma add_people_regions n p : same_regions p (board_after (add_people n p)).
Proof.
  unfold add_people. destruct (people_avail p <? n); repeat split.
Qed.

Lemma cook_food_regions counts p :
  same_regions p (board_after (cook_food counts p)).
Proof.
  unfold cook_food. destruct (cook_change _ counts _) as [chg|e].
  - apply change_state_regions.
  - apply same_regions_refl.
Qed.

Lemma layout_add_rooms sh R F S P new :
  layout_ok sh R F S P ->
  Forall (in_bounds sh) new -> NoDup new ->
  (forall s, In s new -> ~ In s R) -> (forall s, In s new -> ~ In s F) ->
  (forall s, In s new -> ~ In s S) -> connected (R ++ new) ->
  layout_ok sh (R ++ new) F S P.
Proof.
  intros ((N1 & N2 & N3) & (D1 & D2 & D3) & (B1 & B2 & B3 & B4)
          & (C1 & C2 & C3)) Hb Hn HR HF HS Hc.
  repeat split; try assumption.
  - apply NoDup_app_intro; assumption.
  - apply disjoint_app_l; assumption.
  - apply disjoint_app_l; assumption.
  - apply Forall_app_intro; assumption.
Qed.

Lemma layout_add_fields sh R F S P new :
  layout_ok sh R F S P ->
  Forall (in_bounds sh) new -> NoDup new ->
  (forall s, In s new -> ~ In s R) -> (forall s, In s new -> ~ In s F) ->
  (forall s, In s new -> ~ In s S) -> connected (F ++ new) ->
  layout_ok sh R (F ++ new) S P.
Proof.
  intros ((N1 & N2 & N3) & (D1 & D2 & D3) & (B1 & B2 & B3 & B4)
          & (C1 & C2 & C3)) Hb Hn HR HF HS Hc.
  repeat split; try assumption.
  - apply NoDup_app_intro; assumption.
  - apply disjoint_app_r; assumption.
  - apply disjoint_app_l; assumption.
  - apply Forall_app_intro; assumption.
Qed.

Lemma layout_add_stables sh R F S P new :
  layout_ok sh R F S P ->
  Forall (in_bounds sh) new -> NoDup new ->
  (forall s, In s new -> ~ In s R) -> (forall s, In s new -> ~ In s F) ->
  (forall s, In s new -> ~ In s S) ->
  layout_ok sh R F (S ++ new) P.
Proof.
  intros ((N1 & N2 & N3) & (D1 & D2 & D3) & (B1 & B2 & B3 & B4)
          & (C1 & C2 & C3)) Hb Hn HR HF HS.
  repeat split; try assumption.
  - apply NoDup_app_intro; assumption.
  - apply disjoint_app_r; assumption.
  - apply disjoint_app_r; assumption.
  - apply Forall_app_intro; assumption.
Qed.

Lemma layout_add_pastures sh R F S P new :
  layout_ok sh R F S P ->
  Forall (in_bounds sh) new -> connected (P ++ new) ->
  layout_ok sh R F S (P ++ new).
Proof.
  intros ((N1 & N2 & N3) & (D1 & D2 & D3) & (B1 & B2 & B3 & B4)
          & (C1 & C2 & C3)) Hb Hc.
  repeat split; try assumption.
  apply Forall_app_intro; assumption.
Qed.

Ltac regions_of E H :=
  match type of E with
  | change_state ?c ?q ?p = _ =>
      pose proof (change_state_regions c q p) as H;
      rewrite E in H; cbn [board_after] in H
  end.

Lemma placement_build_rooms spaces p :
  placement_ok p -> placement_ok (board_after (build_rooms spaces p)).
Proof.
  intros Hok. destruct (build_rooms spaces p) as [p'|e p'] eqn:E;
    cbn [board_after].
  - apply build_rooms_done in E.
    destruct E as (p1 & E1 & E2 & E3 & ->).
    regions_of E3 Hreg.
    destruct Hreg as (H1 & H2 & H3 & H4 & H5 & _).
    apply placed_on_board in E1.
    rewrite room_cells_spaces, map_room_space in E1.
    destruct E1 as (B & N & DR & DS & DF).
    apply check_connected_group_connected in E2.
    rewrite room_cells_spaces, map_app, map_room_space in E2.
    unfold placement_ok, room_spaces, field_spaces, stable_spaces,
      Player_pasture_spaces.
    cbn [shape _rooms _fields _stables _pastures set_rooms].
    rewrite H1, H2, H3, H4, H5, flat_map_app.
    rewrite (flat_map_singletons room_space (map mkRoom spaces)).
    rewrite map_room_space.
    unfold room_spaces in DR. rewrite flat_map_singletons in DR.
    rewrite (flat_map_singletons room_space (_rooms p)).
    unfold placement_ok, room_spaces in Hok.
    rewrite flat_map_singletons in Hok.
    exact (layout_add_rooms _ _ _ _ _ _ Hok B N (DR (fun x => x))
             (DF (fun x => x)) (DS (fun x => x)) E2).
  - apply build_rooms_raise in E. subst. exact Hok.
Qed.

Lemma placement_build_stables spaces cost p :
  placement_ok p -> placement_ok (board_after (build_stables spaces cost p)).
Proof.
  intros Hok. destruct (build_stables spaces cost p) as [p'|e p'] eqn:E;
    cbn [board_after].
  - apply build_stables_done in E.
    destruct E as (cells & p1 & _ & E1 & _ & E3 & ->).
    regions_of E3 Hreg.
    destruct Hreg as (H1 & H2 & H3 & H4 & H5 & _).
    apply placed_on_board in E1.
    rewrite concat_stable_cells, map_stable_space in E1.
    destruct E1 as (B & N & DR & DS & DF).
    unfold placement_ok, room_spaces, field_spaces, stable_spaces,
      Player_pasture_spaces.
    cbn [shape _rooms _fields _stables _pastures set_stables].
    rewrite H1, H2, H3, H4, H5, flat_map_app.
    rewrite (flat_map_singletons stable_space (map mkStable cells)).
    rewrite map_stable_space.
    assert (Hr : ~ In "room" ["pasture"]) by (cbn; intuition discriminate).
    assert (Hs : ~ In "stable" ["pasture"]) by (cbn; intuition discriminate).
    assert (Hf : ~ In "field" ["pasture"]) by (cbn; intuition discriminate).
    exact (layout_add_stables _ _ _ _ _ _ Hok B N (DR Hr) (DF Hf) (DS Hs)).
  - apply build_stables_raise in E. subst. exact Hok.
Qed.

Lemma map_field_space cells :
  map field_space (map (fun s => mkField s 0 None) cells) = cells.
Proof. rewrite map_map. cbn [field_space]. apply map_id. Qed.

Lemma placement_plow_fields spaces p :
  placement_ok p -> placement_ok (board_after (plow_fields spaces p)).
Proof.
  intros Hok. destruct (plow_fields spaces p) as [p'|e p'] eqn:E;
    cbn [board_after].
  - apply plow_fields_done in E.
    destruct E as (cells & _ & E1 & E2 & ->).
    apply placed_on_board in E1.
    rewrite field_cells_spaces, map_field_space in E1.
    destruct E1 as (B & N & DR & DS & DF).
    apply check_connected_group_connected in E2.
    rewrite field_cells_spaces, map_app, map_field_space in E2.
    unfold placement_ok, room_spaces, field_spaces, stable_spaces,
      Player_pasture_spaces.
    cbn [shape _rooms _fields _stables _pastures set_fields].
    rewrite flat_map_app.
    rewrite (flat_map_singletons field_space (map _ cells)).
    rewrite map_field_space.
    rewrite (flat_map_singletons field_space (_fields p)).
    unfold placement_ok, field_spaces in Hok.
    rewrite (flat_map_singletons field_space) in Hok.
    unfold field_spaces in DF.
    rewrite (flat_map_singletons field_space) in DF.
    exact (layout_add_fields _ _ _ _ _ _ Hok B N (DR (fun x => x))
             (DF (fun x => x)) (DS (fun x => x)) E2).
  - apply plow_fields_raise in E. subst. exact Hok.
Qed.

Lemma pastures_in_bounds p pastures :
  for_each (fun x => _check_spatial_objects p [pasture_spaces x] ["stable"])
           pastures = Ok tt ->
  Forall (in_bounds (shape p)) (flat_map pasture_spaces pastures).
Proof.
  intros H. rewrite for_each_ok in H. apply Forall_forall.
  intros s Hs. apply in_flat_map in Hs. destruct Hs as (x & Hx & Hs).
  specialize (H x Hx). apply placed_on_board in H.
  destruct H as (B & _). cbn [List.concat] in B. rewrite app_nil_r in B.
  rewrite Forall_forall in B. apply B, Hs.
Qed.

Lemma placement_build_pastures args p :
  placement_ok p -> placement_ok (board_after (build_pastures args p)).
Proof.
  intros Hok. destruct (build_pastures args p) as [p'|e p'] eqn:E;
    cbn [board_after].
  - apply build_pastures_done in E.
    destruct E as (pastures & p1 & _ & E1 & E2 & E3 & ->).
    regions_of E3 Hreg.
    destruct Hreg as (H1 & H2 & H3 & H4 & H5 & _).
    apply pastures_in_bounds in E1.
    apply check_connected_group_connected in E2.
    rewrite pasture_cells_spaces, flat_map_app in E2.
    unfold placement_ok, room_spaces, field_spaces, stable_spaces,
      Player_pasture_spaces.
    cbn [shape _rooms _fields _stables _pastures set_pastures].
    rewrite H1, H2, H3, H4, H5, flat_map_app.
    exact (layout_add_pastures _ _ _ _ _ _ Hok E1 E2).
  - apply build_pastures_raise in E. subst. exact Hok.
Qed.

Lemma placement_sow ng nv p :
  placement_ok p -> placement_ok (board_after (sow ng nv p)).
Proof.
  intros Hok. unfold sow.
  pose proof (change_state_regions [("grain", - ng); ("veg", - nv)]
                [("empty_fields", ng + nv)] p) as Hreg.
  destruct (change_state _ _ p) as [p1|e p1]; cbn [obind board_after] in *.
  - apply (placement_ok_regions p p1 Hreg) in Hok.
    destruct (plant_all_fields ng nv p1) as (fs & -> & Hsp & _).
    revert Hok. apply placement_ok_ext; try reflexivity.
    unfold field_spaces. cbn [_fields set_fields].
    rewrite !(flat_map_singletons field_space). exact Hsp.
  - apply (placement_ok_regions p p1 Hreg Hok).
Qed.

(** X13: every operation of the board, whether it returns or raises,
    keeps these layout rules: rooms, fields and stables never share a
    cell, among themselves or with each other; every region lies on the
    board; rooms, fields and pastures are each orthogonally connected. *)
Theorem placement_kept :
  forall (o : operation) (p : Player),
    placement_ok p -> placement_ok (board_after (run o p)).
Proof.
  intros o p Hok. destruct o; cbn [run].
  - apply placement_build_rooms, Hok.
  - apply placement_build_pastures, Hok.
  - apply placement_build_stables, Hok.
  - apply placement_plow_fields, Hok.
  - apply placement_sow, Hok.
  - rewrite bake_bread_board. exact Hok.
  - apply (placement_ok_regions p _ (cook_food_regions counts p) Hok).
  - apply (placement_ok_regions p _ (add_people_regions n p) Hok).
  - apply (placement_ok_regions p _
             (proj1 (add_animals_regions _check_animal_capacity kwargs p))
             Hok).
Qed.

Lemma Player_init_placement
    sh ht rooms fields stables pastures res ani a b c d p :
  Player_init sh ht rooms fields stables pastures res ani a b c d = Ok p ->
  placement_ok p.
Proof.
  unfold Player_init.
  set (shp := match sh with Some s => s | None => (3, 5) end).
  set (rms := match rooms with
              | Some r => r
              | None => [mkRoom (0, 0); mkRoom (0, 1)]
              end).
  destruct (check_spatial shp [] (room_cells rms) []) as [[]|e] eqn:E1;
    cbn [rbind]; [|discriminate].
  destruct (check_connected_group (room_cells rms)) as [[]|e] eqn:E2;
    cbn [rbind]; [|discriminate].
  destruct (check_spatial shp _ (pasture_cells pastures) _) as [[]|e] eqn:E3;
    cbn [rbind]; [|discriminate].
  destruct (check_connected_group (pasture_cells pastures)) as [[]|e] eqn:E4;
    cbn [rbind]; [|discriminate].
  destruct (check_spatial shp _ (stable_cells stables) _) as [[]|e] eqn:E5;
    cbn [rbind]; [|discriminate].
  destruct (check_spatial shp _ (field_cells fields) _) as [[]|e] eqn:E6;
    cbn [rbind]; [|discriminate].
  destruct (check_connected_group (field_cells fields)) as [[]|e] eqn:E7;
    cbn [rbind]; [|discriminate].
  intros H; inversion H; subst p; clear H.
  apply check_spatial_ok in E1, E3, E5, E6.
  apply check_connected_group_connected in E2, E4, E7.
  rewrite room_cells_spaces in E1, E2.
  rewrite pasture_cells_spaces in E3, E4.
  rewrite concat_stable_cells in E5.
  rewrite field_cells_spaces in E6, E7.
  destruct E1 as (BR & NR & _). destruct E3 as (BP & _).
  destruct E5 as (BS & NS & US). destruct E6 as (BF & NF & UF).
  unfold unoccupied in US, UF.
  assert (Hr : ~ In "room" ["pasture"]) by (cbn; intuition discriminate).
  assert (SR : forall s, In s (map stable_space stables) ->
                         ~ In s (map room_space rms)).
  { intros s Hs. rewrite <- room_cells_spaces.
    apply (US "room" _ s); [cbn; tauto|exact Hr|exact Hs]. }
  assert (FR : forall s, In s (map field_space fields) ->
                         ~ In s (map room_space rms)).
  { intros s Hs. rewrite <- room_cells_spaces.
    apply (UF "room" _ s); [cbn; tauto|intros []|exact Hs]. }
  assert (FS : forall s, In s (map field_space fields) ->
                         ~ In s (map stable_space stables)).
  { intros s Hs. rewrite <- concat_stable_cells.
    apply (UF "stable" _ s); [cbn; tauto|intros []|exact Hs]. }
  unfold placement_ok, room_spaces, field_spaces, stable_spaces,
    Player_pasture_spaces.
  cbn [shape _rooms _fields _stables _pastures].
  rewrite !flat_map_singletons.
  repeat split; try assumption.
  - intros s Hs C. exact (FR s C Hs).
  - intros s Hs C. exact (SR s C Hs).
Qed.

Lemma fresh_board_placement : placement_ok fresh_board.
Proof.
  apply (Player_init_placement None "wood" None [] [] []
           (mkResources 0 0 0 0 0 0 0) (mkAnimals 0 0 0) 2 3 15 4).
  reflexivity.
Qed.

(** X14: a board that the constructor accepts obeys the layout rules that
    the operations keep. *)
Theorem constructor_establishes_placement :
  forall (sh : option cell) (ht : string) (rooms : option (list Room))
         (fields : list Field) (stables : list Stable)
         (pastures : list Pasture) (res : Resources) (ani : Animals)
         (a b c d : Z) (p : Player),
    Player_init sh ht rooms fields stables pastures res ani a b c d = Ok p ->
    placement_ok p.
Proof.
  intros sh ht rooms fields stables pastures res ani a b c d p.
  apply Player_init_placement.
Qed.

Lemma constructor_establishes_placement_witness :
  placement_ok (board_with (mkResources 0 3 0 0 0 0 0)).
Proof.
  apply (constructor_establishes_placement None "wood" None [] [] []
           (mkResources 0 3 0 0 0 0 0) (mkAnimals 0 0 0) 2 3 15 4).
  reflexivity.
Defined.

Lemma placement_kept_witness :
  placement_ok (board_after (run (PlowFields (Spaces [(1, 0); (1, 1)]))
                               fresh_board)).
Proof. apply placement_kept. exact fresh_board_placement. Defined.

(** ** Fields stay well formed *)

Lemma build_rooms_fields spaces p :
  _fields (board_after (build_rooms spaces p)) = _fields p.
Proof.
  destruct (build_rooms spaces p) as [p'|e p'] eqn:E; cbn [board_after].
  - apply build_rooms_done in E. destruct E as (p1 & _ & _ & E3 & ->).
    regions_of E3 Hreg. destruct Hreg as (_ & _ & _ & _ & H5 & _).
    exact H5.
  - apply build_rooms_raise in E. subst. reflexivity.
Qed.

Lemma build_stables_fields spaces cost p :
  _fields (board_after (build_stables spaces cost p)) = _fields p.
Proof.
  destruct (build_stables spaces cost p) as [p'|e p'] eqn:E;
    cbn [board_after].
  - apply build_stables_done in E.
    destruct E as (cells & p1 & _ & _ & _ & E3 & ->).
    regions_of E3 Hreg. destruct Hreg as (_ & _ & _ & _ & H5 & _).
    exact H5.
  - apply build_stables_raise in E. subst. reflexivity.
Qed.

Lemma build_pastures_fields args p :
  _fields (board_after (build_pastures args p)) = _fields p.
Proof.
  destruct (build_pastures args p) as [p'|e p'] eqn:E; cbn [board_after].
  - apply build_pastures_done in E.
    destruct E as (pastures & p1 & _ & _ & _ & E3 & ->).
    regions_of E3 Hreg. destruct Hreg as (_ & _ & _ & _ & H5 & _).
    exact H5.
  - apply build_pastures_raise in E. subst. reflexivity.
Qed.

(** X15: every operation of the board, whether it returns or raises,
    leaves every field well formed: a field holds items exactly when it
    has a kind. *)
Theorem fields_stay_well_formed :
  forall (o : operation) (p : Player),
    Forall Field_ok (_fields p) ->
    Forall Field_ok (_fields (board_after (run o p))).
Proof.
  intros o p Hok. destruct o; cbn [run].
  - rewrite build_rooms_fields. exact Hok.
  - rewrite build_pastures_fields. exact Hok.
  - rewrite build_stables_fields. exact Hok.
  - destruct (plow_fields spaces p) as [p'|e p'] eqn:E; cbn [board_after].
    + apply plow_fields_done in E. destruct E as (cells & _ & _ & _ & ->).
      cbn [_fields set_fields]. apply Forall_app_intro; [exact Hok|].
      apply Forall_forall. intros f Hf. apply in_map_iff in Hf.
      destruct Hf as (s & <- & _). reflexivity.
    + apply plow_fields_raise in E. subst. exact Hok.
  - unfold sow.
    pose proof (change_state_regions [("grain", - n_grain); ("veg", - n_veg)]
                  [("empty_fields", n_grain + n_veg)] p) as Hreg.
    destruct (change_state _ _ p) as [p1|e p1]; cbn [obind board_after] in *;
      destruct Hreg as (_ & _ & _ & _ & H5 & _).
    + destruct (plant_all_fields n_grain n_veg p1) as (fs & -> & _ & Hfs).
      cbn [_fields set_fields]. apply Hfs. rewrite H5. exact Hok.
    + rewrite H5. exact Hok.
  - rewrite bake_bread_board. exact Hok.
  - destruct (cook_food_regions counts p) as (_ & _ & _ & _ & H5 & _).
    rewrite H5. exact Hok.
  - destruct (add_people_regions n p) as (_ & _ & _ & _ & H5 & _).
    rewrite H5. exact Hok.
  - destruct (proj1 (add_animals_regions _check_animal_capacity kwargs p))
      as (_ & _ & _ & _ & H5 & _).
    unfold add_animals. rewrite H5. exact Hok.
Qed.

Lemma fields_stay_well_formed_witness :
  Forall Field_ok
    (_fields (board_after
                (run (Sow 1 0)
                   (set_fields (board_with (mkResources 0 0 0 0 0 1 0))
                      [mkField (1, 0) 0 None])))).
Proof.
  apply fields_stay_well_formed. cbn [_fields set_fields].
  repeat constructor.
Defined.

(** ** The goods never go negative, whatever the operation *)

Lemma ledger_nonneg_same p p' :
  attrs p' = attrs p -> resources p' = resources p ->
  animals p' = animals p -> ledger_nonneg p -> ledger_nonneg p'.
Proof.
  intros H1 H2 H3 H r Hr. destruct (H r Hr) as (z & Hz & Hz0).
  exists z. split; [|exact Hz0].
  rewrite getattr_ledger in * by exact Hr. rewrite H1, H2, H3. exact Hz.
Qed.

Lemma change_state_nonneg chg pre p :
  ledger_nonneg p ->
  (forall r, In r ledger_names -> 0 <= amount pre r) ->
  ledger_nonneg (board_after (change_state chg pre p)).
Proof.
  intros Hp Ht. unfold change_state, PlayerStateChange_init.
  destruct (init_prereq chg pre) as [pre'|e] eqn:E;
    cbn [rbind board_after]; [|exact Hp].
  unfold check_and_apply. cbn [change prereq prereq_fns change_fns].
  destruct (check_prereq _ pre' p) as [[]|e] eqn:Ec;
    cbn [guard obind board_after]; [|exact Hp].
  cbn [run_callbacks obind].
  assert (Hc : covers_change chg p).
  { intros r Hr. destruct (Hp r Hr) as (z & Hz & Hz0).
    exists z. split; [exact Hz|].
    destruct (Z.ltb_spec 0 (taken chg r)) as [Hpos|Hzero]; [|lia].
    pose proof (init_prereq_has _ r _ _ E Hpos) as Hhas.
    pose proof (init_prereq_amount _ _ _ r E) as Ham.
    pose proof (Ht r Hr) as Hge.
    unfold amount in Ham at 1.
    destruct (dict_get String.eqb pre' r) as [x|] eqn:Ex; [|contradiction].
    apply dict_get_In in Ex.
    destruct (check_prereq_ok _ _ _ Ec r x Ex) as (cur & Hcur & Hle).
    rewrite Hz in Hcur. inversion Hcur; subst. lia. }
  pose proof (apply_change_covers _ p Hc) as H1.
  destruct (apply_change chg p) as [p1|e1 p1];
    cbn [obind board_after] in *; exact H1.
Qed.

Ltac nonneg_guard Hp :=
  match goal with
  | |- ledger_nonneg (board_after (obind (guard ?r ?p) _)) =>
      destruct r as [[]|?]; cbn [obind guard board_after]; [|exact Hp]
  end.

Ltac nonneg_change Hp :=
  match goal with
  | |- ledger_nonneg (board_after (obind (change_state ?c ?q ?p) _)) =>
      let H1 := fresh "H" in
      assert (H1 : ledger_nonneg (board_after (change_state c q p)))
        by (apply change_state_nonneg; [exact Hp|intros ? ?; cbn; lia]);
      destruct (change_state c q p); cbn [obind board_after] in *;
      [|exact H1]
  end.

(** X16: on a board whose goods and animals are not negative, every
    operation, whether it returns or raises, leaves them not negative. *)
Theorem operations_keep_goods_nonnegative :
  forall (o : operation) (p : Player),
    attrs_ok p -> ledger_nonneg p ->
    ledger_nonneg (board_after (run o p)).
Proof.
  intros o p Hok Hp. destruct o; cbn [run].
  - unfold build_rooms. nonneg_guard Hp. nonneg_guard Hp. nonneg_change Hp.
    revert H. apply ledger_nonneg_same; reflexivity.
  - unfold build_pastures.
    destruct (map_result Pasture_init pastures); [|exact Hp].
    nonneg_guard Hp. nonneg_guard Hp. nonneg_change Hp.
    revert H. apply ledger_nonneg_same; reflexivity.
  - unfold build_stables.
    destruct (as_space_list spaces); [|exact Hp].
    nonneg_guard Hp. nonneg_guard Hp. nonneg_change Hp.
    revert H. apply ledger_nonneg_same; reflexivity.
  - unfold plow_fields.
    destruct (l <- as_space_list spaces ;; map_result _ l); [|exact Hp].
    nonneg_guard Hp. nonneg_guard Hp.
    revert Hp. apply ledger_nonneg_same; reflexivity.
  - unfold sow.
    assert (H1 : ledger_nonneg
                   (board_after
                      (change_state [("grain", - n_grain); ("veg", - n_veg)]
                         [("empty_fields", n_grain + n_veg)] p))).
    { apply change_state_nonneg; [exact Hp|].
      intros r Hr. unfold amount. cbn [dict_get].
      destruct (String.eqb_spec r "empty_fields") as [->|_]; [|lia].
      simpl in Hr. intuition discriminate. }
    destruct (change_state _ _ p) as [p1|e p1]; cbn [obind board_after] in *;
      [|exact H1].
    destruct (plant_all_fields n_grain n_veg p1) as (fs & -> & _).
    revert H1. apply ledger_nonneg_same; reflexivity.
  - rewrite bake_bread_board. exact Hp.
  - unfold cook_food. destruct (cook_change _ _ _); [|exact Hp].
    apply change_state_nonneg; [exact Hp|intros ? ?; cbn; lia].
  - unfold add_people. destruct (people_avail p <? n); [exact Hp|].
    revert Hp. apply ledger_nonneg_same; reflexivity.
  - destruct (add_animals kwargs p) as [p'|e p'] eqn:E; cbn [board_after].
    + unfold add_animals in E. destruct kwargs as [|[animal count] t];
        cbn [add_animals_with] in E; [inversion E; subst; exact Hp|].
      destruct (is_some (animals_get (animals p) animal)); cbn [negb] in E;
        [|discriminate].
      rewrite (check_animal_capacity_raises p _ Hok) in E. discriminate.
    + apply (add_animals_raise _ _ _ _ Hok) in E. subst. exact Hp.
Qed.

Lemma operations_keep_goods_nonnegative_witness :
  ledger_nonneg (board_after (run (Sow 1 0) fresh_board)).
Proof.
  apply operations_keep_goods_nonnegative.
  - constructor.
  - exact fresh_board_nonneg.
Defined.

(** ** Sets as lists of first occurrences, for any type of items *)

Section DistinctFacts.
Context {K : Type} (eqb : K -> K -> bool).
Hypothesis eqb_eq : forall a b, eqb a b = true <-> a = b.

Lemma distinct_fold_spec l : forall acc,
  NoDup acc ->
  NoDup (fold_left (fun acc k => if mem eqb k acc then acc else acc ++ [k])
                   l acc)
  /\ forall x,
       In x (fold_left (fun acc k => if mem eqb k acc then acc
                                     else acc ++ [k]) l acc)
       <-> In x acc \/ In x l.
Proof.
  induction l as [|k t IH]; intros acc Hacc; cbn [fold_left].
  - split; [exact Hacc|]. intros x. cbn. tauto.
  - destruct (mem eqb k acc) eqn:E.
    + destruct (IH acc Hacc) as [H1 H2]. split; [exact H1|].
      intros x. rewrite H2. apply (mem_In eqb eqb_eq) in E. cbn [In].
      split; [tauto|]. intros [H|[<-|H]]; auto.
    + apply (mem_not_In eqb eqb_eq) in E.
      destruct (IH (acc ++ [k])) as [H1 H2].
      { apply NoDup_app; [exact Hacc| repeat constructor; auto |].
        intros x Hx [<-|[]]. exact (E Hx). }
      split; [exact H1|]. intros x. rewrite H2, in_app_iff. cbn [In]. tauto.
Qed.

Lemma distinct_nodup l : NoDup (distinct eqb l).
Proof. apply (distinct_fold_spec l []). constructor. Qed.

Lemma distinct_in l x : In x (distinct eqb l) <-> In x l.
Proof.
  unfold distinct. rewrite (proj2 (distinct_fold_spec l [] (NoDup_nil K))).
  cbn. tauto.
Qed.

(** The size of a union: the items of the second set that the first one
    lacks are counted on top of the first. *)
Lemma distinct_app_length a b :
  List.length (distinct eqb (a ++ b))
  = (List.length (distinct eqb a)
     + List.length (filter (fun x => negb (mem eqb x (distinct eqb a)))
                           (distinct eqb b)))%nat.
Proof.
  rewrite <- length_app. apply Permutation_length.
  apply NoDup_Permutation.
  - apply distinct_nodup.
  - apply NoDup_app; [apply distinct_nodup|apply NoDup_filter, distinct_nodup|].
    intros x Hx C. apply filter_In in C. destruct C as [_ C].
    apply (mem_In eqb eqb_eq) in Hx. rewrite Hx in C. discriminate.
  - intros x. rewrite distinct_in, !in_app_iff, filter_In, !distinct_in.
    split.
    + intros [H|H]; [tauto|].
      destruct (mem eqb x (distinct eqb a)) eqn:M.
      * apply (mem_In eqb eqb_eq) in M. apply (proj1 (distinct_in a x)) in M.
        tauto.
      * right. split; [exact H|reflexivity].
    + tauto.
Qed.

End DistinctFacts.

Lemma fence_eqb_eq a b : fence_eqb a b = true <-> a = b.
Proof.
  unfold fence_eqb. destruct a as [a1 a2], b as [b1 b2]. cbn [fst snd].
  rewrite andb_true_iff, !cell_eqb_eq. split.
  - intros [-> ->]. reflexivity.
  - intros H; inversion H; auto.
Qed.

(** ** The pieces of a player are conserved *)

Lemma fences_grow ps qs :
  len (fences_for_pasture_group (ps ++ qs))
  = len (fences_for_pasture_group ps)
    + len (set_minus (fences_for_pasture_group qs)
             (fences_for_pasture_group ps)).
Proof.
  unfold fences_for_pasture_group, set_minus, len.
  rewrite flat_map_app, (distinct_app_length fence_eqb fence_eqb_eq). lia.
Qed.

Lemma change_state_counter chg pre p p' c :
  change_state chg pre p = Done p' -> In c counter_names ->
  reading p' c = reading p c + delta chg c.
Proof.
  intros H Hc. apply change_state_done in H.
  destruct H as (pre' & _ & _ & H).
  apply (apply_change_effect chg p p' c); [|exact H].
  apply in_or_app. right. exact Hc.
Qed.

Lemma pieces_change_state chg pre p p' :
  change_state chg pre p = Done p' ->
  (forall c, In c counter_names -> delta chg c = 0) ->
  pieces p' = pieces p.
Proof.
  intros H Hd. regions_of H Hreg.
  destruct Hreg as (_ & _ & H3 & H4 & _).
  unfold pieces, fences. rewrite H3, H4.
  change (people p') with (reading p' "people").
  change (people_avail p') with (reading p' "people_avail").
  change (stables_avail p') with (reading p' "stables_avail").
  change (fences_avail p') with (reading p' "fences_avail").
  rewrite !(change_state_counter chg pre p p') by (exact H || (cbn; tauto)).
  rewrite !Hd by (cbn; tauto). rewrite !Z.add_0_r. reflexivity.
Qed.

Lemma ledger_not_counter r c :
  In r ledger_names -> In c counter_names -> r <> c.
Proof.
  intros Hr Hc ->. simpl in Hr, Hc.
  repeat (destruct Hr as [Hr|Hr];
          [repeat (destruct Hc as [Hc|Hc]; [subst; discriminate|]);
           contradiction|]).
  contradiction.
Qed.

Lemma delta_goods chg c :
  Forall (fun kv => In (fst kv) ledger_names) chg -> In c counter_names ->
  delta chg c = 0.
Proof.
  intros H Hc. apply delta_absent. intros Hin. apply in_map_iff in Hin.
  destruct Hin as (kv & E & Hkv). rewrite Forall_forall in H.
  apply (ledger_not_counter (fst kv) c); [apply H, Hkv|exact Hc|exact E].
Qed.

Lemma cook_change_goods rates counts : forall chg chg',
  Forall (fun kv => In (fst kv) ledger_names) chg ->
  cook_change rates counts chg = Ok chg' ->
  Forall (fun kv => In (fst kv) ledger_names) chg'.
Proof.
  induction counts as [|[r c] t IH]; cbn [cook_change]; intros chg chg' H E.
  - inversion E; subst; exact H.
  - destruct (dict_get String.eqb (dict_set String.eqb r (- c) chg) "food");
      [|discriminate].
    destruct (cooking_rates_get rates r) eqn:Er; [|discriminate].
    apply cooking_rates_key in Er.
    eapply IH; [|exact E].
    apply dict_set_keys with (P := fun k => In k ledger_names).
    + simpl; auto.
    + apply dict_set_keys with (P := fun k => In k ledger_names); auto.
Qed.

Lemma pieces_build_rooms spaces p :
  In (house_type p) house_progression ->
  pieces (board_after (build_rooms spaces p)) = pieces p.
Proof.
  intros Hht.
  destruct (build_rooms spaces p) as [p'|e p'] eqn:E; cbn [board_after].
  - apply build_rooms_done in E. destruct E as (p1 & _ & _ & E3 & ->).
    transitivity (pieces p1); [reflexivity|].
    apply (pieces_change_state _ _ _ _ E3).
    intros c Hc. apply delta_goods; [|exact Hc].
    simpl in Hht.
    destruct Hht as [<-|[<-|[<-|[]]]]; repeat constructor; cbn; tauto.
  - apply build_rooms_raise in E. subst. reflexivity.
Qed.

Lemma pieces_build_stables spaces cost p :
  pieces (board_after (build_stables spaces cost p)) = pieces p.
Proof.
  destruct (build_stables spaces cost p) as [p'|e p'] eqn:E;
    cbn [board_after].
  - apply build_stables_done in E.
    destruct E as (cells & p1 & _ & _ & _ & E3 & ->).
    regions_of E3 Hreg. destruct Hreg as (_ & _ & H3 & H4 & _).
    unfold pieces, fences.
    cbn [people people_avail stables_avail fences_avail _stables _pastures
         set_stables].
    rewrite H3, H4.
    change (people p1) with (reading p1 "people").
    change (people_avail p1) with (reading p1 "people_avail").
    change (stables_avail p1) with (reading p1 "stables_avail").
    change (fences_avail p1) with (reading p1 "fences_avail").
    rewrite !(change_state_counter _ _ p p1) by (exact E3 || (cbn; tauto)).
    cbn [delta].
    unfold len. rewrite length_app, length_map.
    change (reading p "people") with (people p).
    change (reading p "people_avail") with (people_avail p).
    change (reading p "stables_avail") with (stables_avail p).
    change (reading p "fences_avail") with (fences_avail p).
    cbn. f_equal; [f_equal|]; lia.
  - apply build_stables_raise in E. subst. reflexivity.
Qed.

Lemma pieces_build_pastures args p :
  pieces (board_after (build_pastures args p)) = pieces p.
Proof.
  destruct (build_pastures args p) as [p'|e p'] eqn:E; cbn [board_after].
  - apply build_pastures_done in E.
    destruct E as (pastures & p1 & _ & _ & _ & E3 & ->).
    regions_of E3 Hreg. destruct Hreg as (_ & _ & H3 & H4 & _).
    unfold pieces, fences.
    cbn [people people_avail stables_avail fences_avail _stables _pastures
         set_pastures].
    rewrite H3, H4, fences_grow.
    change (people p1) with (reading p1 "people").
    change (people_avail p1) with (reading p1 "people_avail").
    change (stables_avail p1) with (reading p1 "stables_avail").
    change (fences_avail p1) with (reading p1 "fences_avail").
    rewrite !(change_state_counter _ _ p p1) by (exact E3 || (cbn; tauto)).
    cbn [delta].
    change (reading p "people") with (people p).
    change (reading p "people_avail") with (people_avail p).
    change (reading p "stables_avail") with (stables_avail p).
    change (reading p "fences_avail") with (fences_avail p).
    cbn. f_equal; [f_equal|]; lia.
  - apply build_pastures_raise in E. subst. reflexivity.
Qed.

Lemma pieces_regions p p' :
  same_regions p p' ->
  (forall c, In c counter_names -> reading p' c = reading p c) ->
  pieces p' = pieces p.
Proof.
  intros (_ & _ & H3 & H4 & _) Hc. unfold pieces, fences. rewrite H3, H4.
  change (people p') with (reading p' "people").
  change (people_avail p') with (reading p' "people_avail").
  change (stables_avail p') with (reading p' "stables_avail").
  change (fences_avail p') with (reading p' "fences_avail").
  rewrite !Hc by (cbn; tauto). reflexivity.
Qed.

(** X17: no operation creates or loses a piece: whether it returns or
    raises, the family members on the board and in the supply, the stables
    built and in the supply, and the fences built and in the supply each
    add up to what they were before, on a board whose house is of wood,
    clay or stone. *)
Theorem pieces_conserved :
  forall (o : operation) (p : Player),
    In (house_type p) house_progression ->
    pieces (board_after (run o p)) = pieces p.
Proof.
  intros o p Hht. destruct o; cbn [run].
  - apply pieces_build_rooms, Hht.
  - apply pieces_build_pastures.
  - apply pieces_build_stables.
  - destruct (plow_fields spaces p) as [p'|e p'] eqn:E; cbn [board_after].
    + apply plow_fields_done in E. destruct E as (cells & _ & _ & _ & ->).
      reflexivity.
    + apply plow_fields_raise in E. subst. reflexivity.
  - unfold sow.
    destruct (change_state [("grain", - n_grain); ("veg", - n_veg)]
                [("empty_fields", n_grain + n_veg)] p) as [p1|e p1] eqn:E;
      cbn [obind board_after].
    + destruct (plant_all_fields n_grain n_veg p1) as (fs & -> & _).
      transitivity (pieces p1); [reflexivity|].
      apply (pieces_change_state _ _ _ _ E).
      intros c Hc. apply delta_goods; [|exact Hc].
      repeat constructor; cbn; tauto.
    + apply change_state_raise in E; [subst; reflexivity|solve_settable].
  - rewrite bake_bread_board. reflexivity.
  - destruct (cook_food counts p) as [p'|e p'] eqn:E; cbn [board_after].
    + unfold cook_food in E.
      destruct (cook_change (cooking_rates p) counts [("food", 0)])
        as [chg|e] eqn:Ec; [|discriminate].
      apply (pieces_change_state _ _ _ _ E).
      intros c Hc. apply delta_goods; [|exact Hc].
      apply (cook_change_goods (cooking_rates p) counts [("food", 0)] chg);
        [|exact Ec].
      repeat constructor.
    + apply cook_food_raise in E. subst. reflexivity.
  - unfold add_people. destruct (people_avail p <? n); cbn [board_after];
      [reflexivity|].
    unfold pieces, fences. cbn. f_equal. f_equal. lia.
  - destruct (add_animals_regions _check_animal_capacity kwargs p)
      as [H1 H2].
    apply (pieces_regions p _ H1 H2).
Qed.

Lemma pieces_conserved_witness :
  pieces (board_after (run (BuildStables (OneSpace (2, 0)) 1)
                         (board_with (mkResources 0 1 0 0 0 0 0))))
  = (5, 4, 15).
Proof.
  rewrite pieces_conserved; [reflexivity|]. left. reflexivity.
Defined.

(** ** Upgrading the house *)

(** X18: [upgrade_house] never upgrades: every call raises and leaves the
    board, the house included, as it was.  It raises [AttributeError] for a
    house of wood or clay, [IndexError] for a house of stone, and
    [ValueError] for any other house type. *)
Theorem upgrade_house_always_raises :
  forall (material : string) (p : Player),
    attrs_ok p ->
    upgrade_house material p
    = Raise (if String.eqb (house_type p) "wood" then AttributeError
             else if String.eqb (house_type p) "clay" then AttributeError
             else if String.eqb (house_type p) "stone" then IndexError
             else ValueError) p.
Proof.
  intros material p Hok. unfold upgrade_house, house_progression.
  assert (Hm : getattr p "material_required" = Err AttributeError).
  { unfold getattr. cbn.
    rewrite (attrs_ok_lookup p "material_required" Hok);
      [reflexivity|cbn; intuition discriminate]. }
  cbn [list_index].
  rewrite (String.eqb_sym "wood"), (String.eqb_sym "clay"),
    (String.eqb_sym "stone").
  destruct (String.eqb (house_type p) "wood").
  - cbn [rbind]. rewrite Hm. reflexivity.
  - destruct (String.eqb (house_type p) "clay").
    + cbn [rbind]. rewrite Hm. reflexivity.
    + destruct (String.eqb (house_type p) "stone"); reflexivity.
Qed.

Lemma upgrade_house_always_raises_witness :
  upgrade_house "clay" (board_with (mkResources 0 0 5 0 5 0 0))
  = Raise AttributeError (board_with (mkResources 0 0 5 0 5 0 0)).
Proof.
  apply (upgrade_house_always_raises "clay"
           (board_with (mkResources 0 0 5 0 5 0 0))).
  constructor.
Defined.

(** ** Fences: the outer boundary of a pasture *)

Lemma cell_fences_edges s :
  cell_fences s = [edge s Top; edge s Right; edge s Bottom; edge s Left].
Proof. reflexivity. Qed.

Lemma edge_in_cell_fences s f :
  In f (cell_fences s) <-> exists d, f = edge s d.
Proof.
  rewrite cell_fences_edges. cbn [In]. split.
  - intros [H|[H|[H|[H|[]]]]]; subst; eauto.
  - intros ([] & ->); tauto.
Qed.

Lemma pair_eq {A B} (a a' : A) (b b' : B) :
  (a, b) = (a', b') <-> a = a' /\ b = b'.
Proof. split; [intros H; inversion H; auto|intros [-> ->]; reflexivity]. Qed.

Lemma cell_fences_nodup s : NoDup (cell_fences s).
Proof.
  unfold cell_fences.
  repeat (apply NoDup_cons; [cbn [In]; rewrite ?pair_eq; lia|]).
  apply NoDup_nil.
Qed.

(** An edge belongs to the cell it is an edge of and to the cell across
    it, and to no other cell. *)
Lemma edge_owners s0 d s :
  In (edge s0 d) (cell_fences s) <-> s = s0 \/ s = across s0 d.
Proof.
  rewrite edge_in_cell_fences. destruct s0 as [r c], s as [r' c'].
  split.
  - intros (d' & H). destruct d, d'; unfold edge, across in *;
      cbn [fst snd] in *; apply pair_eq in H; destruct H as [H1 H2];
      apply pair_eq in H1, H2;
      first [left; apply pair_eq; lia | right; apply pair_eq; lia
            | exfalso; lia].
  - intros [H|H]; rewrite H.
    + exists d. reflexivity.
    + destruct d; [exists Bottom|exists Left|exists Top|exists Right];
        unfold edge, across; cbn [fst snd];
        repeat (apply pair_eq; split); lia.
Qed.

Lemma across_differs s d : across s d <> s.
Proof.
  destruct s as [r c], d; unfold across; cbn [fst snd]; intros H;
    apply pair_eq in H; lia.
Qed.

Lemma occurrences_once f (l : list fence) :
  NoDup l ->
  occurrences fence_eqb l f = if mem fence_eqb f l then 1 else 0.
Proof.
  intros Hnd.
  pose proof (proj1 (occurrences_NoDup fence_eqb fence_eqb_eq l) Hnd f) as H.
  pose proof (occurrences_nonneg fence_eqb l f) as H0.
  destruct (mem fence_eqb f l) eqn:M.
  - apply (mem_In fence_eqb fence_eqb_eq) in M.
    assert (occurrences fence_eqb l f <> 0).
    { rewrite (occurrences_zero fence_eqb fence_eqb_eq). tauto. }
    lia.
  - apply (mem_not_In fence_eqb fence_eqb_eq) in M.
    apply (occurrences_zero fence_eqb fence_eqb_eq), M.
Qed.

Lemma occurrences_fences l f :
  occurrences fence_eqb (flat_map cell_fences l) f
  = len (filter (fun s => mem fence_eqb f (cell_fences s)) l).
Proof.
  induction l as [|s t IH]; [reflexivity|].
  cbn [flat_map filter]. rewrite occurrences_app, IH.
  rewrite (occurrences_once f _ (cell_fences_nodup s)).
  destruct (mem fence_eqb f (cell_fences s)); unfold len;
    cbn [List.length]; lia.
Qed.

(** In a list without repetition that holds [a], the items that are [a]
    or [b] are one, or two when the list holds [b] as well. *)
Lemma count_two (q : cell -> bool) (a b : cell) l :
  NoDup l -> a <> b -> In a l ->
  (forall s, q s = true <-> s = a \/ s = b) ->
  len (filter q l) = 1 <-> ~ In b l.
Proof.
  intros Hnd Hab Ha Hq.
  assert (Hf : NoDup (filter q l)) by apply NoDup_filter, Hnd.
  destruct (mem cell_eqb b l) eqn:M.
  - apply mem_cell_In in M.
    assert (P : Permutation (filter q l) [a; b]).
    { apply NoDup_Permutation; [exact Hf| |].
      - apply NoDup_cons; [cbn [In]; intros [C|[]]; congruence|].
        apply NoDup_cons; [intros []|apply NoDup_nil].
      - intros s. rewrite filter_In, Hq. cbn [In].
        split; [intros [_ [ -> | -> ]]; auto|].
        intros [<-|[<-|[]]]; auto. }
    apply Permutation_length in P. unfold len. rewrite P. cbn.
    split; [discriminate|tauto].
  - assert (Hb : ~ In b l).
    { intros C. apply mem_cell_In in C. congruence. }
    assert (P : Permutation (filter q l) [a]).
    { apply NoDup_Permutation; [exact Hf| |].
      - apply NoDup_cons; [intros []|apply NoDup_nil].
      - intros s. rewrite filter_In, Hq. cbn [In].
        split; [|intros [<-|[]]; auto].
        intros [Hs [ -> | -> ]]; [auto|contradiction]. }
    apply Permutation_length in P. unfold len. rewrite P. cbn. tauto.
Qed.

Lemma fences_of_counts (fs : list fence) f :
  In f (map fst (filter (fun fc => snd fc =? 1) (Counter fence_eqb fs)))
  <-> In f fs /\ occurrences fence_eqb fs f = 1.
Proof.
  rewrite in_map_iff. split.
  - intros ([f' c] & E & H). cbn [fst] in E. subst f'.
    apply filter_In in H. destruct H as [H Hc]. cbn [snd] in Hc.
    apply Z.eqb_eq in Hc. subst c.
    apply (Counter_In fence_eqb fence_eqb_eq) in H. destruct H as [H1 H2].
    split; [exact H1|]. symmetry. exact H2.
  - intros [H1 H2]. exists (f, 1). split; [reflexivity|].
    apply filter_In. split; [|reflexivity].
    apply (Counter_In fence_eqb fence_eqb_eq). split; [exact H1|].
    symmetry. exact H2.
Qed.

(** X19: the fences of a pasture built from distinct cells are its outer
    boundary: an edge of one of its cells is a fence exactly when the
    cell across that edge is not part of the pasture, and nothing else is
    a fence. *)
Theorem pasture_fences_are_boundary :
  forall (a : spaces_arg) (l : list cell) (p : Pasture),
    as_space_list a = Ok l -> NoDup l ->
    Pasture_init a = Ok p ->
    forall f : fence,
      In f (_fences p)
      <-> exists s d, In s l /\ f = edge s d /\ ~ In (across s d) l.
Proof.
  intros a l p Ha Hnd. unfold Pasture_init. rewrite Ha. cbn [rbind].
  intros H; inversion H; subst p; clear H. cbn [_fences]. intros f.
  rewrite fences_of_counts, occurrences_fences.
  assert (Hcount : forall s d, In s l ->
            (len (filter (fun s' => mem fence_eqb (edge s d)
                                      (cell_fences s')) l) = 1
             <-> ~ In (across s d) l)).
  { intros s d Hs. apply (count_two _ s (across s d)); try assumption.
    - intros C. symmetry in C. exact (across_differs s d C).
    - intros s'. rewrite (mem_In fence_eqb fence_eqb_eq).
      apply edge_owners. }
  split.
  - intros [Hin Hone]. apply in_flat_map in Hin.
    destruct Hin as (s & Hs & Hf). apply edge_in_cell_fences in Hf.
    destruct Hf as (d & ->). exists s, d.
    split; [exact Hs|]. split; [reflexivity|].
    apply (Hcount s d Hs), Hone.
  - intros (s & d & Hs & -> & Hno). split.
    + apply in_flat_map. exists s. split; [exact Hs|].
      apply edge_in_cell_fences. eauto.
    + apply (Hcount s d Hs), Hno.
Qed.

Lemma pasture_fences_are_boundary_witness :
  exists p : Pasture,
    Pasture_init (Spaces [(1, 0); (1, 1)]) = Ok p
    /\ (In (edge (1, 0) Left) (_fences p)
        <-> exists s d, In s [(1, 0); (1, 1)] /\ edge (1, 0) Left = edge s d
                        /\ ~ In (across s d) [(1, 0); (1, 1)]).
Proof.
  eexists. split; [reflexivity|].
  apply (pasture_fences_are_boundary (Spaces [(1, 0); (1, 1)])
           [(1, 0); (1, 1)]).
  - reflexivity.
  - repeat (apply NoDup_cons; [cbn [In]; rewrite ?pair_eq; lia|]).
    apply NoDup_nil.
  - reflexivity.
Defined.

(** ** The capacity solver does not depend on the order of its input *)

Lemma split_in_order_perm gs gs' l l' :
  Permutation gs gs' -> Permutation l l' ->
  split_in_order gs l -> split_in_order gs' l'.
Proof.
  intros Hg Hl (parts & rst & Hp & Hf).
  destruct (Permutation_Forall2 Hg Hf) as (parts' & Hparts & Hf').
  exists parts', rst. split; [|exact Hf'].
  rewrite <- (concat_perm _ _ Hparts), Hp. exact Hl.
Qed.

Lemma split_in_order_more gs l c :
  split_in_order gs l -> split_in_order gs (c :: l).
Proof.
  intros (parts & rst & Hp & Hf). exists parts, (c :: rst).
  split; [|exact Hf].
  rewrite <- Hp. symmetry. apply Permutation_middle.
Qed.

Lemma solver_split gs caps :
  Forall (fun c => 0 <= c) caps ->
  (Utils.multiset_satisfy gs (Counter Z.eqb caps) = true
   <-> split_in_order gs caps).
Proof.
  intros H. destruct (Counter_ok caps H) as [Hok Hp]. split.
  - intros Hs. apply (multiset_satisfy_sound gs _ Hok) in Hs.
    apply (split_in_order_perm gs gs _ caps (Permutation_refl gs) Hp Hs).
  - intros Hs. apply (multiset_satisfy_complete gs _ Hok).
    apply (split_in_order_perm gs gs caps _ (Permutation_refl gs)
             (Permutation_sym Hp) Hs).
Qed.

(** X20: the answer of the capacity solver depends neither on the order
    of the requirements nor on the order of the capacities, and a further
    capacity never turns an accepted requirement list into a rejected
    one. *)
Theorem solver_order_independent :
  forall (gs gs' caps caps' : list Z) (c : Z),
    Forall (fun c => 0 <= c) caps -> 0 <= c ->
    Permutation gs gs' -> Permutation caps caps' ->
    Utils.multiset_satisfy gs (Counter Z.eqb caps)
    = Utils.multiset_satisfy gs' (Counter Z.eqb caps')
    /\ (Utils.multiset_satisfy gs (Counter Z.eqb caps) = true ->
        Utils.multiset_satisfy gs (Counter Z.eqb (c :: caps)) = true).
Proof.
  intros gs gs' caps caps' c Hcaps Hc Hg Hl.
  assert (Hcaps' : Forall (fun c => 0 <= c) caps').
  { apply (Permutation_Forall Hl Hcaps). }
  split.
  - apply Bool.eq_iff_eq_true.
    rewrite (solver_split gs caps Hcaps), (solver_split gs' caps' Hcaps').
    split; apply split_in_order_perm; auto using Permutation_sym.
  - intros H. apply (solver_split gs caps Hcaps) in H.
    apply solver_split; [constructor; assumption|].
    apply split_in_order_more, H.
Qed.

Lemma solver_order_independent_witness :
  Utils.multiset_satisfy [1; 2] (Counter Z.eqb [1; 1; 2])
  = Utils.multiset_satisfy [2; 1] (Counter Z.eqb [2; 1; 1]).
Proof.
  refine (proj1 (solver_order_independent [1; 2] [2; 1] [1; 1; 2] [2; 1; 1]
                   0 _ _ _ _)).
  - repeat constructor; lia.
  - lia.
  - apply perm_swap.
  - apply Permutation_sym, (Permutation_cons_append [1; 1] 2).
Defined.

(** ** What the building operations accept, and what they do *)

Lemma unoccupied_board p omit cells :
  unoccupied (occupied p) omit cells
  <-> forall s, In s cells ->
        (~ In "room" omit -> ~ In s (room_spaces p))
        /\ (~ In "pasture" omit -> ~ In s (recorded_pasture_spaces p))
        /\ (~ In "stable" omit -> ~ In s (stable_spaces p))
        /\ (~ In "field" omit -> ~ In s (field_spaces p)).
Proof.
  unfold unoccupied, occupied, room_spaces, stable_spaces, field_spaces,
    recorded_pasture_spaces.
  rewrite !flat_map_singletons.
  rewrite <- room_cells_spaces, <- concat_stable_cells, <- field_cells_spaces,
    <- pasture_cells_spaces.
  split.
  - intros H s Hs. repeat split; intros Ho.
    + apply (H "room" _ s); [cbn; tauto|exact Ho|exact Hs].
    + apply (H "pasture" _ s); [cbn; tauto|exact Ho|exact Hs].
    + apply (H "stable" _ s); [cbn; tauto|exact Ho|exact Hs].
    + apply (H "field" _ s); [cbn; tauto|exact Ho|exact Hs].
  - intros H kind objects s Hin Ho Hs.
    destruct (H s Hs) as (H1 & H2 & H3 & H4). cbn [In] in Hin.
    destruct Hin as [E|[E|[E|[E|[]]]]]; inversion E; subst; auto.
Qed.



Lemma connected_check_iff objects :
  check_connected_group objects = Ok tt <-> connected (List.concat objects).
Proof.
  split; [apply check_connected_group_connected|].
  apply check_connected_group_spec.
Qed.






Lemma placement_everywhere p objects cells :
  List.concat objects = cells ->
  (_check_spatial_objects p objects [] = Ok tt
   <-> Forall (in_bounds (shape p)) cells /\ NoDup cells
       /\ (forall s, In s cells ->
             ~ In s (room_spaces p) /\ ~ In s (recorded_pasture_spaces p)
             /\ ~ In s (stable_spaces p) /\ ~ In s (field_spaces p))).
Proof.
  intros <-. unfold _check_spatial_objects.
  rewrite check_spatial_ok, unoccupied_board. split.
  - intros (B & N & U). split; [exact B|]. split; [exact N|].
    intros s H. destruct (U s H) as (U1 & U2 & U3 & U4).
    repeat split; [apply U1|apply U2|apply U3|apply U4]; intros [].
  - intros (B & N & U). split; [exact B|]. split; [exact N|].
    intros s H. destruct (U s H) as (U1 & U2 & U3 & U4).
    repeat split; intros _; assumption.
Qed.



(** X23: [plow_fields] goes through exactly when every new cell lies on
    the board, no cell is given twice, no new cell holds a room, a stable,
    a field or a pasture that the constructor was given, and the old and
    new fields together are connected.  It then appends one empty field
    for each cell and changes nothing else; it costs nothing. *)
Theorem plow_fields_spec :
  forall (spaces : spaces_arg) (p : Player) (cells : list cell),
    as_space_list spaces = Ok cells ->
    forall p',
      plow_fields spaces p = Done p'
      <-> (Forall (in_bounds (shape p)) cells /\ NoDup cells
           /\ (forall s, In s cells ->
                 ~ In s (room_spaces p) /\ ~ In s (recorded_pasture_spaces p)
                 /\ ~ In s (stable_spaces p) /\ ~ In s (field_spaces p))
           /\ connected (field_spaces p ++ cells))
          /\ p' = set_fields p
                    (_fields p ++ map (fun s => mkField s 0 None) cells).
Proof.
  intros spaces p cells Ha p'.
  pose proof (placement_everywhere p
                (field_cells (map (fun s => mkField s 0 None) cells)) cells)
    as Hplace.
  rewrite field_cells_spaces, map_field_space in Hplace.
  specialize (Hplace eq_refl).
  assert (Hconn :
    check_connected_group
      (field_cells (_fields p ++ map (fun s => mkField s 0 None) cells))
    = Ok tt <-> connected (field_spaces p ++ cells)).
  { rewrite connected_check_iff, field_cells_spaces, map_app, map_field_space.
    unfold field_spaces. rewrite (flat_map_singletons field_space).
    reflexivity. }
  split.
  - intros H. apply plow_fields_done in H.
    destruct H as (cells' & Ha' & H1 & H2 & ->).
    rewrite Ha in Ha'. inversion Ha'; subst cells'.
    apply Hplace in H1. apply Hconn in H2.
    destruct H1 as (B & N & U). repeat split; try assumption;
      apply (U s H).
  - intros ((B & N & U & C) & ->). unfold plow_fields.
    rewrite Ha. cbn [rbind]. rewrite empty_fields_init.
    rewrite (proj2 Hplace) by auto. cbn [guard obind].
    rewrite (proj2 Hconn C). reflexivity.
Qed.

Lemma plow_fields_spec_witness :
  plow_fields (Spaces [(1, 0); (1, 1)]) fresh_board
  = Done (set_fields fresh_board
            [mkField (1, 0) 0 None; mkField (1, 1) 0 None]).
Proof.
  apply (proj2 (plow_fields_spec (Spaces [(1, 0); (1, 1)]) fresh_board
                  [(1, 0); (1, 1)] eq_refl _)).
  split; [|reflexivity].
  split; [repeat constructor; cbn; lia|].
  split.
  - apply NoDup_cons; [cbn; intuition discriminate|].
    apply NoDup_cons; [intros []|apply NoDup_nil].
  - split; [intros s [<-|[<-|[]]]; cbn; intuition discriminate|].
    apply (proj1 (connected_check_iff [[(1, 0)]; [(1, 1)]])).
    reflexivity.
Defined.







